(** * QuantPulse client runtime (static/js/quantpulse.js)

    A shallow embedding of the QuantPulse browser library: the numeric
    helper [calculatePercentageChange] and the email test of
    [QuantPulse.utils], the request helper [QuantPulse.api], the chart
    option merge of [QuantPulse.charts], the toasts of
    [QuantPulse.toast], the form validation of [QuantPulse.validation],
    the local-storage cache [QuantPulse.storage], the [debounce] and
    [throttle] wrappers and the WebSocket connection manager
    [QuantPulse.websocket].

    Conventions.  Numbers that the code computes with are IEEE 754
    binary64 values.  Time is the value of [Date.now()], an integer number
    of milliseconds ([Z]).  A pending [setTimeout] callback is a record in a
    queue; the event loop runs a callback once its due time has been
    reached, and where a callback and a call fall on the same millisecond
    the order of the two is a parameter of the run.  JavaScript values
    that only travel through the code (request bodies, cached values,
    wrapper arguments) are [json] trees. *)

From Stdlib Require Import ZArith Lia List Bool Ascii String.
From Stdlib Require Import DecimalString DecimalNat.
From Stdlib Require PrimFloat FloatOps Uint63.
From stdpp Require Import gmap strings list.
Import ListNotations.

Set Warnings "-register-all".

Local Open Scope Z_scope.

(** ** JSON values *)

Inductive json : Type :=
| JNull
| JBool (b : bool)
| JNum (n : Z)
| JStr (s : string)
| JArr (items : list json)
| JObj (fields : list (string * json)).

(** ** JavaScript values and their conversions *)

Module Js.

Import PrimFloat.

(** A JavaScript number is an IEEE 754 binary64 value; the arithmetic
    of [-], [/] and [*] is the arithmetic of such values. *)
Definition number : Set := PrimFloat.float.

(** The values an argument is taken from: [undefined] (also a missing
    argument), [null], booleans, numbers and strings.  Objects, arrays
    among them, symbols and BigInts are left out: converting an object
    runs its [valueOf] or [toString], and arithmetic on a symbol or on
    a BigInt and a number throws. *)
Inductive value : Type :=
| Undefined
| Null
| Bool (b : bool)
| Num (n : number)
| Str (s : string).

Arguments Num n%_float.

Definition is_zero (n : number) : bool := PrimFloat.eqb n PrimFloat.zero.
Definition is_nan (n : number) : bool := negb (PrimFloat.eqb n n).

(** The number an integer from 0 to 2^53 is. *)
Definition of_Z (q : Z) : number := PrimFloat.of_uint63 (Uint63.of_Z q).

(** The quotient of two positive integers scaled by [2^-e], rounded
    down, and what is left. *)
Definition scaled (n d e : Z) : Z * Z :=
  if 0 <=? e then (n / (d * 2 ^ e), d * 2 ^ e) else ((n * 2 ^ (- e)) / d, d).

(** The number nearest to [n / d], for positive [n] and [d]: ties go to
    the even significand, what is too large becomes [Infinity], what is
    too small becomes a subnormal number or zero. *)
Definition nearest (n d : Z) : number :=
  let l := Z.log2 n - Z.log2 d in
  let e0 := Z.max (l - 53) (-1074) in
  let e := if 2 ^ 53 <=? fst (scaled n d e0) then e0 + 1 else e0 in
  let num := if 0 <=? e then n else n * 2 ^ (- e) in
  let den := snd (scaled n d e) in
  let q := num / den in
  let r := num mod den in
  let q' := if (den <? 2 * r) || ((den =? 2 * r) && Z.odd q) then q + 1 else q in
  if (971 <? e) || ((e =? 971) && (q' =? 2 ^ 53)) then PrimFloat.infinity
  else FloatOps.Z.ldexp (of_Z q') e.

(** [StrWhiteSpaceChar], among the characters with a code below 256. *)
Definition is_space (c : ascii) : bool :=
  let k := nat_of_ascii c in
  ((9 <=? k) && (k <=? 13) || (k =? 32) || (k =? 160))%nat.

Fixpoint drop_spaces (l : list ascii) : list ascii :=
  match l with
  | [] => []
  | c :: rest => if is_space c then drop_spaces rest else l
  end.

Definition trim (l : list ascii) : list ascii :=
  rev (drop_spaces (rev (drop_spaces l))).

(** The value of a digit in a base up to 16. *)
Definition digit (base : Z) (c : ascii) : option Z :=
  let k := Z.of_nat (nat_of_ascii c) in
  let v := if (48 <=? k) && (k <=? 57) then k - 48
           else if (97 <=? k) && (k <=? 102) then k - 87
           else if (65 <=? k) && (k <=? 70) then k - 55
           else 16 in
  if v <? base then Some v else None.

(** The digits a list starts with: their value after [acc], their
    number, and the rest of the list. *)
Fixpoint digits (base : Z) (l : list ascii) (acc : Z) (count : Z) : Z * Z * list ascii :=
  match l with
  | [] => (acc, count, [])
  | c :: rest =>
      match digit base c with
      | Some v => digits base rest (acc * base + v) (count + 1)
      | None => (acc, count, l)
      end
  end.

(** A literal that is all digits in the given base. *)
Definition integer_literal (base : Z) (l : list ascii) : number :=
  let '(m, count, rest) := digits base l 0 0 in
  match rest with
  | [] => if count =? 0 then PrimFloat.nan
          else if m =? 0 then PrimFloat.zero else nearest m 1
  | _ :: _ => PrimFloat.nan
  end.

(** The number [m * 10^e10] is rounded to, [m] being written with
    [count] digits. *)
Definition decimal_value (m count e10 : Z) : number :=
  if m =? 0 then PrimFloat.zero
  else if 400 <? e10 then PrimFloat.infinity
  else if e10 + count <? -400 then PrimFloat.zero
  else if 0 <=? e10 then nearest (m * 10 ^ e10) 1
  else nearest m (10 ^ (- e10)).

(** [ExponentPart], when there is one: [e] or [E], a sign or none, and
    at least one digit, up to the end of the string. *)
Definition exponent (l : list ascii) : option Z :=
  match l with
  | [] => Some 0
  | c :: rest =>
      if Ascii.eqb c "e" || Ascii.eqb c "E" then
        let '(neg, rest') :=
          match rest with
          | s :: r => if Ascii.eqb s "-" then (true, r)
                      else if Ascii.eqb s "+" then (false, r) else (false, rest)
          | [] => (false, rest)
          end in
        let '(x, count, tail) := digits 10 rest' 0 0 in
        match tail with
        | [] => if count =? 0 then None else Some (if neg then - x else x)
        | _ :: _ => None
        end
      else None
  end.

(** [StrUnsignedDecimalLiteral] *)
Definition unsigned_decimal (l : list ascii) : number :=
  if String.eqb (string_of_list_ascii l) "Infinity" then PrimFloat.infinity
  else
    let '(i, icount, rest) := digits 10 l 0 0 in
    let '(m, fcount, rest') :=
      match rest with
      | c :: r => if Ascii.eqb c "." then
                    let '(m, fcount, r') := digits 10 r i 0 in (m, fcount, r')
                  else (i, 0, rest)
      | [] => (i, 0, rest)
      end in
    if icount + fcount =? 0 then PrimFloat.nan
    else
      match exponent rest' with
      | Some x => decimal_value m (icount + fcount) (x - fcount)
      | None => PrimFloat.nan
      end.

(** StringToNumber: white space at both ends is dropped; the empty
    string is 0; a literal in base 16, 8 or 2 carries no sign; anything
    that is not a numeric literal is [NaN]. *)
Definition StringToNumber (s : string) : number :=
  match trim (list_ascii_of_string s) with
  | [] => PrimFloat.zero
  | c :: rest =>
      let l := c :: rest in
      match rest with
      | p :: r =>
          if Ascii.eqb c "0" && (Ascii.eqb p "x" || Ascii.eqb p "X") then integer_literal 16 r
          else if Ascii.eqb c "0" && (Ascii.eqb p "o" || Ascii.eqb p "O") then integer_literal 8 r
          else if Ascii.eqb c "0" && (Ascii.eqb p "b" || Ascii.eqb p "B") then integer_literal 2 r
          else if Ascii.eqb c "-" then PrimFloat.opp (unsigned_decimal rest)
          else if Ascii.eqb c "+" then unsigned_decimal rest
          else unsigned_decimal l
      | [] => unsigned_decimal l
      end
  end.

(** ToNumber *)
Definition to_number (v : value) : number :=
  match v with
  | Undefined => PrimFloat.nan
  | Null => PrimFloat.zero
  | Bool b => if b then PrimFloat.one else PrimFloat.zero
  | Num n => n
  | Str s => StringToNumber s
  end.

(** ToBoolean *)
Definition truthy (v : value) : bool :=
  match v with
  | Undefined | Null => false
  | Bool b => b
  | Num n => negb (is_zero n || is_nan n)
  | Str s => negb (String.eqb s "")
  end.

(** [v === 0] *)
Definition strict_eq_zero (v : value) : bool :=
  match v with
  | Num n => is_zero n
  | _ => false
  end.

End Js.

(** ** QuantPulse.utils: numeric helper *)

Module Utils.

Import Js.

(** What a call evaluates to: the value it returns and, for the record,
    the divisor of every division it performed on the way. *)
Record evaluation : Type := {
  result : number;
  divisors : list number
}.

(** [calculatePercentageChange(current, previous)]:
    [if (!previous || previous === 0) return 0;
     return ((current - previous) / previous) * 100;] *)
Definition calculatePercentageChange (current previous : value) : evaluation :=
  if negb (truthy previous) || strict_eq_zero previous
  then {| result := PrimFloat.zero; divisors := [] |}
  else
    let c := to_number current in
    let p := to_number previous in
    {| result := PrimFloat.mul (PrimFloat.div (PrimFloat.sub c p) p) (of_Z 100);
       divisors := [p] |}.

End Utils.

(** ** QuantPulse.api: request helper *)

Module Api.

Local Open Scope string_scope.

(** [String.prototype.startsWith] *)
Definition startsWith (s p : string) : bool := String.prefix p s.

(** [QuantPulse.config.apiBaseUrl] as shipped. *)
Definition apiBaseUrl : string := "/api/v1".

(** [const url = endpoint.startsWith('/') ? QuantPulse.config.apiBaseUrl + endpoint : endpoint;] *)
Definition request_url (base endpoint : string) : string :=
  if startsWith endpoint "/" then base ++ endpoint else endpoint.

(** What [fetch] hands back.  A network-level failure rejects the promise
    with a [TypeError]; otherwise it resolves with a response, whose
    [json()] either yields the parsed body or fails on a body that is not
    JSON. *)
Record response : Type := {
  status : nat;
  body_json : option json
}.

Inductive fetch_outcome : Type :=
| NetworkFailure (msg : string)
| Responded (r : response).

(** [response.ok]: the status is in the range 200-299. *)
Definition ok (r : response) : bool :=
  (200 <=? status r)%nat && (status r <=? 299)%nat.

(** An error object: its [name] and its [message]. *)
Record js_error : Type := {
  name : string;
  message : string
}.

Inductive settled : Type :=
| Resolved (v : json)
| Rejected (e : js_error).

(** The text a template literal gives for a non-negative integer. *)
Definition decimal (n : nat) : string := NilEmpty.string_of_uint (Nat.to_uint n).

Definition http_error_prefix : string := "HTTP error! status: ".

(** [fetch(url, config).then(response => { if (!response.ok) throw new
    Error(`HTTP error! status: ${response.status}`); return response.json(); })] *)
Definition request_settle (o : fetch_outcome) : settled :=
  match o with
  | NetworkFailure msg => Rejected {| name := "TypeError"; message := msg |}
  | Responded r =>
      if ok r then
        match body_json r with
        | Some v => Resolved v
        | None => Rejected {| name := "SyntaxError"; message := "Unexpected token" |}
        end
      else Rejected {| name := "Error"; message := http_error_prefix ++ decimal (status r) |}
  end.

(** [request(endpoint)]: the URL handed to [fetch] and, given what [fetch]
    does with it, the way the returned promise settles. *)
Definition request (base endpoint : string) (net : string -> fetch_outcome) : string * settled :=
  let url := request_url base endpoint in
  (url, request_settle (net url)).

(** [get: function(endpoint) { return this.request(endpoint); }] *)
Definition get (base endpoint : string) (net : string -> fetch_outcome) : string * settled :=
  request base endpoint net.

End Api.

(** ** QuantPulse.storage: local-storage cache *)

Module Storage.

(** The object [set] serialises: [{ value: value, expiry: ... }], the
    expiry being a timestamp or [null]. *)
Record entry : Type := {
  value : json;
  expiry : option Z
}.

(** What [JSON.parse] makes of the string kept under a key: an entry
    object, or an exception when the string is not JSON at all.  Strings
    that parse to anything else are never written by the cache and are
    left out of the model. *)
Inductive item : Type :=
| Parsed (data : entry)
| Corrupt.

(** [`qp_${key}`] *)
Definition qp (key : string) : string := String.append "qp_" key.

(** [expiry ? Date.now() + expiry : null]: a missing, [null] or zero
    [expiry] argument means no expiry. *)
Definition expiry_of (now : Z) (ttl : option Z) : option Z :=
  match ttl with
  | Some t => if t =? 0 then None else Some (now + t)
  | None => None
  end.

(** [set: function(key, value, expiry = null)], on [localStorage] as a
    map from keys to what is stored under them. *)
Definition set (key : string) (v : json) (ttl : option Z) (now : Z) (ls : gmap string item)
  : gmap string item :=
  <[qp key := Parsed {| value := v; expiry := expiry_of now ttl |}]> ls.

(** [remove: function(key) { localStorage.removeItem(`qp_${key}`); }] *)
Definition remove (key : string) (ls : gmap string item) : gmap string item :=
  delete (qp key) ls.

(** [data.expiry && Date.now() > data.expiry] *)
Definition expired (now : Z) (data : entry) : bool :=
  match expiry data with
  | Some e => negb (e =? 0) && (e <? now)
  | None => false
  end.

(** [get: function(key)]: the value returned ([JNull] is JavaScript's
    [null]) and the store it leaves behind. *)
Definition get (key : string) (now : Z) (ls : gmap string item) : json * gmap string item :=
  match ls !! qp key with
  | None => (JNull, ls)
  | Some Corrupt => (JNull, ls)
  | Some (Parsed data) =>
      if expired now data then (JNull, remove key ls)
      else (value data, ls)
  end.

(** [clear]: drops every key that starts with [qp_]. *)
Definition clear (ls : gmap string item) : gmap string item :=
  filter (fun kv => String.prefix "qp_" (fst kv) = false) ls.

End Storage.

(** ** Timers: [setTimeout], [clearTimeout] and the event loop *)

Module Timers.

Section Queue.
Context {C : Type}.

(** A pending callback: the handle [setTimeout] returned, the time at
    which it becomes due, and the callback itself. *)
Record timer : Type := {
  handle : nat;
  due : Z;
  callback : C
}.

Record loop : Type := {
  clock : Z;
  fresh : nat;
  pending : list timer
}.

Definition start (now : Z) : loop :=
  {| clock := now; fresh := 0; pending := [] |}.

(** [setTimeout(cb, delay)]: a negative delay counts as zero. *)
Definition setTimeout (cb : C) (delay : Z) (l : loop) : nat * loop :=
  (fresh l,
   {| clock := clock l;
      fresh := S (fresh l);
      pending := pending l ++ [{| handle := fresh l; due := clock l + Z.max 0 delay; callback := cb |}] |}).

Definition drop (h : nat) (ts : list timer) : list timer :=
  List.filter (fun x => negb (Nat.eqb (handle x) h)) ts.

(** [clearTimeout(h)]; [clearTimeout(undefined)] does nothing. *)
Definition clearTimeout (h : option nat) (l : loop) : loop :=
  match h with
  | None => l
  | Some id => {| clock := clock l; fresh := fresh l; pending := drop id (pending l) |}
  end.

(** The timer that runs first: the earliest due, the oldest among
    equals. *)
Fixpoint earliest (ts : list timer) : option timer :=
  match ts with
  | [] => None
  | x :: rest =>
      match earliest rest with
      | None => Some x
      | Some y => if due y <? due x then Some y else Some x
      end
  end.

Definition next_due (t : Z) (ts : list timer) : option timer :=
  match earliest ts with
  | Some x => if due x <=? t then Some x else None
  | None => None
  end.

Definition take (tm : timer) (l : loop) : loop :=
  {| clock := Z.max (clock l) (due tm);
     fresh := fresh l;
     pending := drop (handle tm) (pending l) |}.

Definition set_clock (t : Z) (l : loop) : loop :=
  {| clock := Z.max (clock l) t; fresh := fresh l; pending := pending l |}.
End Queue.

Arguments timer : clear implicits.
Arguments loop : clear implicits.

(** Letting time pass in a program whose state [St] holds a loop: every
    callback due by [t] runs, in order, each at its due time. *)
Section Run.
Context {C St : Type}.
Variable get_loop : St -> loop C.
Variable set_loop : loop C -> St -> St.
Variable exec : C -> St -> St.

Fixpoint run_due (fuel : nat) (t : Z) (s : St) : St :=
  match fuel with
  | O => s
  | S n =>
      match next_due t (pending (get_loop s)) with
      | None => s
      | Some tm => run_due n t (exec (callback tm) (set_loop (take tm (get_loop s)) s))
      end
  end.

Definition advance (t : Z) (s : St) : St :=
  let s' := run_due (length (pending (get_loop s))) t s in
  set_loop (set_clock t (get_loop s')) s'.

(** The state a call made at time [t] finds.  A callback that is due at
    exactly [t] and the call are two tasks of the same moment and the
    event loop may take either first: when the call is [early], only
    the callbacks due before [t] have run when it is made. *)
Definition arrive (early : bool) (t : Z) (s : St) : St :=
  if early then
    let s' := advance (t - 1) s in
    set_loop (set_clock t (get_loop s')) s'
  else advance t s.
End Run.

End Timers.

(** ** QuantPulse.utils: debounce and throttle *)

(** The receiver ([this]) of a call: an object, or none for a plain call
    [f(...)]. *)
Inductive receiver : Type :=
| NoReceiver
| Receiver (obj : string).

(** One call of a function: its receiver and its arguments. *)
Record invocation : Type := {
  inv_this : receiver;
  inv_args : list json
}.

Module Debounce.

(** The closure state of one debounced wrapper: the timer it last set
    ([timeout]) and, for observation, the calls made to [func] with the
    time of each. *)
Record state : Type := {
  loop : Timers.loop (list json);
  timeout : option nat;
  calls : list (Z * invocation)
}.

Definition init (now : Z) : state :=
  {| loop := Timers.start now; timeout := None; calls := [] |}.

Definition set_loop (l : Timers.loop (list json)) (s : state) : state :=
  {| loop := l; timeout := timeout s; calls := calls s |}.

(** [const later = () => { clearTimeout(timeout); func(...args); };] *)
Definition later (args : list json) (s : state) : state :=
  let l := Timers.clearTimeout (timeout s) (loop s) in
  {| loop := l;
     timeout := timeout s;
     calls := calls s ++ [(Timers.clock l, {| inv_this := NoReceiver; inv_args := args |})] |}.

(** [function executedFunction(...args) { ...; clearTimeout(timeout);
    timeout = setTimeout(later, wait); }] *)
Definition executedFunction (wait : Z) (call : invocation) (s : state) : state :=
  let l := Timers.clearTimeout (timeout s) (loop s) in
  let '(h, l') := Timers.setTimeout (inv_args call) wait l in
  {| loop := l'; timeout := Some h; calls := calls s |}.

Definition advance : Z -> state -> state := Timers.advance loop set_loop later.

(** The wrapper called at the given times, the event loop running in
    between: every callback due by the time of a call has run when the
    call is made. *)
Fixpoint simulate (wait : Z) (inputs : list (Z * invocation)) (s : state) : state :=
  match inputs with
  | [] => s
  | (t, call) :: rest => simulate wait rest (executedFunction wait call (advance t s))
  end.

Definition arrive : bool -> Z -> state -> state := Timers.arrive loop set_loop later.

(** The same with the order at a tie made explicit: each call says
    whether it comes before the callbacks due at its own time. *)
Fixpoint run (wait : Z) (inputs : list (bool * (Z * invocation))) (s : state) : state :=
  match inputs with
  | [] => s
  | (early, (t, call)) :: rest =>
      run wait rest (executedFunction wait call (arrive early t s))
  end.

End Debounce.

Module Throttle.

Record state : Type := {
  loop : Timers.loop unit;
  inThrottle : bool;
  calls : list (Z * invocation)
}.

Definition init (now : Z) : state :=
  {| loop := Timers.start now; inThrottle := false; calls := [] |}.

Definition set_loop (l : Timers.loop unit) (s : state) : state :=
  {| loop := l; inThrottle := inThrottle s; calls := calls s |}.

(** [() => inThrottle = false] *)
Definition reset (_ : unit) (s : state) : state :=
  {| loop := loop s; inThrottle := false; calls := calls s |}.

(** [if (!inThrottle) { func.apply(context, args); inThrottle = true;
    setTimeout(() => inThrottle = false, limit); }] *)
Definition wrapper (limit : Z) (call : invocation) (s : state) : state :=
  if inThrottle s then s
  else
    {| loop := snd (Timers.setTimeout tt limit (loop s));
       inThrottle := true;
       calls := calls s ++ [(Timers.clock (loop s), call)] |}.

Definition advance : Z -> state -> state := Timers.advance loop set_loop reset.

(** The wrapper called at the given times, the event loop running in
    between: every reset due by the time of a call has run when the
    call is made. *)
Fixpoint simulate (limit : Z) (inputs : list (Z * invocation)) (s : state) : state :=
  match inputs with
  | [] => s
  | (t, call) :: rest => simulate limit rest (wrapper limit call (advance t s))
  end.

Definition arrive : bool -> Z -> state -> state := Timers.arrive loop set_loop reset.

(** The same with the order at a tie made explicit: each call says
    whether it comes before the reset due at its own time. *)
Fixpoint run (limit : Z) (inputs : list (bool * (Z * invocation))) (s : state) : state :=
  match inputs with
  | [] => s
  | (early, (t, call)) :: rest => run limit rest (wrapper limit call (arrive early t s))
  end.

End Throttle.

(** ** QuantPulse.websocket: connection manager *)

Module Websocket.

(** [WebSocket.readyState] *)
Inductive readyState : Type :=
| CONNECTING
| OPEN
| CLOSING
| CLOSED.

(** A [WebSocket] object made by [connect]: the URL its handlers close
    over and its ready state.  Every socket carries the four handlers
    [connect] installs. *)
Record socket : Type := {
  url : string;
  state : readyState
}.

(** Calls to the three overridable hooks. *)
Inductive hook : Type :=
| onConnect
| onMessage (data : json)
| onDisconnect.

(** The manager object.  [sockets] holds every socket created so far, by
    creation order; [connection] is [null] or a reference into it.  The
    loop holds the pending [() => this.connect(url)] callbacks, each
    recorded by its [url]. *)
Record manager : Type := {
  sockets : list socket;
  connection : option nat;
  reconnectAttempts : Z;
  maxReconnectAttempts : Z;
  reconnectInterval : Z;
  loop : Timers.loop string;
  hooks : list hook;
  sent : list (nat * json)
}.

Definition init : manager :=
  {| sockets := [];
     connection := None;
     reconnectAttempts := 0;
     maxReconnectAttempts := 5;
     reconnectInterval := 5000;
     loop := Timers.start 0;
     hooks := [];
     sent := [] |}.

Definition set_loop (l : Timers.loop string) (m : manager) : manager :=
  {| sockets := sockets m; connection := connection m;
     reconnectAttempts := reconnectAttempts m;
     maxReconnectAttempts := maxReconnectAttempts m;
     reconnectInterval := reconnectInterval m;
     loop := l; hooks := hooks m; sent := sent m |}.

Definition set_sockets (ss : list socket) (c : option nat) (m : manager) : manager :=
  {| sockets := ss; connection := c;
     reconnectAttempts := reconnectAttempts m;
     maxReconnectAttempts := maxReconnectAttempts m;
     reconnectInterval := reconnectInterval m;
     loop := loop m; hooks := hooks m; sent := sent m |}.

Definition set_attempts (n : Z) (m : manager) : manager :=
  {| sockets := sockets m; connection := connection m;
     reconnectAttempts := n;
     maxReconnectAttempts := maxReconnectAttempts m;
     reconnectInterval := reconnectInterval m;
     loop := loop m; hooks := hooks m; sent := sent m |}.

Definition call_hook (h : hook) (m : manager) : manager :=
  {| sockets := sockets m; connection := connection m;
     reconnectAttempts := reconnectAttempts m;
     maxReconnectAttempts := maxReconnectAttempts m;
     reconnectInterval := reconnectInterval m;
     loop := loop m; hooks := hooks m ++ [h]; sent := sent m |}.

Definition is_OPEN (r : readyState) : bool :=
  match r with OPEN => true | _ => false end.

Definition is_CLOSED (r : readyState) : bool :=
  match r with CLOSED => true | _ => false end.

Definition is_CONNECTING (r : readyState) : bool :=
  match r with CONNECTING => true | _ => false end.

Definition with_state (r : readyState) (s : socket) : socket :=
  {| url := url s; state := r |}.

(** [this.connection && this.connection.readyState === WebSocket.OPEN] *)
Definition connection_open (m : manager) : bool :=
  match connection m with
  | Some i =>
      match sockets m !! i with
      | Some s => is_OPEN (state s)
      | None => false
      end
  | None => false
  end.

(** [connect: function(url)]: nothing when the current socket is open,
    otherwise a new socket, with its handlers, replaces the current one. *)
Definition connect (u : string) (m : manager) : manager :=
  if connection_open m then m
  else set_sockets (sockets m ++ [{| url := u; state := CONNECTING |}])
                   (Some (length (sockets m))) m.

(** [WebSocket.prototype.close]: a socket that is connecting or open
    starts closing. *)
Definition close (s : socket) : socket :=
  match state s with
  | CONNECTING | OPEN => with_state CLOSING s
  | CLOSING | CLOSED => s
  end.

(** [disconnect: function() { if (this.connection) {
    this.connection.close(); this.connection = null; } }] *)
Definition disconnect (m : manager) : manager :=
  match connection m with
  | Some i => set_sockets (alter close i (sockets m)) None m
  | None => m
  end.

(** [send: function(data)] *)
Definition send (data : json) (m : manager) : manager :=
  match connection m with
  | Some i =>
      if connection_open m then
        {| sockets := sockets m; connection := connection m;
           reconnectAttempts := reconnectAttempts m;
           maxReconnectAttempts := maxReconnectAttempts m;
           reconnectInterval := reconnectInterval m;
           loop := loop m; hooks := hooks m; sent := sent m ++ [(i, data)] |}
      else m
  | None => m
  end.

(** [attemptReconnect: function(url)] *)
Definition attemptReconnect (u : string) (m : manager) : manager :=
  if reconnectAttempts m <? maxReconnectAttempts m then
    let m' := set_attempts (reconnectAttempts m + 1) m in
    set_loop (snd (Timers.setTimeout u (reconnectInterval m') (loop m'))) m'
  else m.

(** [this.connection.onopen] *)
Definition onopen (m : manager) : manager :=
  call_hook onConnect (set_attempts 0 m).

(** [this.connection.onmessage]: a frame that is not JSON is reported on
    the console and dropped. *)
Definition onmessage (frame : option json) (m : manager) : manager :=
  match frame with
  | Some data => call_hook (onMessage data) m
  | None => m
  end.

(** [this.connection.onclose], of a socket made by [connect(u)] *)
Definition onclose (u : string) (m : manager) : manager :=
  attemptReconnect u (call_hook onDisconnect m).

(** What can happen to the manager: calls by the application, events of
    the transport on one of the sockets, and the passing of time. *)
Inductive event : Type :=
| Connect (u : string)
| Disconnect
| Send (data : json)
| Opened (i : nat)
| Frame (i : nat) (data : option json)
| Closed (i : nat)
| Elapse (t : Z).

Definition advance : Z -> manager -> manager := Timers.advance loop set_loop connect.

(** One event.  [None] when the event cannot happen in this state: an
    open event on a socket that is not connecting, a frame on a socket
    that is not open, a close event on a socket already closed, time
    running backwards. *)
Definition step (e : event) (m : manager) : option manager :=
  match e with
  | Connect u => Some (connect u m)
  | Disconnect => Some (disconnect m)
  | Send data => Some (send data m)
  | Opened i =>
      match sockets m !! i with
      | Some s =>
          if is_CONNECTING (state s)
          then Some (onopen (set_sockets (<[i := with_state OPEN s]> (sockets m)) (connection m) m))
          else None
      | None => None
      end
  | Frame i data =>
      match sockets m !! i with
      | Some s => if is_OPEN (state s) then Some (onmessage data m) else None
      | None => None
      end
  | Closed i =>
      match sockets m !! i with
      | Some s =>
          if is_CLOSED (state s) then None
          else Some (onclose (url s)
                       (set_sockets (<[i := with_state CLOSED s]> (sockets m)) (connection m) m))
      | None => None
      end
  | Elapse t =>
      if Timers.clock (loop m) <=? t then Some (advance t m) else None
  end.

Fixpoint run (es : list event) (m : manager) : option manager :=
  match es with
  | [] => Some m
  | e :: rest =>
      match step e m with
      | Some m' => run rest m'
      | None => None
      end
  end.

End Websocket.

(** ** The specification's reading of the request helper *)

Module ApiSpec.

Local Open Scope string_scope.

Definition is_alpha (c : ascii) : bool :=
  let n := nat_of_ascii c in
  ((65 <=? n) && (n <=? 90) || (97 <=? n) && (n <=? 122))%nat.

Definition is_digit (c : ascii) : bool :=
  let n := nat_of_ascii c in
  ((48 <=? n) && (n <=? 57))%nat.

Definition is_scheme_char (c : ascii) : bool :=
  is_alpha c || is_digit c || Ascii.eqb c "+" || Ascii.eqb c "-" || Ascii.eqb c ".".

Fixpoint scheme_tail (s : string) : bool :=
  match s with
  | EmptyString => false
  | String c rest => if Ascii.eqb c ":" then true else is_scheme_char c && scheme_tail rest
  end.

(** An absolute reference starts with a scheme and a colon, the scheme
    being a letter followed by letters, digits, [+], [-] or [.]; every
    other reference is relative. *)
Definition absolute_reference (s : string) : bool :=
  match s with
  | EmptyString => false
  | String c rest => is_alpha c && scheme_tail rest
  end.

(** The resolution rule in the specification's words: the base path is
    bypassed for an absolute reference and prefixed to a relative one. *)
Definition spec_request_url (base endpoint : string) : string :=
  if absolute_reference endpoint then endpoint else base ++ endpoint.




End ApiSpec.

(** ** Shapes of wrapper states and call sequences *)

Module Shapes.

(** A run of calls in time order, the first at or after [t], each less
    than [wait] after the one before. *)
Inductive burst (wait : Z) : Z -> list (Z * invocation) -> Prop :=
| burst_nil (t : Z) : burst wait t []
| burst_cons (t t' : Z) (call : invocation) (rest : list (Z * invocation)) :
    t <= t' < t + wait ->
    burst wait t' rest ->
    burst wait t ((t', call) :: rest).

(** The time and the arguments of the last call of a run, given those of
    the call before it. *)
Fixpoint last_call (t : Z) (args : list json) (l : list (Z * invocation)) : Z * list json :=
  match l with
  | [] => (t, args)
  | (t', call) :: rest => last_call t' (inv_args call) rest
  end.

(** A debounced wrapper last called at [t] with [args]: nothing has been
    passed on to [func] yet and exactly one timer is pending, due [wait]
    later, holding [args]. *)
Definition armed (wait t : Z) (args : list json) (s : Debounce.state) : Prop :=
  Debounce.calls s = []
  /\ Timers.clock (Debounce.loop s) = t
  /\ exists h,
      Debounce.timeout s = Some h
      /\ Timers.pending (Debounce.loop s)
         = [{| Timers.handle := h; Timers.due := t + wait; Timers.callback := args |}].

(** A throttled wrapper in the middle of a window that ends at [d]. *)
Definition busy (d : Z) (s : Throttle.state) : Prop :=
  Throttle.inThrottle s = true
  /\ Timers.clock (Throttle.loop s) < d
  /\ exists h,
      Timers.pending (Throttle.loop s)
      = [{| Timers.handle := h; Timers.due := d; Timers.callback := tt |}].

(** A throttled wrapper that lets the next call at or after [t] through:
    either no window is running, or the running one ends by [t]. *)
Definition ready (t : Z) (s : Throttle.state) : Prop :=
  Timers.clock (Throttle.loop s) <= t
  /\ ((Throttle.inThrottle s = false /\ Timers.pending (Throttle.loop s) = [])
      \/ (Throttle.inThrottle s = true
          /\ exists h d, d <= t
             /\ Timers.pending (Throttle.loop s)
                = [{| Timers.handle := h; Timers.due := d; Timers.callback := tt |}])).

(** Calls in time order from [t] on, all before [d]. *)
Inductive before (d : Z) : Z -> list (Z * invocation) -> Prop :=
| before_nil (t : Z) : before d t []
| before_cons (t t' : Z) (call : invocation) (rest : list (Z * invocation)) :
    t <= t' < d ->
    before d t' rest ->
    before d t ((t', call) :: rest).

(** Calls at [0], [period], [2 * period], ... : the first [n] of them. *)
Definition periodic (period : Z) (call : invocation) (n : nat) : list (Z * invocation) :=
  List.map (fun k => (Z.of_nat k * period, call)) (seq 0 n).

(** The same calls, the [k]-th coming before or after the reset due at
    its time as [early k] says. *)
Definition periodic_ties (period : Z) (call : invocation) (early : nat -> bool) (n : nat)
  : list (bool * (Z * invocation)) :=
  List.map (fun k => (early k, (Z.of_nat k * period, call))) (seq 0 n).

(** Every pending reset is due before [t]: a call at [t] meets no tie. *)
Definition settled (t : Z) (s : Throttle.state) : Prop :=
  Forall (fun tm => Timers.due tm < t) (Timers.pending (Throttle.loop s)).

(** The number of multiples of [period] in the interval from [0] up to,
    not including, [duration]. *)
Definition ticks_within (period duration : Z) : nat :=
  Z.to_nat ((duration + period - 1) / period).

(** A sample call: a method call on the object [search] with one
    number as its argument. *)
Definition typed (n : Z) : invocation :=
  {| inv_this := Receiver "search"; inv_args := [JNum n] |}.

(** What no call and no event but an open or a close touches: the
    counter, its bound and the interval. *)
Definition same_policy (a b : Websocket.manager) : Prop :=
  Websocket.reconnectAttempts a = Websocket.reconnectAttempts b
  /\ Websocket.maxReconnectAttempts a = Websocket.maxReconnectAttempts b
  /\ Websocket.reconnectInterval a = Websocket.reconnectInterval b.

(** The counter is between zero and its bound, the interval is not
    negative. *)
Definition policy_ok (m : Websocket.manager) : Prop :=
  0 <= Websocket.reconnectAttempts m <= Websocket.maxReconnectAttempts m
  /\ 0 <= Websocket.reconnectInterval m.

End Shapes.

(** ** Call sequences and what the wrappers make of them *)

Module Traces.

(** Calls in time order, none before [t]. *)
Inductive in_order : Z -> list (Z * invocation) -> Prop :=
| in_order_nil (t : Z) : in_order t []
| in_order_cons (t t' : Z) (call : invocation) (rest : list (Z * invocation)) :
    t <= t' ->
    in_order t' rest ->
    in_order t ((t', call) :: rest).

(** The call [func] receives for a call of the debounced wrapper: same
    arguments, no receiver. *)
Definition passed_on (call : invocation) : invocation :=
  {| inv_this := NoReceiver; inv_args := inv_args call |}.

(** The calls a debounced function lets through, each call saying
    whether it comes before a timer due at its own time: a call is
    passed on, [wait] later, when it is the last one, when the next
    call comes more than [wait] after it, or when the next call comes
    exactly [wait] after it and the timer runs first. *)
Fixpoint debounced (wait : Z) (inputs : list (bool * (Z * invocation)))
  : list (Z * invocation) :=
  match inputs with
  | [] => []
  | (_, (t, call)) :: rest =>
      match rest with
      | [] => [(t + wait, passed_on call)]
      | (early, (t', _)) :: _ =>
          if (t + wait <? t') || ((t + wait =? t') && negb early)
          then (t + wait, passed_on call) :: debounced wait rest
          else debounced wait rest
      end
  end.

(** The time of the last call of a sequence that follows a call at [t]. *)
Fixpoint last_time (t : Z) (l : list (Z * invocation)) : Z :=
  match l with
  | [] => t
  | (t', _) :: rest => last_time t' rest
  end.

(** A debounced wrapper last called at [t] with [args], the calls in
    [cs] having been passed on so far: one timer is pending, due [wait]
    later. *)
Definition armed_with (cs : list (Z * invocation)) (wait t : Z) (args : list json)
    (s : Debounce.state) : Prop :=
  Debounce.calls s = cs
  /\ Timers.clock (Debounce.loop s) = t
  /\ exists h,
      Debounce.timeout s = Some h
      /\ Timers.pending (Debounce.loop s)
         = [{| Timers.handle := h; Timers.due := t + wait; Timers.callback := args |}].

(** No timer is pending, or exactly one, and it is the one [timeout]
    names. *)
Definition at_most_one_timer (s : Debounce.state) : Prop :=
  match Timers.pending (Debounce.loop s) with
  | [] => True
  | [tm] => Debounce.timeout s = Some (Timers.handle tm)
  | _ => False
  end.

(** Logged calls that are at least [limit] apart, in time order. *)
Fixpoint spaced (limit : Z) (l : list (Z * invocation)) : Prop :=
  match l with
  | [] => True
  | (t, _) :: rest =>
      match rest with
      | [] => True
      | (t', _) :: _ => t + limit <= t' /\ spaced limit rest
      end
  end.

(** The time of the last logged call is at most [bound] less [gap]. *)
Definition last_before (gap bound : Z) (l : list (Z * invocation)) : Prop :=
  forall t call, last l = Some (t, call) -> t + gap <= bound.

(** What holds of a throttled wrapper at all times: the calls passed on
    are [limit] apart, and either no window is running and the last call
    is at least [limit] old, or one reset is pending, due where the
    window of the last call ends. *)
Definition throttle_inv (limit : Z) (s : Throttle.state) : Prop :=
  spaced limit (Throttle.calls s)
  /\ ((Throttle.inThrottle s = false
       /\ Timers.pending (Throttle.loop s) = []
       /\ last_before limit (Timers.clock (Throttle.loop s)) (Throttle.calls s))
      \/ (Throttle.inThrottle s = true
          /\ exists h t call,
               last (Throttle.calls s) = Some (t, call)
               /\ t <= Timers.clock (Throttle.loop s)
               /\ Timers.pending (Throttle.loop s)
                  = [{| Timers.handle := h; Timers.due := t + Z.max 0 limit;
                        Timers.callback := tt |}])).

(** The hook call an event leads to, if any: open, close and a frame
    that parses call one hook each. *)
Definition hook_of (e : Websocket.event) : list Websocket.hook :=
  match e with
  | Websocket.Opened _ => [Websocket.onConnect]
  | Websocket.Closed _ => [Websocket.onDisconnect]
  | Websocket.Frame _ (Some data) => [Websocket.onMessage data]
  | _ => []
  end.

(** An endpoint that refuses [k] connections in a row: socket [i]
    closes, the reconnect interval [d] passes, and so on with the next
    socket. *)
Fixpoint refusals (k i : nat) (t d : Z) : list Websocket.event :=
  match k with
  | O => []
  | S k' => Websocket.Closed i :: Websocket.Elapse (t + d) :: refusals k' (S i) (t + d) d
  end.

(** A manager in the middle of such a run: [j] retries used, no timer
    pending, the newest socket still connecting. *)
Definition retrying (u : string) (n : Z) (d : Z) (hs : list Websocket.hook) (i0 : nat) (t0 : Z)
    (j : nat) (m : Websocket.manager) : Prop :=
  Websocket.reconnectAttempts m = Z.of_nat j
  /\ Websocket.maxReconnectAttempts m = n
  /\ Websocket.reconnectInterval m = d
  /\ Timers.pending (Websocket.loop m) = []
  /\ Timers.clock (Websocket.loop m) = t0 + Z.of_nat j * d
  /\ Websocket.hooks m = hs ++ repeat Websocket.onDisconnect j
  /\ Websocket.connection m = Some (i0 + j)%nat
  /\ exists pre,
      length pre = (i0 + j)%nat
      /\ Websocket.sockets m
         = pre ++ [{| Websocket.url := u; Websocket.state := Websocket.CONNECTING |}].

End Traces.

(** ** QuantPulse.api: the options handed to [fetch] *)

Module ApiConfig.

Local Open Scope string_scope.

(** The value of a property of an options object: a string, the text
    [JSON.stringify] gives for a value, a headers object (a header value
    is a string, or [null] for an attribute that is missing),
    [undefined], or anything else. *)
Inductive optval : Type :=
| OStr (s : string)
| OJson (data : json)
| OHeaders (h : gmap string (option string))
| OUndefined
| OOther (v : json).

(** [defaultOptions.headers], after the token has been added.  [csrf] is
    the CSRF meta element of the page: absent, or present with the value
    [getAttribute('content')] gives, [null] when there is no such
    attribute. *)
Definition default_headers (csrf : option (option string)) : gmap string (option string) :=
  match csrf with
  | Some content => <["X-CSRFToken" := content]> {["Content-Type" := Some "application/json"]}
  | None => {["Content-Type" := Some "application/json"]}
  end.

Definition defaultOptions (csrf : option (option string)) : gmap string optval :=
  <["headers" := OHeaders (default_headers csrf)]> {["method" := OStr "GET"]}.

(** [const config = { ...defaultOptions, ...options };] *)
Definition config (csrf : option (option string)) (options : gmap string optval)
  : gmap string optval :=
  options ∪ defaultOptions csrf.

(** [request(endpoint, options)]: the two arguments of [fetch]. *)
Definition request (base : string) (csrf : option (option string)) (endpoint : string)
    (options : gmap string optval) : string * gmap string optval :=
  (Api.request_url base endpoint, config csrf options).

(** [get: function(endpoint) { return this.request(endpoint); }], the
    options defaulting to [{}]. *)
Definition get (base : string) (csrf : option (option string)) (endpoint : string)
  : string * gmap string optval :=
  request base csrf endpoint ∅.

(** [JSON.stringify(data)]: [undefined] for a missing argument. *)
Definition stringify (data : option json) : optval :=
  match data with
  | Some v => OJson v
  | None => OUndefined
  end.

(** [post: function(endpoint, data)] *)
Definition post (base : string) (csrf : option (option string)) (endpoint : string)
    (data : option json) : string * gmap string optval :=
  request base csrf endpoint (<["body" := stringify data]> {["method" := OStr "POST"]}).

(** [put: function(endpoint, data)] *)
Definition put (base : string) (csrf : option (option string)) (endpoint : string)
    (data : option json) : string * gmap string optval :=
  request base csrf endpoint (<["body" := stringify data]> {["method" := OStr "PUT"]}).

(** [delete: function(endpoint)] *)
Definition delete (base : string) (csrf : option (option string)) (endpoint : string)
  : string * gmap string optval :=
  request base csrf endpoint {["method" := OStr "DELETE"]}.

End ApiConfig.

(** ** QuantPulse.charts: merging chart options *)

Module Charts.

(** The values found in chart options.  An object is an ordinary
    object (its prototype is [Object.prototype]), given as the list of
    its own enumerable properties in the order [for...in] visits
    them. *)
Inductive value : Type :=
| VUndefined
| VNull
| VBool (b : bool)
| VNum (n : Z)
| VStr (s : string)
| VFun (name : string)
| VArr (items : list value)
| VObj (fields : list (string * value)).

(** [obj[key]] on own properties: [None] is [undefined]. *)
Fixpoint lookup (key : string) (fields : list (string * value)) : option value :=
  match fields with
  | [] => None
  | (k, v) :: rest => if String.eqb k key then Some v else lookup key rest
  end.

(** [obj[key] = v] *)
Fixpoint assign (key : string) (v : value) (fields : list (string * value))
  : list (string * value) :=
  match fields with
  | [] => [(key, v)]
  | (k, x) :: rest =>
      if String.eqb k key then (k, v) :: rest else (k, x) :: assign key v rest
  end.

(** The elements of an array under their indices. *)
Fixpoint indexed (i : nat) (items : list value) : list (string * value) :=
  match items with
  | [] => []
  | v :: rest => (Api.decimal i, v) :: indexed (S i) rest
  end.

Fixpoint chars (s : string) : list value :=
  match s with
  | EmptyString => []
  | String c rest => VStr (String c EmptyString) :: chars rest
  end.

(** [{ ...v }], which is also what [for (const key in v)] with the
    [hasOwnProperty] test goes through: the own properties of an object,
    the elements of an array, the characters of a string, nothing for
    any other value. *)
Definition spread (v : value) : list (string * value) :=
  match v with
  | VObj fields => fields
  | VArr items => indexed 0 items
  | VStr s => indexed 0 (chars s)
  | _ => []
  end.

Definition truthy (v : value) : bool :=
  match v with
  | VUndefined | VNull => false
  | VBool b => b
  | VNum n => negb (n =? 0)
  | VStr s => negb (String.eqb s "")
  | _ => true
  end.

(** [result[key] || {}] *)
Definition or_empty (o : option value) : value :=
  match o with
  | Some v => if truthy v then v else VObj []
  | None => VObj []
  end.

(** [key] is [__proto__] and the object has no own property of that
    name: reading it gives the prototype, [Object.prototype], which has
    no enumerable property, and assigning to it replaces the prototype
    by an object or by [null] and does nothing for any other value. *)
Definition inherited_proto (key : string) (result : list (string * value)) : bool :=
  String.eqb key "__proto__" &&
  match lookup key result with
  | Some _ => false
  | None => true
  end.

(** What a call of [deepMerge] comes to: the object it returns, by its
    properties; the [TypeError] of [source.hasOwnProperty(key)] when the
    source has an own property of that name which is not a function; or
    a run that leaves what is followed here, because it calls a
    function of the caller (an own [hasOwnProperty] that is a function)
    or because it replaces the prototype of the result (an object, an
    array, a function or [null] assigned to [__proto__]). *)
Inductive outcome : Type :=
| Merged (fields : list (string * value))
| Throws
| Escapes.

(** [deepMerge: function(target, source)].  [typeof v === 'object' &&
    v !== null && !Array.isArray(v)] holds of objects only; an
    exception of a nested call ends the whole call. *)
Fixpoint deepMerge (target source : value) {struct source} : outcome :=
  match source with
  | VObj fields =>
      match lookup "hasOwnProperty" fields with
      | Some (VFun _) => Escapes
      | Some _ => Throws
      | None =>
          (fix each (src : list (string * value)) (result : list (string * value)) :=
             match src with
             | [] => Merged result
             | (key, v) :: rest =>
                 if inherited_proto key result then
                   match v with
                   | VObj _ =>
                       match deepMerge (VObj []) v with
                       | Throws => Throws
                       | _ => Escapes
                       end
                   | VNull | VArr _ | VFun _ => Escapes
                   | _ => each rest result
                   end
                 else
                   match v with
                   | VObj _ =>
                       match deepMerge (or_empty (lookup key result)) v with
                       | Merged nested => each rest (assign key (VObj nested) result)
                       | Throws => Throws
                       | Escapes => Escapes
                       end
                   | _ => each rest (assign key v result)
                   end
             end) fields (spread target)
      end
  | VArr items =>
      (fix each (i : nat) (src : list value) (result : list (string * value)) :=
         match src with
         | [] => Merged result
         | v :: rest =>
             match v with
             | VObj _ =>
                 match deepMerge (or_empty (lookup (Api.decimal i) result)) v with
                 | Merged nested => each (S i) rest (assign (Api.decimal i) (VObj nested) result)
                 | Throws => Throws
                 | Escapes => Escapes
                 end
             | _ => each (S i) rest (assign (Api.decimal i) v result)
             end
         end) 0%nat items (spread target)
  | VStr s =>
      Merged (fold_left (fun result kv => assign (fst kv) (snd kv) result)
                (indexed 0 (chars s)) (spread target))
  | _ => Merged (spread target)
  end.

(** [mergeOptions: function(defaults, custom) { return
    this.deepMerge(defaults, custom); }] *)
Definition mergeOptions (defaults custom : value) : outcome :=
  deepMerge defaults custom.

(** The properties of the object a call returns when it returns. *)
Fixpoint merge (target source : value) {struct source} : list (string * value) :=
  match source with
  | VObj fields =>
      (fix each (src : list (string * value)) (result : list (string * value)) :=
         match src with
         | [] => result
         | (key, v) :: rest =>
             each rest
               (assign key
                  match v with
                  | VObj _ => VObj (merge (or_empty (lookup key result)) v)
                  | _ => v
                  end result)
         end) fields (spread target)
  | VArr items =>
      (fix each (i : nat) (src : list value) (result : list (string * value)) :=
         match src with
         | [] => result
         | v :: rest =>
             each (S i) rest
               (assign (Api.decimal i)
                  match v with
                  | VObj _ => VObj (merge (or_empty (lookup (Api.decimal i) result)) v)
                  | _ => v
                  end result)
         end) 0%nat items (spread target)
  | VStr s =>
      fold_left (fun result kv => assign (fst kv) (snd kv) result) (indexed 0 (chars s))
        (spread target)
  | _ => spread target
  end.

(** What one property [v] of the source puts under its key, [old] being
    what the result holds there. *)
Definition merged (v : value) (old : option value) : value :=
  match v with
  | VObj _ => VObj (merge (or_empty old) v)
  | _ => v
  end.

Definition merge_property (result : list (string * value)) (kv : string * value)
  : list (string * value) :=
  assign (fst kv) (merged (snd kv) (lookup (fst kv) result)) result.

(** Objects whose properties have distinct names, at every depth that
    [deepMerge] reaches. *)
Fixpoint well_formed (v : value) : Prop :=
  match v with
  | VObj fields =>
      NoDup (List.map fst fields)
      /\ (fix all (l : list (string * value)) : Prop :=
            match l with
            | [] => True
            | (_, x) :: rest => well_formed x /\ all rest
            end) fields
  | _ => True
  end.

(** One turn of the loop of [deepMerge] over an object, and the loop. *)
Definition merge_step (result : list (string * value)) (kv : string * value) : outcome :=
  if inherited_proto (fst kv) result then
    match snd kv with
    | VObj _ =>
        match deepMerge (VObj []) (snd kv) with
        | Throws => Throws
        | _ => Escapes
        end
    | VNull | VArr _ | VFun _ => Escapes
    | _ => Merged result
    end
  else
    match snd kv with
    | VObj _ =>
        match deepMerge (or_empty (lookup (fst kv) result)) (snd kv) with
        | Merged nested => Merged (assign (fst kv) (VObj nested) result)
        | Throws => Throws
        | Escapes => Escapes
        end
    | v => Merged (assign (fst kv) v result)
    end.

Fixpoint merge_loop (fields : list (string * value)) (result : list (string * value))
  : outcome :=
  match fields with
  | [] => Merged result
  | kv :: rest =>
      match merge_step result kv with
      | Merged result' => merge_loop rest result'
      | Throws => Throws
      | Escapes => Escapes
      end
  end.

(** Sources on which [deepMerge] runs through: no object that it goes
    into has an own property named [hasOwnProperty] or [__proto__]. *)
Fixpoint plain (v : value) : Prop :=
  match v with
  | VObj fields =>
      lookup "hasOwnProperty" fields = None
      /\ lookup "__proto__" fields = None
      /\ (fix all (l : list (string * value)) : Prop :=
            match l with
            | [] => True
            | (_, x) :: rest =>
                match x with
                | VObj _ => plain x
                | _ => True
                end /\ all rest
            end) fields
  | VArr items =>
      (fix all (l : list value) : Prop :=
         match l with
         | [] => True
         | x :: rest =>
             match x with
             | VObj _ => plain x
             | _ => True
             end /\ all rest
         end) items
  | _ => True
  end.

End Charts.

(** ** QuantPulse.utils.isValidEmail *)

Module Email.

(** Regular expressions over characters, with character classes. *)
Inductive regex : Type :=
| Void
| Eps
| Class (p : ascii -> bool)
| Seq (a b : regex)
| Alt (a b : regex)
| Star (a : regex).

(** [a+] *)
Definition Plus (a : regex) : regex := Seq a (Star a).

(** Matching by derivatives: [nullable r] tells whether [r] matches the
    empty string, [deriv c r] matches what [r] matches after a [c]. *)
Fixpoint nullable (r : regex) : bool :=
  match r with
  | Void => false
  | Eps => true
  | Class _ => false
  | Seq a b => nullable a && nullable b
  | Alt a b => nullable a || nullable b
  | Star _ => true
  end.

Fixpoint deriv (c : ascii) (r : regex) : regex :=
  match r with
  | Void => Void
  | Eps => Void
  | Class p => if p c then Eps else Void
  | Seq a b =>
      if nullable a then Alt (Seq (deriv c a) b) (deriv c b) else Seq (deriv c a) b
  | Alt a b => Alt (deriv c a) (deriv c b)
  | Star a => Seq (deriv c a) (Star a)
  end.

(** [r.test(s)] for a pattern anchored at both ends, [/^...$/]. *)
Fixpoint test (r : regex) (s : string) : bool :=
  match s with
  | EmptyString => nullable r
  | String c rest => test (deriv c r) rest
  end.

(** The strings a regular expression stands for. *)
Inductive lang : regex -> string -> Prop :=
| lang_eps : lang Eps EmptyString
| lang_class (p : ascii -> bool) (c : ascii) :
    p c = true -> lang (Class p) (String c EmptyString)
| lang_seq (a b : regex) (s1 s2 : string) :
    lang a s1 -> lang b s2 -> lang (Seq a b) (String.append s1 s2)
| lang_alt_l (a b : regex) (s : string) : lang a s -> lang (Alt a b) s
| lang_alt_r (a b : regex) (s : string) : lang b s -> lang (Alt a b) s
| lang_star_nil (a : regex) : lang (Star a) EmptyString
| lang_star_app (a : regex) (s1 s2 : string) :
    lang a s1 -> lang (Star a) s2 -> lang (Star a) (String.append s1 s2).

(** [\s], among the characters with a code below 256, which are the
    characters of the strings here: tab, line feed, vertical tab, form
    feed, carriage return, space and no-break space. *)
Definition is_space (c : ascii) : bool :=
  let n := nat_of_ascii c in
  ((9 <=? n) && (n <=? 13) || (n =? 32) || (n =? 160))%nat.

Definition is_at (c : ascii) : bool := Ascii.eqb c "@".
Definition is_dot (c : ascii) : bool := Ascii.eqb c ".".
(** [[^\s@]] *)
Definition atom (c : ascii) : bool := negb (is_space c) && negb (is_at c).

(** [const emailRegex = /^[^\s@]+@[^\s@]+\.[^\s@]+$/;] *)
Definition emailRegex : regex :=
  Seq (Plus (Class atom))
    (Seq (Class is_at) (Seq (Plus (Class atom)) (Seq (Class is_dot) (Plus (Class atom))))).

(** [isValidEmail: function(email) { ...; return emailRegex.test(email); }] *)
Definition isValidEmail (email : string) : bool := test emailRegex email.

Fixpoint all_atoms (s : string) : bool :=
  match s with
  | EmptyString => true
  | String c rest => atom c && all_atoms rest
  end.

(** A non-empty run of characters other than white space and [@]. *)
Definition part (s : string) : Prop := s <> EmptyString /\ all_atoms s = true.

(** How many characters of [s] satisfy [p]. *)
Fixpoint count (p : ascii -> bool) (s : string) : nat :=
  match s with
  | EmptyString => 0
  | String c rest => (if p c then 1 else 0) + count p rest
  end.

End Email.

(** ** QuantPulse.toast: notifications *)

Module Toast.

(** A toast element: its text, its type and the tokens of its
    [classList].  The type is one class token (the library passes
    [success], [error], [warning] or [info]). *)
Record element : Type := {
  message : string;
  type : string;
  classes : list string
}.

(** The callbacks the toast code hands to [setTimeout], each for the
    toast it closes over. *)
Inductive task : Type :=
| MarkShown (id : nat)
| AutoHide (id : nat)
| Detach (id : nat).

Definition task_id (k : task) : nat :=
  match k with
  | MarkShown id | AutoHide id | Detach id => id
  end.

(** The part of the page the toasts live in: the [.toast-container]
    with its children, if the document has one; every toast element
    made so far, a toast being named by its place in that list; the
    timers; and [QuantPulse.config.toastTimeout]. *)
Record page : Type := {
  container : option (list nat);
  elements : list element;
  loop : Timers.loop task;
  toastTimeout : Z
}.

Definition set_loop (l : Timers.loop task) (p : page) : page :=
  {| container := container p; elements := elements p; loop := l;
     toastTimeout := toastTimeout p |}.

(** The children of the container; none when there is no container. *)
Definition children (p : page) : list nat :=
  match container p with
  | Some ids => ids
  | None => []
  end.

(** [classList.add(token)] *)
Definition add_class (token : string) (e : element) : element :=
  {| message := message e; type := type e;
     classes := if existsb (String.eqb token) (classes e) then classes e
                else classes e ++ [token] |}.

(** [createElement: function(message, type)] *)
Definition createElement (msg ty : string) : element :=
  {| message := msg; type := ty;
     classes := ["toast-notification"%string; String.append "toast-" ty] |}.

(** [hide: function(toast)] *)
Definition hide (id : nat) (p : page) : page :=
  {| container := container p;
     elements := alter (add_class "hiding") id (elements p);
     loop := snd (Timers.setTimeout (Detach id) 300 (loop p));
     toastTimeout := toastTimeout p |}.

(** [duration || QuantPulse.config.toastTimeout] *)
Definition effective (duration : option Z) (default : Z) : Z :=
  match duration with
  | Some d => if d =? 0 then default else d
  | None => default
  end.

(** [show: function(message, type = 'info', duration = null)]: the toast
    it returns and the page it leaves. *)
Definition show (msg ty : string) (duration : option Z) (p : page) : nat * page :=
  let id := length (elements p) in
  let l1 := snd (Timers.setTimeout (MarkShown id) 100 (loop p)) in
  let l2 := snd (Timers.setTimeout (AutoHide id) (effective duration (toastTimeout p)) l1) in
  (id,
   {| container := Some (children p ++ [id]);
      elements := elements p ++ [createElement msg ty];
      loop := l2;
      toastTimeout := toastTimeout p |}).

(** [success], [error], [warning] and [info] *)
Definition success (msg : string) (duration : option Z) (p : page) : nat * page :=
  show msg "success" duration p.
Definition error (msg : string) (duration : option Z) (p : page) : nat * page :=
  show msg "error" duration p.
Definition warning (msg : string) (duration : option Z) (p : page) : nat * page :=
  show msg "warning" duration p.
Definition info (msg : string) (duration : option Z) (p : page) : nat * page :=
  show msg "info" duration p.

(** What a timer does when it runs.  [Detach] is
    [if (toast.parentNode) toast.parentNode.removeChild(toast)]. *)
Definition exec (k : task) (p : page) : page :=
  match k with
  | MarkShown id =>
      {| container := container p;
         elements := alter (add_class "show") id (elements p);
         loop := loop p; toastTimeout := toastTimeout p |}
  | AutoHide id => hide id p
  | Detach id =>
      {| container :=
           match container p with
           | Some ids => Some (List.filter (fun i => negb (Nat.eqb i id)) ids)
           | None => None
           end;
         elements := elements p; loop := loop p; toastTimeout := toastTimeout p |}
  end.

(** One timer runs. *)
Definition fire (tm : Timers.timer task) (p : page) : page :=
  exec (Timers.callback tm) (set_loop (Timers.take tm (loop p)) p).

(** Time passes up to [t].  A timer that hides a toast sets one more
    timer, so twice the number of pending timers bounds the number of
    callbacks to run. *)
Definition advance (t : Z) (p : page) : page :=
  let p' := Timers.run_due loop set_loop exec (2 * length (Timers.pending (loop p))) t p in
  set_loop (Timers.set_clock t (loop p')) p'.

(** A page whose timers are in order: they name toasts that exist and
    carry distinct handles, all handed out already. *)
Definition well_formed (p : page) : Prop :=
  Forall (fun tm => (task_id (Timers.callback tm) < length (elements p))%nat)
    (Timers.pending (loop p))
  /\ Forall (fun tm => (Timers.handle tm < Timers.fresh (loop p))%nat)
       (Timers.pending (loop p))
  /\ NoDup (List.map Timers.handle (Timers.pending (loop p))).

(** The handles of the pending timers are distinct and were all handed
    out already. *)
Definition handles_ok (p : page) : Prop :=
  Forall (fun tm => (Timers.handle tm < Timers.fresh (loop p))%nat) (Timers.pending (loop p))
  /\ NoDup (List.map Timers.handle (Timers.pending (loop p))).

(** The weight of a pending timer in callbacks still to run. *)
Definition weight (tm : Timers.timer task) : nat :=
  match Timers.callback tm with
  | AutoHide _ => 2
  | _ => 1
  end.

Fixpoint total (ts : list (Timers.timer task)) : nat :=
  match ts with
  | [] => 0
  | tm :: rest => weight tm + total rest
  end.

(** No pending timer can take toast [id] out of the container by time
    [t]: a timer that detaches it is due after [t], and one that hides
    it is due less than 300 ms before [t]. *)
Definition kept_until (id : nat) (t : Z) (tm : Timers.timer task) : Prop :=
  match Timers.callback tm with
  | Detach i => i = id -> t < Timers.due tm
  | AutoHide i => i = id -> t < Timers.due tm + 300
  | MarkShown _ => True
  end.

(** Toast [id] is out of the container, or on its way out by time [t]:
    a timer that detaches it is pending and due by [t], or one that
    hides it is pending, due 300 ms before [t] at the latest, and has
    not been overtaken by the clock. *)
Definition leaving (id : nat) (t : Z) (p : page) : Prop :=
  ~ In id (children p)
  \/ (exists tm, In tm (Timers.pending (loop p))
                /\ Timers.callback tm = Detach id /\ Timers.due tm <= t)
  \/ (exists tm, In tm (Timers.pending (loop p))
                /\ Timers.callback tm = AutoHide id
                /\ Timers.due tm + 300 <= t
                /\ Timers.clock (loop p) <= Timers.due tm).

End Toast.

(** ** QuantPulse.validation: form validation *)

Module Validation.

(** What [validateForm] looks at in a form control: its name, whether
    it carries [required], whether it is an [input[type="email"]], the
    text of the label of its [.form-group] if there is one, the value
    [FormData] holds under its name ([None] is [null]), and whether its
    class list holds [is-invalid]. The controls are those whose value
    is a string; a file input, whose value is a [File], is left out. *)
Record field : Type := {
  name : string;
  required : bool;
  email : bool;
  label : option string;
  value : option string;
  invalid : bool
}.

Fixpoint drop_spaces (l : list ascii) : list ascii :=
  match l with
  | [] => []
  | c :: rest => if Email.is_space c then drop_spaces rest else l
  end.

(** [String.prototype.trim] *)
Definition trim (s : string) : string :=
  string_of_list_ascii
    (rev (drop_spaces (rev (drop_spaces (list_ascii_of_string s))))).

(** [text.replace('*', '')]: the first star goes. *)
Fixpoint remove_star (s : string) : string :=
  match s with
  | EmptyString => EmptyString
  | String c rest => if Ascii.eqb c "*" then rest else String c (remove_star rest)
  end.

(** [getFieldLabel: function(field)] *)
Definition getFieldLabel (f : field) : string :=
  match label f with
  | Some text => trim (remove_star text)
  | None => name f
  end.

Definition set_invalid (b : bool) (f : field) : field :=
  {| name := name f; required := required f; email := email f; label := label f;
     value := value f; invalid := b |}.

(** [!value || value.trim() === ''] *)
Definition blank (v : option string) : bool :=
  match v with
  | None => true
  | Some s => String.eqb s "" || String.eqb (trim s) ""
  end.

(** [value && !QuantPulse.utils.isValidEmail(value)] *)
Definition bad_email (v : option string) : bool :=
  match v with
  | None => false
  | Some s => negb (String.eqb s "") && negb (Email.isValidEmail s)
  end.

(** The first loop, over the required fields: the errors it pushes and
    the marks it leaves. *)
Fixpoint check_required (form : list field) : list string * list field :=
  match form with
  | [] => ([], [])
  | f :: rest =>
      let '(errors, fields) := check_required rest in
      if required f then
        if blank (value f)
        then (String.append (getFieldLabel f) " is required" :: errors,
              set_invalid true f :: fields)
        else (errors, set_invalid false f :: fields)
      else (errors, f :: fields)
  end.

(** The second loop, over the email inputs. *)
Fixpoint check_email (form : list field) : list string * list field :=
  match form with
  | [] => ([], [])
  | f :: rest =>
      let '(errors, fields) := check_email rest in
      if email f && bad_email (value f)
      then (String.append (getFieldLabel f) " must be a valid email address" :: errors,
            set_invalid true f :: fields)
      else (errors, f :: fields)
  end.

Record result : Type := {
  isValid : bool;
  errors : list string
}.

(** [validateForm: function(form)]: the object it returns and the
    controls with the marks it leaves. *)
Definition validateForm (form : list field) : result * list field :=
  let '(errors1, fields1) := check_required form in
  let '(errors2, fields2) := check_email fields1 in
  ({| isValid := Nat.eqb (length (errors1 ++ errors2)) 0; errors := errors1 ++ errors2 |},
   fields2).

(** [clearAllErrors: function(form)] *)
Definition clearAllErrors (form : list field) : list field :=
  List.map (set_invalid false) form.

(** The mark a control carries after [validateForm]. *)
Definition mark_after (f : field) : bool :=
  (if required f then blank (value f) else invalid f)
  || (email f && bad_email (value f)).

End Validation.

(** * Properties *)

(** ** The event loop preserves what its callbacks preserve *)

Section LoopInvariant.
Context {C St : Type}.
Variable get_loop : St -> Timers.loop C.
Variable set_loop : Timers.loop C -> St -> St.
Variable exec : C -> St -> St.
Variable P : St -> Prop.
Hypothesis set_loop_keeps : forall l s, P s -> P (set_loop l s).
Hypothesis exec_keeps : forall c s, P s -> P (exec c s).

Lemma run_due_keeps (fuel : nat) (t : Z) :
  forall s, P s -> P (Timers.run_due get_loop set_loop exec fuel t s).
Proof.
  induction fuel as [|n IH]; intros s Hs; cbn [Timers.run_due]; [exact Hs|].
  destruct (Timers.next_due t (Timers.pending (get_loop s))) as [tm|]; [|exact Hs].
  apply IH, exec_keeps, set_loop_keeps, Hs.
Qed.

Lemma advance_keeps (t : Z) (s : St) :
  P s -> P (Timers.advance get_loop set_loop exec t s).
Proof.
  intros Hs. unfold Timers.advance. apply set_loop_keeps, run_due_keeps, Hs.
Qed.
End LoopInvariant.

(** ** The event loop leaves no due callback behind *)

Section LoopSettles.
Context {C St : Type}.
Variable get_loop : St -> Timers.loop C.
Variable set_loop : Timers.loop C -> St -> St.
Variable exec : C -> St -> St.
Hypothesis get_set : forall l s, get_loop (set_loop l s) = l.
Hypothesis exec_adds_none :
  forall c s, (length (Timers.pending (get_loop (exec c s)))
               <= length (Timers.pending (get_loop s)))%nat.

Lemma earliest_In (ts : list (Timers.timer C)) (x : Timers.timer C) :
  Timers.earliest ts = Some x -> In x ts.
Proof.
  revert x. induction ts as [|y rest IH]; intros x; cbn [Timers.earliest]; [discriminate|].
  destruct (Timers.earliest rest) as [z|].
  - destruct (Timers.due z <? Timers.due y); intros [= <-].
    + right. apply IH. reflexivity.
    + left. reflexivity.
  - intros [= <-]. left. reflexivity.
Qed.

Lemma drop_length (h : nat) (ts : list (Timers.timer C)) :
  (length (Timers.drop h ts) <= length ts)%nat.
Proof.
  induction ts as [|y rest IH]; cbn [Timers.drop List.filter length]; [lia|].
  unfold Timers.drop in IH.
  destruct (negb (Nat.eqb (Timers.handle y) h)); cbn [length]; lia.
Qed.

Lemma drop_shorter (x : Timers.timer C) (ts : list (Timers.timer C)) :
  In x ts -> (length (Timers.drop (Timers.handle x) ts) < length ts)%nat.
Proof.
  induction ts as [|y rest IH]; intros Hin; [destruct Hin|].
  cbn [Timers.drop List.filter length].
  destruct Hin as [->|Hin].
  - rewrite Nat.eqb_refl. cbn [negb].
    pose proof (drop_length (Timers.handle x) rest). unfold Timers.drop in *. lia.
  - specialize (IH Hin). unfold Timers.drop in IH.
    destruct (negb (Nat.eqb (Timers.handle y) (Timers.handle x))); cbn [length]; lia.
Qed.

Lemma next_due_In (t : Z) (ts : list (Timers.timer C)) (x : Timers.timer C) :
  Timers.next_due t ts = Some x -> In x ts.
Proof.
  unfold Timers.next_due. destruct (Timers.earliest ts) as [y|] eqn:E; [|discriminate].
  destruct (Timers.due y <=? t); [|discriminate].
  intros [= <-]. apply earliest_In, E.
Qed.

Lemma run_due_settles (fuel : nat) (t : Z) :
  forall s,
    (length (Timers.pending (get_loop s)) <= fuel)%nat ->
    Timers.next_due t
      (Timers.pending (get_loop (Timers.run_due get_loop set_loop exec fuel t s))) = None.
Proof.
  induction fuel as [|n IH]; intros s Hlen; cbn [Timers.run_due].
  - destruct (Timers.pending (get_loop s)); [reflexivity | cbn in Hlen; lia].
  - destruct (Timers.next_due t (Timers.pending (get_loop s))) as [tm|] eqn:E; [|exact E].
    apply IH.
    pose proof (exec_adds_none (Timers.callback tm)
                  (set_loop (Timers.take tm (get_loop s)) s)) as Hex.
    rewrite get_set in Hex. cbn [Timers.take Timers.pending] in Hex.
    pose proof (drop_shorter tm _ (next_due_In _ _ _ E)). lia.
Qed.

(** After [advance t] no pending callback is due at or before [t]: the
    loop ran every one of them. *)
Lemma advance_settles (t : Z) (s : St) :
  Timers.next_due t (Timers.pending (get_loop (Timers.advance get_loop set_loop exec t s)))
  = None.
Proof.
  unfold Timers.advance. rewrite get_set. cbn [Timers.set_clock Timers.pending].
  apply run_due_settles. lia.
Qed.
End LoopSettles.

(** ** calculatePercentageChange *)

Section PercentageChange.
Import Js Utils.
Import PrimFloat.

Lemma falsy_or_zero_is_falsy (v : value) :
  negb (truthy v) || strict_eq_zero v = negb (truthy v).
Proof.
  destruct v as [| |b|n|s]; cbn [truthy strict_eq_zero]; rewrite ?orb_false_r; try reflexivity.
  destruct (Js.is_zero n), (Js.is_nan n); reflexivity.
Qed.

(** A truthy value that is not a string is not converted to zero. *)
Lemma truthy_not_zero (v : value) :
  (forall s, v <> Str s) -> truthy v = true -> Js.is_zero (to_number v) = false.
Proof.
  intros Hs. destruct v as [| |b|n|s]; cbn [truthy to_number]; try discriminate.
  - intros ->. reflexivity.
  - destruct (Js.is_zero n); [discriminate | reflexivity].
  - exfalso. exact (Hs s eq_refl).
Qed.

(** A call with a truthy string that reads as zero: the guard lets it
    through, the division is by zero and the result is [Infinity]. *)
Example percentage_of_string_zero :
  truthy (Str "0") = true
  /\ strict_eq_zero (Str "0") = false
  /\ calculatePercentageChange (Num 5) (Str "0")
     = {| result := infinity; divisors := [0%float] |}
  /\ calculatePercentageChange (Num 5) (Str " ")
     = {| result := infinity; divisors := [0%float] |}.
Proof. repeat split. Qed.

(** C10, as stated, fails: [calculatePercentageChange(5, '0')] divides
    by zero. *)
Lemma percentage_divides_by_zero_counterexample :
  ~ (forall current previous : value,
        Forall (fun d => Js.is_zero d = false)
          (divisors (calculatePercentageChange current previous))).
Proof.
  intros H. specialize (H (Num 5) (Str "0")).
  destruct percentage_of_string_zero as (_ & _ & E & _). rewrite E in H.
  inversion H as [|d l Hd _]. discriminate Hd.
Qed.

(** C10, amended: a falsy [previous] (zero of either sign, [NaN], the
    empty string, [false], [null], [undefined]) gives 0 and no division
    is made; any other [previous] gives [((current - previous) /
    previous) * 100], on the numbers the two arguments convert to and
    in binary64 arithmetic; the one division is made by the number
    [previous] converts to, which is not zero unless [previous] is a
    string: a string is let through by the guard when it is not empty
    and divides by zero when it reads as zero. *)
Theorem calculatePercentageChange_guarded (current previous : value) :
  (truthy previous = false ->
     calculatePercentageChange current previous = {| result := 0%float; divisors := [] |})
  /\ (truthy previous = true ->
        result (calculatePercentageChange current previous)
        = ((to_number current - to_number previous) / to_number previous * 100)%float
        /\ divisors (calculatePercentageChange current previous) = [to_number previous])
  /\ (forall c p, current = Num c -> previous = Num p ->
        Js.is_zero p = false -> Js.is_nan p = false ->
        calculatePercentageChange current previous
        = {| result := ((c - p) / p * 100)%float; divisors := [p] |})
  /\ ((forall s, previous <> Str s) ->
        Forall (fun d => Js.is_zero d = false)
          (divisors (calculatePercentageChange current previous)))
  /\ (forall s, previous = Str s ->
        (Exists (fun d => Js.is_zero d = true)
           (divisors (calculatePercentageChange current previous))
         <-> s <> EmptyString /\ Js.is_zero (StringToNumber s) = true)).
Proof.
  unfold calculatePercentageChange. rewrite falsy_or_zero_is_falsy.
  split; [intros ->; reflexivity|].
  split; [intros ->; split; reflexivity|].
  split.
  { intros c p -> -> Hz Hn. cbn [truthy to_number]. rewrite Hz, Hn. reflexivity. }
  split.
  - intros Hs. destruct (truthy previous) eqn:T; cbn [negb divisors]; [|constructor].
    constructor; [apply truthy_not_zero; assumption | constructor].
  - intros s ->. cbn [truthy to_number].
    destruct (String.eqb_spec s EmptyString) as [->|Hne]; cbn [negb divisors].
    + split; [intros H; inversion H | intros [H _]; exfalso; apply H; reflexivity].
    + split.
      * intros H. inversion H as [d l Hd|d l Hd]; [split; assumption | inversion Hd].
      * intros [_ Hz]. constructor. exact Hz.
Qed.

Lemma calculatePercentageChange_guarded_witness :
  calculatePercentageChange (Num 150) (Num 100) = {| result := 50%float; divisors := [100%float] |}
  /\ result (calculatePercentageChange (Str "150") (Bool true)) = 14900%float
  /\ calculatePercentageChange (Num 3) (Num (-0)) = {| result := 0%float; divisors := [] |}
  /\ Forall (fun d => Js.is_zero d = false)
       (divisors (calculatePercentageChange (Num 1) (Num 3))).
Proof.
  split; [|split; [|split]].
  - apply (proj1 (proj2 (proj2 (calculatePercentageChange_guarded (Num 150) (Num 100))))
             150%float 100%float); reflexivity.
  - rewrite (proj1 (proj1 (proj2 (calculatePercentageChange_guarded (Str "150") (Bool true)))
                      eq_refl)).
    reflexivity.
  - apply (proj1 (calculatePercentageChange_guarded (Num 3) (Num (-0)))). reflexivity.
  - apply (proj1 (proj2 (proj2 (proj2 (calculatePercentageChange_guarded (Num 1) (Num 3)))))).
    intros s. discriminate.
Defined.
End PercentageChange.

(** ** Request URL and error classification *)

Section RequestClient.
Import Api ApiSpec.
Local Open Scope string_scope.

Lemma request_url_slash (base endpoint : string) :
  startsWith endpoint "/" = true -> request_url base endpoint = base ++ endpoint.
Proof. unfold request_url. intros ->. reflexivity. Qed.

Lemma request_url_other (base endpoint : string) :
  startsWith endpoint "/" = false -> request_url base endpoint = endpoint.
Proof. unfold request_url. intros ->. reflexivity. Qed.

Lemma absolute_not_slash (endpoint : string) :
  absolute_reference endpoint = true -> startsWith endpoint "/" = false.
Proof.
  destruct endpoint as [|c rest]; [discriminate|].
  intros H. cbn [absolute_reference] in H. apply andb_true_iff in H as [Hc _].
  unfold startsWith. cbn [String.prefix].
  destruct (ascii_dec "/" c) as [<-|_]; [discriminate Hc | reflexivity].
Qed.

(** A relative reference without a leading slash is handed to [fetch]
    as it is, where the specification's rule prefixes the base path. *)
Example request_url_relative :
  absolute_reference "users/1" = false
  /\ request_url "/api/v1" "users/1" = "users/1"
  /\ spec_request_url "/api/v1" "users/1" = "/api/v1users/1".
Proof. repeat split. Qed.

(** C5, as stated, fails: the base path is not bypassed exactly for
    absolute references; the relative reference [users/1] bypasses it
    too. *)
Lemma request_url_relative_counterexample :
  ~ (forall base endpoint : string,
        request_url base endpoint = spec_request_url base endpoint).
Proof.
  intros H. specialize (H "/api/v1" "users/1").
  destruct request_url_relative as (_ & Hc & Hs).
  rewrite Hc, Hs in H. discriminate H.
Qed.

(** C5, amended: the base path is prefixed exactly when the endpoint
    starts with a slash and every other endpoint, absolute references
    among them, is used unchanged; [get('/x')] under [/api/v1] targets
    [/api/v1/x] and [get('https://other/y')] targets that URL. *)
Theorem request_url_resolution (base endpoint : string) (net : string -> fetch_outcome) :
  (startsWith endpoint "/" = true -> fst (get base endpoint net) = base ++ endpoint)
  /\ (startsWith endpoint "/" = false -> fst (get base endpoint net) = endpoint)
  /\ (absolute_reference endpoint = true -> fst (get base endpoint net) = endpoint)
  /\ fst (get "/api/v1" "/x" net) = "/api/v1/x"
  /\ fst (get "/api/v1" "https://other/y" net) = "https://other/y".
Proof.
  unfold get, request; simpl.
  split; [apply request_url_slash|].
  split; [apply request_url_other|].
  split; [|split; reflexivity].
  intros H. apply request_url_other, absolute_not_slash, H.
Qed.

Lemma request_url_resolution_witness :
  fst (get apiBaseUrl "/alerts" (fun _ => NetworkFailure "offline")) = "/api/v1/alerts"
  /\ fst (get apiBaseUrl "alerts" (fun _ => NetworkFailure "offline")) = "alerts"
  /\ fst (get apiBaseUrl "wss://feed/y" (fun _ => NetworkFailure "offline")) = "wss://feed/y".
Proof.
  split; [|split].
  - apply (proj1 (request_url_resolution apiBaseUrl "/alerts" _)). reflexivity.
  - apply (proj1 (proj2 (request_url_resolution apiBaseUrl "alerts" _))). reflexivity.
  - apply (proj1 (proj2 (proj2 (request_url_resolution apiBaseUrl "wss://feed/y" _)))).
    reflexivity.
Defined.





End RequestClient.

(** ** The cache: write, read, expiry *)

Section Cache.
Import Storage.

Lemma get_set_entry (k : string) (v : json) (ttl : option Z) (now t : Z) (ls : gmap string item) :
  get k t (set k v ttl now ls)
  = if expired t {| value := v; expiry := expiry_of now ttl |}
    then (JNull, remove k (set k v ttl now ls))
    else (v, set k v ttl now ls).
Proof.
  unfold get, set. rewrite lookup_insert_eq. reflexivity.
Qed.

Lemma expired_iff (now t ttl : Z) (v : json) :
  0 <= now -> 0 < ttl ->
  expired t {| value := v; expiry := expiry_of now (Some ttl) |} = (now + ttl <? t).
Proof.
  intros Hn Ht. unfold expired, expiry_of. cbn.
  destruct (Z.eqb_spec ttl 0) as [->|_]; [lia|]. cbn.
  destruct (Z.eqb_spec (now + ttl) 0) as [E|_]; [lia|]. reflexivity.
Qed.

(** At the very millisecond of the expiry the entry is still served
    and stays in the store. *)
Example get_at_expiry :
  get "banner" 1000 (set "banner" (JNum 1) (Some 1000) 0 ∅)
  = (JNum 1, set "banner" (JNum 1) (Some 1000) 0 ∅).
Proof. rewrite get_set_entry. reflexivity. Qed.

(** C4, as stated, fails at a read made exactly at the stored expiry:
    the value is returned, not absent. *)
Lemma get_at_expiry_counterexample :
  ~ (forall (k : string) (v : json) (ttl now t : Z) (ls : gmap string item),
        now + ttl <= t -> fst (get k t (set k v (Some ttl) now ls)) = JNull).
Proof.
  intros H.
  specialize (H "banner"%string (JNum 1) 1000 0 1000 ∅ ltac:(lia)).
  rewrite get_at_expiry in H. discriminate H.
Qed.

(** C4, amended: with no expiry or a non-negative one, [set] followed
    at once by [get] returns the value; with a positive expiry every
    read up to and including the stored expiry returns the value, and
    every read strictly after it returns [null] and removes the
    namespaced key from the store. *)
Theorem set_get_expiry (k : string) (v : json) (now : Z) (ls : gmap string item) :
  0 <= now ->
  fst (get k now (set k v None now ls)) = v
  /\ (forall ttl, 0 <= ttl -> fst (get k now (set k v (Some ttl) now ls)) = v)
  /\ (forall ttl t, 0 < ttl -> t <= now + ttl ->
        get k t (set k v (Some ttl) now ls) = (v, set k v (Some ttl) now ls))
  /\ (forall ttl t, 0 < ttl -> now + ttl < t ->
        fst (get k t (set k v (Some ttl) now ls)) = JNull
        /\ snd (get k t (set k v (Some ttl) now ls)) !! qp k = None
        /\ snd (get k t (set k v (Some ttl) now ls)) = delete (qp k) ls).
Proof.
  intros Hnow. repeat split.
  - rewrite get_set_entry. reflexivity.
  - intros ttl Httl. rewrite get_set_entry.
    destruct (Z.eq_dec ttl 0) as [->|Hne]; [reflexivity|].
    rewrite expired_iff by lia.
    destruct (Z.ltb_spec (now + ttl) now); [lia | reflexivity].
  - intros ttl t Httl Ht. rewrite get_set_entry, expired_iff by lia.
    destruct (Z.ltb_spec (now + ttl) t); [lia | reflexivity].
  - rewrite get_set_entry, expired_iff by lia.
    destruct (Z.ltb_spec (now + ttl) t); [reflexivity | lia].
  - rewrite get_set_entry, expired_iff by lia.
    destruct (Z.ltb_spec (now + ttl) t); [|lia].
    unfold remove. cbn. apply lookup_delete_eq.
  - rewrite get_set_entry, expired_iff by lia.
    destruct (Z.ltb_spec (now + ttl) t); [|lia].
    unfold remove, set. cbn. apply delete_insert_eq.
Qed.

Lemma set_get_expiry_witness :
  fst (get "banner" 10 (set "banner" (JStr "seen") (Some 50) 10 ∅)) = JStr "seen"
  /\ fst (get "banner" 61 (set "banner" (JStr "seen") (Some 50) 10 ∅)) = JNull.
Proof.
  pose proof (set_get_expiry "banner" (JStr "seen") 10 ∅ ltac:(lia)) as (_ & Hnow & _ & Hlate).
  split.
  - apply Hnow. lia.
  - apply (Hlate 50 61); lia.
Defined.
End Cache.

(** ** Debounce *)

Section DebounceFacts.
Import Shapes.
Variable wait : Z.

(** The first call arms the wrapper. *)
Lemma first_call_arms (t : Z) (call : invocation) :
  0 <= wait -> 0 <= t ->
  armed wait t (inv_args call)
    (Debounce.executedFunction wait call (Debounce.advance t (Debounce.init 0))).
Proof.
  intros Hw Ht. unfold armed. cbn.
  rewrite !Z.max_r by lia.
  split; [reflexivity|]. split; [reflexivity|].
  exists 0%nat. split; reflexivity.
Qed.

(** A call that comes before the pending timer is due replaces it. *)
Lemma next_call_rearms (t t' : Z) (args : list json) (call : invocation) (s : Debounce.state) :
  armed wait t args s -> t <= t' < t + wait ->
  armed wait t' (inv_args call)
    (Debounce.executedFunction wait call (Debounce.advance t' s)).
Proof.
  intros (Hc & Hclk & h & Hto & Hp) Ht.
  destruct s as [[clk fr pend] to cs]. cbn in *. subst.
  unfold armed, Debounce.advance, Timers.advance, Timers.next_due. cbn.
  destruct (Z.leb_spec (t + wait) t'); [lia|]. cbn.
  rewrite Nat.eqb_refl. cbn.
  rewrite Z.max_r by lia. rewrite Z.max_r by lia.
  split; [reflexivity|]. split; [reflexivity|].
  eexists. split; reflexivity.
Qed.

Lemma burst_rearms (l : list (Z * invocation)) :
  forall (t : Z) (args : list json) (s : Debounce.state),
    armed wait t args s -> burst wait t l ->
    armed wait (fst (last_call t args l)) (snd (last_call t args l))
      (Debounce.simulate wait l s).
Proof.
  induction l as [|[t' call] rest IH]; intros t args s Ha Hb.
  - exact Ha.
  - inversion Hb; subst. cbn [Debounce.simulate last_call].
    apply IH; [|assumption].
    eapply next_call_rearms; eassumption.
Qed.

(** Once [wait] has passed since the last call, the pending timer has
    run [func] once, with the arguments of that call. *)
Lemma armed_fires (t T : Z) (args : list json) (s : Debounce.state) :
  0 <= wait -> armed wait t args s -> t + wait <= T ->
  Debounce.calls (Debounce.advance T s)
  = [(t + wait, {| inv_this := NoReceiver; inv_args := args |})].
Proof.
  intros Hw (Hc & Hclk & h & Hto & Hp) HT.
  destruct s as [[clk fr pend] to cs]. cbn in *. subst.
  unfold Debounce.advance, Timers.advance, Timers.next_due. cbn.
  destruct (Z.leb_spec (t + wait) T); [|lia]. cbn.
  rewrite Z.max_r by lia. reflexivity.
Qed.

(** Until then nothing has been passed on. *)
Lemma armed_waits (t T : Z) (args : list json) (s : Debounce.state) :
  armed wait t args s -> T < t + wait ->
  Debounce.calls (Debounce.advance T s) = [].
Proof.
  intros (Hc & Hclk & h & Hto & Hp) HT.
  destruct s as [[clk fr pend] to cs]. cbn in *. subst.
  unfold Debounce.advance, Timers.advance, Timers.next_due. cbn.
  destruct (Z.leb_spec (t + wait) T); [lia | reflexivity].
Qed.
(** Between two calls the loop has run every callback that was due. *)
Lemma debounce_advance_settles (t : Z) (s : Debounce.state) :
  Timers.next_due t (Timers.pending (Debounce.loop (Debounce.advance t s))) = None.
Proof.
  apply (advance_settles Debounce.loop Debounce.set_loop Debounce.later).
  - reflexivity.
  - intros args [l [h|] cs]; cbn; [apply drop_length | lia].
Qed.

End DebounceFacts.

Section DebounceClaim.
Import Shapes.

(** C7: five calls, each less than [wait] after the one before, lead
    to exactly one call of the underlying function, [wait] after the
    fifth call and with the fifth call's arguments; before that moment
    the function has not been called at all. *)
Theorem debounce_five_calls (wait t1 t2 t3 t4 t5 T : Z) (c1 c2 c3 c4 c5 : invocation) :
  0 <= t1 ->
  t1 <= t2 < t1 + wait ->
  t2 <= t3 < t2 + wait ->
  t3 <= t4 < t3 + wait ->
  t4 <= t5 < t4 + wait ->
  (T < t5 + wait ->
     Debounce.calls
       (Debounce.advance T
          (Debounce.simulate wait [(t1, c1); (t2, c2); (t3, c3); (t4, c4); (t5, c5)]
             (Debounce.init 0))) = [])
  /\ (t5 + wait <= T ->
      exists call,
        Debounce.calls
          (Debounce.advance T
             (Debounce.simulate wait [(t1, c1); (t2, c2); (t3, c3); (t4, c4); (t5, c5)]
                (Debounce.init 0))) = [(t5 + wait, call)]
        /\ inv_args call = inv_args c5).
Proof.
  intros H1 H2 H3 H4 H5.
  set (s := Debounce.simulate wait [(t1, c1); (t2, c2); (t3, c3); (t4, c4); (t5, c5)]
              (Debounce.init 0)).
  assert (Hs : armed wait t5 (inv_args c5) s).
  { subst s. cbn [Debounce.simulate].
    change (armed wait
              (fst (last_call t1 (inv_args c1) [(t2, c2); (t3, c3); (t4, c4); (t5, c5)]))
              (snd (last_call t1 (inv_args c1) [(t2, c2); (t3, c3); (t4, c4); (t5, c5)]))
              (Debounce.simulate wait [(t2, c2); (t3, c3); (t4, c4); (t5, c5)]
                 (Debounce.executedFunction wait c1 (Debounce.advance t1 (Debounce.init 0))))).
    apply burst_rearms.
    - apply first_call_arms; lia.
    - repeat (constructor; [assumption|]). constructor. }
  split.
  - intros HT. eapply armed_waits; eassumption.
  - intros HT. eexists. split.
    + apply (armed_fires wait t5 T (inv_args c5) s); [lia | exact Hs | exact HT].
    + reflexivity.
Qed.

Lemma debounce_five_calls_witness :
  exists c,
    Debounce.calls
      (Debounce.advance 1000
         (Debounce.simulate 300
            [(0, typed 1); (100, typed 2); (250, typed 3); (400, typed 4); (650, typed 5)]
            (Debounce.init 0)))
    = [(650 + 300, c)]
    /\ inv_args c = [JNum 5].
Proof.
  apply (proj2 (debounce_five_calls 300 0 100 250 400 650 1000
                  (typed 1) (typed 2) (typed 3) (typed 4) (typed 5)
                  ltac:(lia) ltac:(lia) ltac:(lia) ltac:(lia) ltac:(lia))).
  lia.
Defined.

(** C9, on the code: the call that the debounced wrapper passes on
    carries the arguments of the wrapper's call but not its receiver;
    [func] is called plainly, where [throttle] applies it to the
    receiver it captured. *)
Theorem debounce_drops_receiver :
  Debounce.calls
    (Debounce.advance 100
       (Debounce.simulate 100 [(0, {| inv_this := Receiver "form"; inv_args := [JNum 1] |})]
          (Debounce.init 0)))
  = [(100, {| inv_this := NoReceiver; inv_args := [JNum 1] |})].
Proof. reflexivity. Qed.
End DebounceClaim.

(** ** Throttle *)

Section ThrottleFacts.
Import Shapes.
Variable limit : Z.
Hypothesis limit_pos : 0 < limit.

(** A call that finds no window running is passed on at once and
    starts a window of [limit]. *)
Lemma ready_fires (t : Z) (call : invocation) (s : Throttle.state) :
  ready t s ->
  Throttle.calls (Throttle.wrapper limit call (Throttle.advance t s))
  = Throttle.calls s ++ [(t, call)]
  /\ busy (t + limit) (Throttle.wrapper limit call (Throttle.advance t s))
  /\ Timers.clock (Throttle.loop (Throttle.wrapper limit call (Throttle.advance t s))) = t.
Proof.
  intros (Hclk & [(Hin & Hp) | (Hin & h & d & Hd & Hp)]);
    destruct s as [[clk fr pend] inT cs]; cbn in *; subst.
  - unfold Throttle.advance, Timers.advance, Throttle.wrapper, busy. cbn.
    rewrite !Z.max_r by lia.
    split; [reflexivity|]. split; [|reflexivity].
    split; [reflexivity|]. split; [lia|]. eexists. reflexivity.
  - unfold Throttle.advance, Timers.advance, Timers.next_due, Throttle.wrapper, busy. cbn.
    destruct (Z.leb_spec d t); [|lia]. cbn.
    rewrite Nat.eqb_refl. cbn.
    rewrite !Z.max_r by lia.
    split; [reflexivity|]. split; [|reflexivity].
    split; [reflexivity|]. split; [lia|]. eexists. reflexivity.
Qed.

(** A call inside the window changes nothing but the clock. *)
Lemma busy_drops (d t : Z) (call : invocation) (s : Throttle.state) :
  busy d s -> Timers.clock (Throttle.loop s) <= t < d ->
  Throttle.calls (Throttle.wrapper limit call (Throttle.advance t s)) = Throttle.calls s
  /\ busy d (Throttle.wrapper limit call (Throttle.advance t s))
  /\ Timers.clock (Throttle.loop (Throttle.wrapper limit call (Throttle.advance t s))) = t.
Proof.
  intros (Hin & Hclk & h & Hp) Ht.
  destruct s as [[clk fr pend] inT cs]; cbn in *; subst.
  unfold Throttle.advance, Timers.advance, Timers.next_due, Throttle.wrapper, busy. cbn.
  destruct (Z.leb_spec d t); [lia|]. cbn.
  rewrite Z.max_r by lia.
  split; [reflexivity|]. split; [|reflexivity].
  split; [reflexivity|]. split; [lia|]. eexists. reflexivity.
Qed.

Lemma before_dropped (d : Z) (l : list (Z * invocation)) :
  forall (t : Z) (s : Throttle.state),
    busy d s -> Timers.clock (Throttle.loop s) <= t -> before d t l ->
    Throttle.calls (Throttle.simulate limit l s) = Throttle.calls s
    /\ busy d (Throttle.simulate limit l s).
Proof.
  induction l as [|[t' call] rest IH]; intros t s Hb Hclk Hl.
  - split; [reflexivity | exact Hb].
  - inversion Hl; subst. cbn [Throttle.simulate].
    destruct (busy_drops d t' call s Hb ltac:(lia)) as (Hc & Hb' & Hclk').
    destruct (IH t' _ Hb' ltac:(lia) ltac:(assumption)) as (Hc' & Hb'').
    split; [congruence | exact Hb''].
Qed.

Lemma busy_ready (d t : Z) (s : Throttle.state) : busy d s -> d <= t -> ready t s.
Proof.
  intros (Hin & Hclk & h & Hp) Hd. split; [lia|].
  right. split; [exact Hin|]. exists h, d. split; assumption.
Qed.

Lemma simulate_app (l1 l2 : list (Z * invocation)) (s : Throttle.state) :
  Throttle.simulate limit (l1 ++ l2) s
  = Throttle.simulate limit l2 (Throttle.simulate limit l1 s).
Proof.
  revert s. induction l1 as [|[t c] l1 IH]; intros s; [reflexivity|].
  cbn [Throttle.simulate app]. apply IH.
Qed.

(** When the wrapper is called, every reset that was due has run. *)
Lemma throttle_advance_settles (t : Z) (s : Throttle.state) :
  Timers.next_due t (Timers.pending (Throttle.loop (Throttle.advance t s))) = None.
Proof.
  apply (advance_settles Throttle.loop Throttle.set_loop Throttle.reset).
  - reflexivity.
  - intros c s'. cbn. lia.
Qed.

End ThrottleFacts.

Section ThrottlePeriodic.
Import Shapes.
Variables (limit period : Z) (call : invocation).
Hypothesis period_pos : 0 < period.

Let at_tick (k : nat) : Z * invocation := (Z.of_nat k * period, call).

Lemma ticks_before (d : Z) (n : nat) :
  forall (start : nat) (t : Z),
    t <= Z.of_nat start * period ->
    (Z.of_nat (start + n) - 1) * period < d ->
    before d t (List.map at_tick (seq start n)).
Proof.
  induction n as [|n IH]; intros start t Ht Hd; cbn [seq List.map].
  - constructor.
  - constructor.
    + unfold at_tick. nia.
    + apply IH; [nia|].
      replace (Z.of_nat (S start + n)) with (Z.of_nat (start + S n)) by lia. exact Hd.
Qed.

(** One window of a periodic run: of the calls that fall into it, the
    first is passed on and the others are dropped. *)
Lemma window_of_ticks (j start : nat) (s : Throttle.state) :
  0 < limit -> (0 < j)%nat -> (Z.of_nat j - 1) * period < limit ->
  ready (Z.of_nat start * period) s ->
  Throttle.calls (Throttle.simulate limit (List.map at_tick (seq start j)) s)
  = Throttle.calls s ++ [(Z.of_nat start * period, call)]
  /\ busy (Z.of_nat start * period + limit)
       (Throttle.simulate limit (List.map at_tick (seq start j)) s).
Proof.
  intros Hlim Hj Hl Hr. destruct j as [|j]; [lia|].
  cbn [seq List.map Throttle.simulate]. unfold at_tick at 1 3.
  destruct (ready_fires limit Hlim (Z.of_nat start * period) call s Hr) as (Hc & Hb & Hclk).
  destruct (before_dropped limit (Z.of_nat start * period + limit)
              (List.map at_tick (seq (S start) j)) (Z.of_nat start * period) _ Hb
              ltac:(lia)) as (Hc' & Hb').
  { apply ticks_before; nia. }
  split; [congruence | exact Hb'].
Qed.

(** [ticks_within period d] is [d / period] rounded up. *)
Lemma ticks_within_bounds (d : Z) :
  0 < d ->
  (Z.of_nat (ticks_within period d) - 1) * period < d
  /\ d <= Z.of_nat (ticks_within period d) * period.
Proof.
  intros Hd. unfold ticks_within.
  pose proof (Z.div_mod (d + period - 1) period ltac:(lia)) as E.
  pose proof (Z.mod_pos_bound (d + period - 1) period period_pos) as B.
  assert (0 <= (d + period - 1) / period) by (apply Z.div_pos; lia).
  rewrite Z2Nat.id by assumption. nia.
Qed.

Let per_window : nat := ticks_within period limit.
Let stride : Z := Z.of_nat per_window * period.

(** Calls every [period], faster than the limit, for three times the
    limit: the calls passed on are those at the multiples of the
    stride, the first tick at or after the end of a window. *)
Lemma periodic_run :
  period < limit ->
  Throttle.calls
    (Throttle.simulate limit
       (periodic period call (ticks_within period (3 * limit)))
       (Throttle.init 0))
  = if 2 * stride <? 3 * limit
    then [(0, call); (stride, call); (2 * stride, call)]
    else [(0, call); (stride, call)].
Proof.
  intros Hfast.
  assert (Hlim : 0 < limit) by lia.
  destruct (ticks_within_bounds limit Hlim) as (Hm1 & Hm2).
  destruct (ticks_within_bounds (3 * limit) ltac:(lia)) as (Hn1 & Hn2).
  fold per_window in Hm1, Hm2.
  set (n := ticks_within period (3 * limit)) in *.
  assert (Hm : (0 < per_window)%nat) by nia.
  assert (R0 : ready (Z.of_nat 0 * period) (Throttle.init 0)).
  { split; [cbn; lia|]. left. split; reflexivity. }
  destruct (window_of_ticks per_window 0 _ Hlim Hm Hm1 R0) as (C1 & B1).
  assert (R1 : ready (Z.of_nat (0 + per_window) * period)
                 (Throttle.simulate limit (List.map at_tick (seq 0 per_window))
                    (Throttle.init 0))).
  { eapply busy_ready; [exact B1 | cbn [Nat.add]; lia]. }
  unfold periodic. fold at_tick.
  destruct (Z.ltb_spec (2 * stride) (3 * limit)) as [H3|H2]; unfold stride in *.
  - assert (exists j, n = (per_window + (per_window + j))%nat
                      /\ (0 < j)%nat /\ (j <= per_window)%nat) as (j & -> & Hj & Hjm).
    { exists (n - (per_window + per_window))%nat. nia. }
    destruct (window_of_ticks per_window (0 + per_window) _ Hlim Hm Hm1 R1) as (C2 & B2).
    assert (R2 : ready (Z.of_nat (0 + per_window + per_window) * period)
                   (Throttle.simulate limit (List.map at_tick (seq (0 + per_window) per_window))
                      (Throttle.simulate limit (List.map at_tick (seq 0 per_window))
                         (Throttle.init 0)))).
    { eapply busy_ready; [exact B2 | cbn [Nat.add]; lia]. }
    destruct (window_of_ticks j (0 + per_window + per_window) _ Hlim Hj ltac:(nia) R2)
      as (C3 & _).
    rewrite !seq_app, !List.map_app, !(simulate_app limit).
    rewrite C3, C2, C1. cbn [Throttle.calls Throttle.init app Nat.add].
    replace (Z.of_nat (per_window + per_window) * period)
      with (2 * (Z.of_nat per_window * period)) by lia.
    reflexivity.
  - assert (exists j, n = (per_window + j)%nat
                      /\ (0 < j)%nat /\ (j <= per_window)%nat) as (j & -> & Hj & Hjm).
    { exists (n - per_window)%nat. nia. }
    destruct (window_of_ticks j (0 + per_window) _ Hlim Hj ltac:(nia) R1) as (C2 & _).
    rewrite !seq_app, !List.map_app, !(simulate_app limit).
    rewrite C2, C1. cbn [Throttle.calls Throttle.init app Nat.add].
    reflexivity.
Qed.

(** When the period divides the limit the stride is the limit. *)
Lemma stride_of_divisor (k : nat) :
  limit = Z.of_nat k * period -> stride = limit.
Proof.
  intros Hl. unfold stride, per_window, ticks_within. subst limit.
  replace (Z.of_nat k * period + period - 1)
    with (Z.of_nat k * period + (period - 1)) by lia.
  rewrite Z.div_add_l by lia.
  rewrite (Z.div_small (period - 1) period) by lia. lia.
Qed.
End ThrottlePeriodic.

(** ** Throttle: a call at the very end of a window *)

Section ThrottleTies.
Import Shapes.
Variable limit : Z.
Hypothesis limit_pos : 0 < limit.

(** Away from a tie the order of call and reset plays no part. *)
Lemma arrive_settled (early : bool) (t : Z) (s : Throttle.state) :
  ready t s -> settled t s -> Throttle.arrive early t s = Throttle.advance t s.
Proof.
  intros (Hclk & [(Hin & Hp) | (Hin & h & d & Hd & Hp)]) Hs;
    destruct early; try reflexivity;
    destruct s as [[clk fr pend] inT cs]; unfold settled in Hs; cbn in *; subst.
  - unfold Throttle.arrive, Timers.arrive, Throttle.advance, Timers.advance,
      Throttle.set_loop, Timers.set_clock. cbn.
    do 2 f_equal. lia.
  - apply Forall_cons in Hs as [Hlt _]. cbn in Hlt.
    unfold Throttle.arrive, Timers.arrive, Throttle.advance, Timers.advance, Timers.next_due,
      Throttle.set_loop, Timers.set_clock.
    cbn. destruct (Z.leb_spec d (t - 1)); [|lia]. destruct (Z.leb_spec d t); [|lia]. cbn.
    rewrite Nat.eqb_refl. cbn. do 2 f_equal. lia.
Qed.

Lemma arrive_busy (early : bool) (d t : Z) (s : Throttle.state) :
  busy d s -> t < d -> Throttle.arrive early t s = Throttle.advance t s.
Proof.
  intros (Hin & Hclk & h & Hp) Ht. destruct early; [|reflexivity].
  destruct s as [[clk fr pend] inT cs]; cbn in *; subst.
  unfold Throttle.arrive, Timers.arrive, Throttle.advance, Timers.advance, Timers.next_due,
    Throttle.set_loop, Timers.set_clock.
  cbn. destruct (Z.leb_spec d (t - 1)); [lia|]. destruct (Z.leb_spec d t); [lia|]. cbn.
  do 2 f_equal. lia.
Qed.

(** A call at the very end of a window that comes before the reset is
    dropped: the flag is still set. *)
Lemma tie_dropped (d : Z) (call : invocation) (s : Throttle.state) :
  busy d s ->
  Throttle.calls (Throttle.wrapper limit call (Throttle.arrive true d s)) = Throttle.calls s
  /\ ready d (Throttle.wrapper limit call (Throttle.arrive true d s)).
Proof.
  intros (Hin & Hclk & h & Hp).
  destruct s as [[clk fr pend] inT cs]; cbn in *; subst.
  unfold Throttle.arrive, Timers.arrive, Throttle.advance, Timers.advance, Timers.next_due,
    Throttle.wrapper, ready.
  cbn. destruct (Z.leb_spec d (d - 1)); [lia|]. cbn.
  split; [reflexivity|]. split; [lia|]. right. split; [reflexivity|].
  exists h, d. split; [lia | reflexivity].
Qed.

Lemma throttle_run_app (l1 l2 : list (bool * (Z * invocation))) (s : Throttle.state) :
  Throttle.run limit (l1 ++ l2) s = Throttle.run limit l2 (Throttle.run limit l1 s).
Proof.
  revert s. induction l1 as [|[e [t c]] l1 IH]; intros s; [reflexivity|].
  cbn [Throttle.run app]. apply IH.
Qed.

(** Inside a window the order plays no part: every call is dropped. *)
Lemma run_before (d : Z) (l : list (bool * (Z * invocation))) :
  forall (t : Z) (s : Throttle.state),
    busy d s -> Timers.clock (Throttle.loop s) <= t -> before d t (List.map snd l) ->
    Throttle.run limit l s = Throttle.simulate limit (List.map snd l) s.
Proof.
  induction l as [|[e [t' call]] rest IH]; intros t s Hb Hclk Hl; [reflexivity|].
  cbn [List.map snd] in Hl. inversion Hl; subst.
  cbn [Throttle.run Throttle.simulate List.map snd].
  rewrite (arrive_busy e d t' s Hb) by lia.
  destruct (busy_drops limit d t' call s Hb ltac:(lia)) as (_ & Hb' & Hclk').
  apply (IH t'); [exact Hb' | lia | assumption].
Qed.
End ThrottleTies.

Section ThrottlePeriodicTies.
Import Shapes.
Variables (limit period : Z) (call : invocation) (early : nat -> bool).
Hypothesis period_pos : 0 < period.
Hypothesis limit_pos : 0 < limit.

Let at_tick (k : nat) : Z * invocation := (Z.of_nat k * period, call).
Let tick (k : nat) : bool * (Z * invocation) := (early k, at_tick k).

Lemma ticks_untied (start n : nat) :
  List.map snd (List.map tick (seq start n)) = List.map at_tick (seq start n).
Proof. rewrite List.map_map. reflexivity. Qed.

(** One window, entered away from a tie. *)
Lemma run_window (j start : nat) (s : Throttle.state) :
  (0 < j)%nat -> (Z.of_nat j - 1) * period < limit ->
  ready (Z.of_nat start * period) s -> settled (Z.of_nat start * period) s ->
  Throttle.run limit (List.map tick (seq start j)) s
  = Throttle.simulate limit (List.map at_tick (seq start j)) s.
Proof.
  intros Hj Hl Hr Hs. destruct j as [|j]; [lia|].
  cbn [seq List.map Throttle.run Throttle.simulate]. unfold tick at 1, at_tick at 1 3.
  rewrite (arrive_settled (early start) _ s Hr Hs).
  destruct (ready_fires limit limit_pos (Z.of_nat start * period) call s Hr) as (_ & Hb & Hclk).
  rewrite <- ticks_untied.
  apply (run_before limit (Z.of_nat start * period + limit) _
           (Z.of_nat start * period)); [exact Hb | lia|].
  rewrite ticks_untied. apply ticks_before; [exact period_pos | nia | nia].
Qed.

Lemma busy_settled (d t : Z) (s : Throttle.state) : busy d s -> d < t -> settled t s.
Proof.
  intros (_ & _ & h & Hp) Hd. unfold settled. rewrite Hp.
  constructor; [exact Hd | constructor].
Qed.

(** When the period does not divide the limit no call of a periodic
    run falls on the end of a window, and the run goes the same way
    whatever would come first at a tie. *)
Lemma periodic_run_untied :
  period < limit -> limit mod period <> 0 ->
  Throttle.run limit
    (periodic_ties period call early (ticks_within period (3 * limit))) (Throttle.init 0)
  = Throttle.simulate limit
      (periodic period call (ticks_within period (3 * limit))) (Throttle.init 0).
Proof.
  intros Hfast Hmod.
  destruct (ticks_within_bounds period period_pos limit limit_pos) as (Hm1 & Hm2).
  destruct (ticks_within_bounds period period_pos (3 * limit) ltac:(lia)) as (Hn1 & Hn2).
  set (m := ticks_within period limit) in *.
  set (n := ticks_within period (3 * limit)) in *.
  assert (Hm : (0 < m)%nat) by nia.
  assert (Hstrict : limit < Z.of_nat m * period).
  { destruct (Z.eq_dec limit (Z.of_nat m * period)) as [E|E]; [|lia].
    exfalso. apply Hmod. rewrite E. apply Z.mod_mul. lia. }
  assert (R0 : ready (Z.of_nat 0 * period) (Throttle.init 0)).
  { split; [cbn; lia|]. left. split; reflexivity. }
  assert (S0 : settled (Z.of_nat 0 * period) (Throttle.init 0)) by constructor.
  destruct (window_of_ticks limit period call period_pos m 0 _ limit_pos Hm Hm1 R0)
    as (_ & B1).
  fold at_tick in B1.
  unfold periodic_ties, periodic.
  change (fun k : nat => (early k, (Z.of_nat k * period, call))) with tick.
  change (fun k : nat => (Z.of_nat k * period, call)) with at_tick.
  destruct (Z.ltb_spec (2 * (Z.of_nat m * period)) (3 * limit)) as [H3|H2].
  - assert (exists j, n = (m + (m + j))%nat /\ (0 < j)%nat /\ (j <= m)%nat)
      as (j & -> & Hj & Hjm).
    { exists (n - (m + m))%nat. nia. }
    assert (R1 : ready (Z.of_nat (0 + m) * period)
                   (Throttle.simulate limit (List.map at_tick (seq 0 m)) (Throttle.init 0))).
    { eapply busy_ready; [exact B1 | cbn [Nat.add]; lia]. }
    assert (S1 : settled (Z.of_nat (0 + m) * period)
                   (Throttle.simulate limit (List.map at_tick (seq 0 m)) (Throttle.init 0))).
    { eapply busy_settled; [exact B1 | cbn [Nat.add]; lia]. }
    destruct (window_of_ticks limit period call period_pos m (0 + m) _ limit_pos Hm Hm1 R1)
      as (_ & B2).
    fold at_tick in B2.
    rewrite !seq_app, !List.map_app, !(throttle_run_app limit), !(simulate_app limit).
    rewrite (run_window m 0 _ Hm Hm1 R0 S0).
    rewrite (run_window m (0 + m) _ Hm Hm1 R1 S1).
    apply run_window; [exact Hj | nia | |].
    + eapply busy_ready; [exact B2 | cbn [Nat.add]; lia].
    + eapply busy_settled; [exact B2 | cbn [Nat.add]; lia].
  - assert (exists j, n = (m + j)%nat /\ (0 < j)%nat /\ (j <= m)%nat)
      as (j & -> & Hj & Hjm).
    { exists (n - m)%nat. nia. }
    rewrite !seq_app, !List.map_app, !(throttle_run_app limit), !(simulate_app limit).
    rewrite (run_window m 0 _ Hm Hm1 R0 S0).
    apply run_window; [exact Hj | nia | |].
    + eapply busy_ready; [exact B1 | cbn [Nat.add]; lia].
    + eapply busy_settled; [exact B1 | cbn [Nat.add]; lia].
Qed.
End ThrottlePeriodicTies.

Section ThrottleClaim.
Import Shapes.

(** Calls every 9 ms against a limit of 10 ms, for 30 ms: the calls at
    0 and 18 are passed on; the one at 27 falls into the window that
    the call at 18 started. *)
Example throttle_every_9_of_10 :
  ticks_within 9 (3 * 10) = 4%nat
  /\ List.map fst (periodic 9 (typed 0) 4) = [0; 9; 18; 27]
  /\ List.map fst
       (Throttle.calls
          (Throttle.simulate 10 (periodic 9 (typed 0) 4) (Throttle.init 0)))
     = [0; 18].
Proof. repeat split. Qed.

(** C8, as stated, fails: a rate faster than the limit does not always
    give three calls in three times the limit. *)
Lemma throttle_rate_counterexample :
  ~ (forall (limit period : Z) (call : invocation),
        0 < period < limit ->
        length
          (Throttle.calls
             (Throttle.simulate limit
                (periodic period call (ticks_within period (3 * limit)))
                (Throttle.init 0)))
        = 3%nat).
Proof.
  intros H. specialize (H 10 9 (typed 0) ltac:(lia)).
  vm_compute in H. discriminate H.
Qed.

(** Without ties a run with flags is the plain run. *)
Lemma run_resets_first (limit : Z) (l : list (Z * invocation)) (s : Throttle.state) :
  Throttle.run limit (List.map (pair false) l) s = Throttle.simulate limit l s.
Proof.
  revert s. induction l as [|[t c] l IH]; intros s; [reflexivity|].
  cbn [List.map Throttle.run Throttle.simulate]. apply IH.
Qed.

(** A period that divides the limit: every window ends at a call, and
    what is passed on depends on which comes first there. *)
Example throttle_tie_orders :
  ticks_within 5 (3 * 10) = 6%nat
  /\ List.map fst
       (Throttle.calls
          (Throttle.run 10 (periodic_ties 5 (typed 0) (fun _ => false) 6) (Throttle.init 0)))
     = [0; 10; 20]
  /\ List.map fst
       (Throttle.calls
          (Throttle.run 10 (periodic_ties 5 (typed 0) (fun _ => true) 6) (Throttle.init 0)))
     = [0; 15].
Proof. repeat split. Qed.

(** C8, amended: a call that finds no window running, or arrives after
    the end of one, is passed on at once and starts a window; every
    call less than [limit] after the start of a window is dropped; a
    call at the very end of a window is passed on when the reset has
    run before it and dropped when the call comes first.  Calls every
    [period] (less than the limit) during three times the limit: when
    the period does not divide the limit no call meets the end of a
    window and the calls passed on are those at the multiples of the
    stride, the first tick after the limit, which makes three calls
    when twice the stride is less than three times the limit and two
    calls otherwise; when the period divides the limit and every reset
    runs before the call it meets, the calls at [0], [limit] and
    [2 * limit] are passed on. *)
Theorem throttle_windows (limit : Z) (call : invocation) :
  0 < limit ->
  (forall early t s, ready t s -> settled t s ->
     Throttle.calls (Throttle.wrapper limit call (Throttle.arrive early t s))
     = Throttle.calls s ++ [(t, call)]
     /\ busy (t + limit) (Throttle.wrapper limit call (Throttle.arrive early t s)))
  /\ (forall d t l s,
        busy d s -> Timers.clock (Throttle.loop s) <= t -> before d t (List.map snd l) ->
        Throttle.calls (Throttle.run limit l s) = Throttle.calls s)
  /\ (forall d s, busy d s ->
        Throttle.calls (Throttle.wrapper limit call (Throttle.arrive false d s))
        = Throttle.calls s ++ [(d, call)]
        /\ Throttle.calls (Throttle.wrapper limit call (Throttle.arrive true d s))
           = Throttle.calls s)
  /\ (forall period early, 0 < period < limit -> limit mod period <> 0 ->
        Throttle.calls
          (Throttle.run limit
             (periodic_ties period call early (ticks_within period (3 * limit)))
             (Throttle.init 0))
        = if 2 * (Z.of_nat (ticks_within period limit) * period) <? 3 * limit
          then [(0, call);
                (Z.of_nat (ticks_within period limit) * period, call);
                (2 * (Z.of_nat (ticks_within period limit) * period), call)]
          else [(0, call);
                (Z.of_nat (ticks_within period limit) * period, call)])
  /\ (forall period k, 0 < period < limit -> limit = Z.of_nat k * period ->
        Throttle.calls
          (Throttle.run limit
             (periodic_ties period call (fun _ => false) (ticks_within period (3 * limit)))
             (Throttle.init 0))
        = [(0, call); (limit, call); (2 * limit, call)]).
Proof.
  intros Hlim. split; [|split; [|split; [|split]]].
  - intros early t s Hr Hs. rewrite (arrive_settled early t s Hr Hs).
    destruct (ready_fires limit Hlim t call s Hr) as (Hc & Hb & _). split; assumption.
  - intros d t l s Hb Hclk Hl. rewrite (run_before limit d l t s Hb Hclk Hl).
    eapply before_dropped; eassumption.
  - intros d s Hb. split.
    + apply ready_fires; [assumption|]. eapply busy_ready; [exact Hb | lia].
    + apply (tie_dropped limit d call s Hb).
  - intros period early [Hp Hfast] Hmod.
    rewrite (periodic_run_untied limit period call early Hp Hlim Hfast Hmod).
    apply (periodic_run limit period call Hp Hfast).
  - intros period k [Hp Hfast] Hk.
    unfold periodic_ties.
    rewrite <- (List.map_map (fun k => (Z.of_nat k * period, call)) (pair false)).
    rewrite run_resets_first.
    change (List.map (fun k : nat => (Z.of_nat k * period, call))
              (seq 0 (ticks_within period (3 * limit))))
      with (periodic period call (ticks_within period (3 * limit))).
    rewrite (periodic_run limit period call Hp Hfast).
    pose proof (stride_of_divisor limit period Hp k Hk) as E. cbv zeta in E.
    rewrite E.
    destruct (Z.ltb_spec (2 * limit) (3 * limit)); [reflexivity | lia].
Qed.

Lemma throttle_windows_witness :
  Throttle.calls
    (Throttle.run 10 (periodic_ties 3 (typed 0) Nat.even (ticks_within 3 (3 * 10)))
       (Throttle.init 0))
  = [(0, typed 0); (12, typed 0); (24, typed 0)]
  /\ Throttle.calls
       (Throttle.run 10 (periodic_ties 2 (typed 0) (fun _ => false) (ticks_within 2 (3 * 10)))
          (Throttle.init 0))
     = [(0, typed 0); (10, typed 0); (2 * 10, typed 0)].
Proof.
  split.
  - apply (proj1 (proj2 (proj2 (proj2 (throttle_windows 10 (typed 0) ltac:(lia))))) 3 Nat.even);
      [lia | discriminate].
  - apply (proj2 (proj2 (proj2 (proj2 (throttle_windows 10 (typed 0) ltac:(lia))))) 2 5%nat);
      [lia | reflexivity].
Defined.
End ThrottleClaim.

Section ThrottleReceiver.
Import Shapes.

(** The throttled wrapper hands its own receiver and arguments on. *)
Lemma throttle_keeps_receiver (limit t : Z) (call : invocation) (s : Throttle.state) :
  0 < limit -> ready t s ->
  last (Throttle.calls (Throttle.wrapper limit call (Throttle.advance t s))) = Some (t, call).
Proof.
  intros Hl Hr. destruct (ready_fires limit Hl t call s Hr) as (-> & _).
  apply last_snoc.
Qed.
End ThrottleReceiver.

(** ** The connection manager *)

Section Reconnect.
Import Websocket Shapes.

Lemma connect_same_policy (u : string) (m : manager) : same_policy m (connect u m).
Proof. unfold connect. destruct (connection_open m); repeat split. Qed.

Lemma disconnect_same_policy (m : manager) : same_policy m (disconnect m).
Proof. unfold disconnect. destruct (connection m); repeat split. Qed.

Lemma send_same_policy (data : json) (m : manager) : same_policy m (send data m).
Proof.
  unfold send. destruct (connection m); [|repeat split].
  destruct (connection_open m); repeat split.
Qed.

Lemma advance_same_policy (t : Z) (m : manager) : same_policy m (advance t m).
Proof.
  unfold advance.
  apply (advance_keeps loop set_loop connect (same_policy m)).
  - intros l s H. exact H.
  - intros u s (H1 & H2 & H3). destruct (connect_same_policy u s) as (E1 & E2 & E3).
    repeat split; congruence.
  - repeat split.
Qed.

(** [connect] leaves the pending timers alone. *)
Lemma connect_keeps_timers (u : string) (m : manager) : loop (connect u m) = loop m.
Proof. unfold connect. destruct (connection_open m); reflexivity. Qed.

Lemma disconnect_not_open (m : manager) : connection_open (disconnect m) = false.
Proof.
  unfold disconnect. destruct (connection m) eqn:E; [reflexivity|].
  unfold connection_open. rewrite E. reflexivity.
Qed.

Lemma disconnect_keeps_timers (m : manager) : loop (disconnect m) = loop m.
Proof. unfold disconnect. destruct (connection m); reflexivity. Qed.

(** The effect of a close event, spelled out. *)
Lemma step_closed (i : nat) (m m' : manager) :
  step (Closed i) m = Some m' ->
  exists s,
    sockets m !! i = Some s /\ state s <> CLOSED
    /\ hooks m' = hooks m ++ [onDisconnect]
    /\ maxReconnectAttempts m' = maxReconnectAttempts m
    /\ reconnectInterval m' = reconnectInterval m
    /\ connection m' = connection m
    /\ sockets m' = <[i := with_state CLOSED s]> (sockets m)
    /\ if reconnectAttempts m <? maxReconnectAttempts m
       then reconnectAttempts m' = reconnectAttempts m + 1
            /\ loop m' = snd (Timers.setTimeout (url s) (reconnectInterval m) (loop m))
       else reconnectAttempts m' = reconnectAttempts m /\ loop m' = loop m.
Proof.
  cbn [step]. destruct (sockets m !! i) as [s|] eqn:Hs; [|discriminate].
  destruct (is_CLOSED (state s)) eqn:Hc; [discriminate|].
  intros [= <-]. exists s.
  split; [reflexivity|]. split; [destruct (state s); (discriminate || congruence)|].
  unfold onclose, attemptReconnect. cbn.
  destruct (reconnectAttempts m <? maxReconnectAttempts m); cbn; repeat split.
Qed.

Lemma step_opened (i : nat) (m m' : manager) :
  step (Opened i) m = Some m' ->
  reconnectAttempts m' = 0
  /\ maxReconnectAttempts m' = maxReconnectAttempts m
  /\ reconnectInterval m' = reconnectInterval m
  /\ loop m' = loop m
  /\ hooks m' = hooks m ++ [onConnect].
Proof.
  cbn [step]. destruct (sockets m !! i) as [s|]; [|discriminate].
  destruct (is_CONNECTING (state s)); [|discriminate].
  intros [= <-]. repeat split.
Qed.

(** Every event other than an open or a close leaves the policy
    fields as they are. *)
Lemma step_other (e : event) (m m' : manager) :
  step e m = Some m' ->
  (forall i, e <> Opened i) -> (forall i, e <> Closed i) ->
  same_policy m m'.
Proof.
  intros Hs Ho Hc. destruct e; cbn [step] in Hs.
  - injection Hs as <-. apply connect_same_policy.
  - injection Hs as <-. apply disconnect_same_policy.
  - injection Hs as <-. apply send_same_policy.
  - exfalso. exact (Ho i eq_refl).
  - destruct (sockets m !! i) as [s|]; [|discriminate].
    destruct (is_OPEN (state s)); [|discriminate].
    injection Hs as <-. destruct data; repeat split.
  - exfalso. exact (Hc i eq_refl).
  - destruct (Timers.clock (loop m) <=? t); [|discriminate].
    injection Hs as <-. apply advance_same_policy.
Qed.

Lemma step_policy_ok (e : event) (m m' : manager) :
  policy_ok m -> step e m = Some m' -> policy_ok m'.
Proof.
  intros (Ha & Hi) Hs. unfold policy_ok.
  destruct e;
    try (destruct (step_other _ _ _ Hs ltac:(discriminate) ltac:(discriminate))
          as (E1 & E2 & E3); rewrite <- E1, <- E2, <- E3; split; assumption).
  - destruct (step_opened _ _ _ Hs) as (E1 & E2 & E3 & _). rewrite E1, E2, E3. lia.
  - destruct (step_closed _ _ _ Hs) as (s & _ & _ & _ & E2 & E3 & _ & _ & Hif).
    rewrite E2, E3.
    destruct (Z.ltb_spec (reconnectAttempts m) (maxReconnectAttempts m));
      destruct Hif as (E1 & _); rewrite E1; lia.
Qed.

Lemma run_policy_ok (es : list event) :
  forall m m', policy_ok m -> run es m = Some m' -> policy_ok m'.
Proof.
  induction es as [|e es IH]; intros m m' Hm Hr; cbn [run] in Hr.
  - injection Hr as <-. exact Hm.
  - destruct (step e m) as [m1|] eqn:Hs; [|discriminate].
    eapply IH; [|exact Hr]. eapply step_policy_ok; eassumption.
Qed.

(** When time has passed, every reconnect that was due has been made. *)
Lemma websocket_advance_settles (t : Z) (m : Websocket.manager) :
  Timers.next_due t (Timers.pending (Websocket.loop (Websocket.advance t m))) = None.
Proof.
  apply (advance_settles Websocket.loop Websocket.set_loop Websocket.connect).
  - reflexivity.
  - intros u m'. rewrite connect_keeps_timers. lia.
Qed.

End Reconnect.

Section ReconnectClaims.
Import Websocket Shapes.

(** C2: along every sequence of events the counter stays between zero
    and [maxReconnectAttempts]; a close event below the bound adds one
    to the counter and schedules one retry, due [reconnectInterval]
    later; a close event at the bound schedules nothing; an open event
    sets the counter to zero and no other event lowers it. *)
Theorem reconnect_attempts_bounded (m0 m : manager) (es : list event) :
  0 <= reconnectAttempts m0 <= maxReconnectAttempts m0 ->
  0 <= reconnectInterval m0 ->
  run es m0 = Some m ->
  0 <= reconnectAttempts m <= maxReconnectAttempts m
  /\ (forall i m', step (Closed i) m = Some m' ->
        reconnectAttempts m < maxReconnectAttempts m ->
        reconnectAttempts m' = reconnectAttempts m + 1
        /\ exists s, sockets m !! i = Some s
             /\ Timers.pending (loop m')
                = Timers.pending (loop m)
                  ++ [{| Timers.handle := Timers.fresh (loop m);
                         Timers.due := Timers.clock (loop m) + reconnectInterval m;
                         Timers.callback := url s |}])
  /\ (forall i m', step (Closed i) m = Some m' ->
        reconnectAttempts m = maxReconnectAttempts m ->
        reconnectAttempts m' = reconnectAttempts m /\ loop m' = loop m)
  /\ (forall i m', step (Opened i) m = Some m' -> reconnectAttempts m' = 0)
  /\ (forall e m', step e m = Some m' -> (forall i, e <> Opened i) ->
        reconnectAttempts m <= reconnectAttempts m').
Proof.
  intros Ha Hi Hr.
  destruct (run_policy_ok es m0 m (conj Ha Hi) Hr) as (Ha' & Hi').
  split; [exact Ha'|]. split; [|split; [|split]].
  - intros i m' Hs Hlt.
    destruct (step_closed _ _ _ Hs) as (s & Hsock & _ & _ & _ & _ & _ & _ & Hif).
    destruct (Z.ltb_spec (reconnectAttempts m) (maxReconnectAttempts m)); [|lia].
    destruct Hif as (E1 & E2). split; [exact E1|].
    exists s. split; [exact Hsock|]. rewrite E2. cbn.
    rewrite Z.max_r by lia. reflexivity.
  - intros i m' Hs Heq.
    destruct (step_closed _ _ _ Hs) as (s & _ & _ & _ & _ & _ & _ & _ & Hif).
    destruct (Z.ltb_spec (reconnectAttempts m) (maxReconnectAttempts m)); [lia|].
    exact Hif.
  - intros i m' Hs. apply (step_opened _ _ _ Hs).
  - intros e m' Hs Hno.
    destruct e; try (destruct (step_other _ _ _ Hs ltac:(discriminate) ltac:(discriminate))
                      as (E1 & _); lia).
    + exfalso. exact (Hno i eq_refl).
    + destruct (step_closed _ _ _ Hs) as (s & _ & _ & _ & _ & _ & _ & _ & Hif).
      destruct (reconnectAttempts m <? maxReconnectAttempts m); destruct Hif as (E1 & _); lia.
Qed.

Lemma reconnect_attempts_bounded_witness :
  exists m,
    run [Connect "wss://feed"; Closed 0; Elapse 5000; Closed 1] init = Some m
    /\ 0 <= reconnectAttempts m <= maxReconnectAttempts m.
Proof.
  eexists. split; [reflexivity|].
  apply (reconnect_attempts_bounded init _
           [Connect "wss://feed"; Closed 0; Elapse 5000; Closed 1]);
    [cbn; lia | cbn; lia | reflexivity].
Defined.

(** After [connect], an open event and [disconnect()], the close event
    of the socket leaves a reconnect timer behind. *)
Example disconnect_then_close_schedules :
  exists m,
    run [Connect "wss://feed"; Opened 0; Disconnect; Closed 0] init = Some m
    /\ connection m = None
    /\ reconnectAttempts m = 1
    /\ Timers.pending (loop m)
       = [{| Timers.handle := 0; Timers.due := 5000; Timers.callback := "wss://feed" |}].
Proof. eexists. repeat split. Qed.

(** C1, as stated, fails: the close event that follows [disconnect()]
    schedules a reconnect. *)
Lemma disconnect_reconnects_counterexample :
  ~ (forall (es : list event) (m m' : manager) (i : nat),
        run es init = Some m -> connection m = Some i ->
        step (Closed i) (disconnect m) = Some m' ->
        Timers.pending (loop m') = Timers.pending (loop (disconnect m))).
Proof.
  intros H.
  specialize (H [Connect "wss://feed"; Opened 0] _ _ 0%nat eq_refl eq_refl eq_refl).
  discriminate H.
Qed.
End ReconnectClaims.

Section DisconnectClaims.
Import Websocket.

Lemma close_not_closed (s : socket) :
  state s <> CLOSED -> is_CLOSED (state (close s)) = false /\ url (close s) = url s.
Proof.
  unfold close. destruct s as [u []]; cbn; intros H; split;
    solve [reflexivity | exfalso; apply H; reflexivity].
Qed.

Lemma insert_after_alter (i : nat) (x : socket) (f : socket -> socket) (l : list socket) :
  <[i := x]> (alter f i l) = <[i := x]> l.
Proof.
  rewrite !list_insert_alter, list_alter_alter_eq.
  apply list_alter_ext; [intros; reflexivity | reflexivity].
Qed.

(** C1, amended: [disconnect()] closes the current socket (a socket
    that is connecting or open starts closing; no other socket is
    touched) and forgets it, calling no hook and scheduling or
    cancelling nothing itself; the close event that follows runs the
    same handler as a close by the peer: [onDisconnect] is called and,
    below the bound, the counter goes up by one and a reconnect is
    scheduled. *)
Theorem disconnect_then_close (m : manager) (i : nat) (s : socket) :
  connection m = Some i -> sockets m !! i = Some s -> state s <> CLOSED ->
  (sockets (disconnect m) = <[i := close s]> (sockets m)
   /\ (state s = CONNECTING \/ state s = OPEN ->
         sockets (disconnect m) !! i = Some {| url := url s; state := CLOSING |})
   /\ connection_open (disconnect m) = false)
  /\ loop (disconnect m) = loop m
  /\ hooks (disconnect m) = hooks m
  /\ reconnectAttempts (disconnect m) = reconnectAttempts m
  /\ connection (disconnect m) = None
  /\ exists m1 m2,
       step (Closed i) (disconnect m) = Some m1
       /\ step (Closed i) m = Some m2
       /\ reconnectAttempts m1 = reconnectAttempts m2
       /\ loop m1 = loop m2
       /\ hooks m1 = hooks m2
       /\ sockets m1 = sockets m2
       /\ hooks m1 = hooks m ++ [onDisconnect]
       /\ (reconnectAttempts m < maxReconnectAttempts m ->
             reconnectAttempts m1 = reconnectAttempts m + 1
             /\ Timers.pending (loop m1)
                = Timers.pending (loop m)
                  ++ [{| Timers.handle := Timers.fresh (loop m);
                         Timers.due := Timers.clock (loop m) + Z.max 0 (reconnectInterval m);
                         Timers.callback := url s |}]).
Proof.
  intros Hc Hs Hn.
  destruct (close_not_closed s Hn) as (Hcl & Hu).
  assert (Hn' : is_CLOSED (state s) = false) by (destruct (state s); cbn; congruence).
  assert (Hlt : (i < length (sockets m))%nat) by (eapply lookup_lt_Some; exact Hs).
  assert (Hsk : sockets (disconnect m) = <[i := close s]> (sockets m)).
  { unfold disconnect. rewrite Hc. cbn [sockets set_sockets].
    rewrite list_insert_alter. apply list_alter_ext; [|reflexivity].
    intros x Hx. rewrite Hs in Hx. injection Hx as <-. reflexivity. }
  split; [split; [exact Hsk | split]|].
  - intros Hst. rewrite Hsk, list_lookup_insert_eq by exact Hlt.
    unfold close, with_state. destruct Hst as [-> | ->]; reflexivity.
  - apply disconnect_not_open.
  - split; [apply disconnect_keeps_timers|].
    split; [unfold disconnect; rewrite Hc; reflexivity|].
    split; [unfold disconnect; rewrite Hc; reflexivity|].
    split; [unfold disconnect; rewrite Hc; reflexivity|].
    unfold disconnect. rewrite Hc. cbn [step sockets set_sockets].
    rewrite list_lookup_alter_eq, Hs. cbn [fmap option_fmap option_map].
    rewrite Hcl, Hn'. do 2 eexists.
    split; [reflexivity|]. split; [reflexivity|].
    rewrite insert_after_alter, Hu.
    unfold onclose, attemptReconnect, with_state. cbn. rewrite Hu.
    destruct (Z.ltb_spec (reconnectAttempts m) (maxReconnectAttempts m)); cbn;
      repeat split; lia.
Qed.

Lemma disconnect_then_close_witness :
  sockets
    (disconnect
       {| sockets := [{| url := "wss://feed"; state := OPEN |}];
          connection := Some 0%nat;
          reconnectAttempts := 0; maxReconnectAttempts := 5; reconnectInterval := 5000;
          loop := Timers.start 0; hooks := [onConnect]; sent := [] |})
  = [{| url := "wss://feed"; state := CLOSING |}]
  /\ exists m1,
       step (Closed 0)
         (disconnect
            {| sockets := [{| url := "wss://feed"; state := OPEN |}];
               connection := Some 0%nat;
               reconnectAttempts := 0; maxReconnectAttempts := 5; reconnectInterval := 5000;
               loop := Timers.start 0; hooks := [onConnect]; sent := [] |}) = Some m1
       /\ hooks m1 = [onConnect; onDisconnect]
       /\ reconnectAttempts m1 = 1
       /\ Timers.pending (loop m1)
          = [{| Timers.handle := 0; Timers.due := 5000; Timers.callback := "wss://feed" |}].
Proof.
  destruct (disconnect_then_close
              {| sockets := [{| url := "wss://feed"; state := OPEN |}];
                 connection := Some 0%nat;
                 reconnectAttempts := 0; maxReconnectAttempts := 5; reconnectInterval := 5000;
                 loop := Timers.start 0; hooks := [onConnect]; sent := [] |}
              0%nat {| url := "wss://feed"; state := OPEN |}
              eq_refl eq_refl ltac:(discriminate))
    as ((Hsk & _ & _) & _ & _ & _ & _ & m1 & m2 & H1 & _ & _ & _ & _ & _ & Hh & Hre).
  split; [exact Hsk|].
  exists m1. split; [exact H1|]. split; [exact Hh|].
  exact (Hre ltac:(cbn; lia)).
Defined.

(** A second [connect] while a reconnect is pending: the timer stays,
    and the close of the second socket adds another. *)
Example two_reconnect_timers :
  exists m1 m2,
    run [Connect "wss://feed"; Closed 0] init = Some m1
    /\ length (Timers.pending (loop m1)) = 1%nat
    /\ length (Timers.pending (loop (connect "wss://feed" m1))) = 1%nat
    /\ run [Connect "wss://feed"; Closed 0; Connect "wss://feed"; Closed 1] init = Some m2
    /\ length (Timers.pending (loop m2)) = 2%nat.
Proof. do 2 eexists. repeat split. Qed.

(** C3, as stated, fails on both counts: two reconnect timers can be
    pending at once, and [connect] does not cancel a pending one. *)
Lemma single_timer_counterexample :
  ~ (forall (es : list event) (m : manager),
        run es init = Some m -> (length (Timers.pending (loop m)) <= 1)%nat)
  /\ ~ (forall (es : list event) (m : manager) (u : string),
          run es init = Some m -> Timers.pending (loop m) <> [] ->
          Timers.pending (loop (connect u m)) = []).
Proof.
  split; intros H.
  - specialize (H [Connect "wss://feed"; Closed 0; Connect "wss://feed"; Closed 1] _ eq_refl).
    vm_compute in H. lia.
  - specialize (H [Connect "wss://feed"; Closed 0] _ "wss://feed" eq_refl ltac:(discriminate)).
    discriminate H.
Qed.

(** C3, amended: [connect] never touches the pending timers; when the
    current socket is not open it makes a new socket at once, which
    becomes the current one, and when it is open it does nothing. *)
Theorem connect_keeps_pending_timers (u : string) (m : manager) :
  loop (connect u m) = loop m
  /\ (connection_open m = false ->
        sockets (connect u m) = sockets m ++ [{| url := u; state := CONNECTING |}]
        /\ connection (connect u m) = Some (length (sockets m)))
  /\ (connection_open m = true -> connect u m = m).
Proof.
  split; [apply connect_keeps_timers|].
  unfold connect. split; intros ->; [split|]; reflexivity.
Qed.

Lemma connect_keeps_pending_timers_witness :
  sockets (connect "wss://feed" init) = [{| url := "wss://feed"; state := CONNECTING |}]
  /\ connection (connect "wss://feed" init) = Some 0%nat.
Proof.
  apply (proj1 (proj2 (connect_keeps_pending_timers "wss://feed" init))). reflexivity.
Defined.
End DisconnectClaims.

(** ** The cache: keys, overwriting, removal, clearing *)

Section CacheKeys.
Import Storage.

Lemma qp_inj (k k' : string) : qp k = qp k' -> k = k'.
Proof. unfold qp. cbn. intros [= E]. exact E. Qed.

Lemma qp_prefixed (k : string) : String.prefix "qp_" (qp k) = true.
Proof. unfold qp. destruct k; reflexivity. Qed.

(** X1: writing one key leaves every other key as it reads: the value
    [get] returns for [k'] is the same, and so is what [get] does to
    the store. *)
Theorem set_get_other (k k' : string) (v : json) (ttl : option Z) (now t : Z)
    (ls : gmap string item) :
  k <> k' ->
  get k' t (set k v ttl now ls)
  = (fst (get k' t ls), set k v ttl now (snd (get k' t ls))).
Proof.
  intros Hne. assert (Hq : qp k <> qp k') by (intros E; apply Hne, qp_inj, E).
  unfold get, set. rewrite lookup_insert_ne by exact Hq.
  destruct (ls !! qp k') as [[data|]|]; cbn; try reflexivity.
  destruct (expired t data); cbn; [|reflexivity].
  unfold remove. rewrite delete_insert_ne by (intros E; apply Hq; symmetry; exact E).
  reflexivity.
Qed.

Lemma set_get_other_witness :
  get "theme" 5 (set "banner" (JBool true) None 0 (set "theme" (JStr "dark") None 0 ∅))
  = (JStr "dark", set "banner" (JBool true) None 0 (set "theme" (JStr "dark") None 0 ∅)).
Proof.
  rewrite (set_get_other "banner" "theme" (JBool true) None 0 5
             (set "theme" (JStr "dark") None 0 ∅) ltac:(discriminate)).
  rewrite get_set_entry. reflexivity.
Defined.

(** X2: the last write wins: a second [set] on a key leaves nothing of the
    first, neither its value nor its expiry. *)
Theorem set_overwrites (k : string) (v1 v2 : json) (ttl1 ttl2 : option Z) (now1 now2 : Z)
    (ls : gmap string item) :
  set k v2 ttl2 now2 (set k v1 ttl1 now1 ls) = set k v2 ttl2 now2 ls
  /\ forall t, get k t (set k v2 ttl2 now2 (set k v1 ttl1 now1 ls))
               = get k t (set k v2 ttl2 now2 ls).
Proof.
  assert (E : set k v2 ttl2 now2 (set k v1 ttl1 now1 ls) = set k v2 ttl2 now2 ls).
  { unfold set. apply insert_insert_eq. }
  split; [exact E|]. intros t. rewrite E. reflexivity.
Qed.

(** X3: an entry written without an expiry, or with an expiry of zero, is
    served at every time and never evicted by a read. *)
Theorem no_expiry_never_expires (k : string) (v : json) (now t : Z) (ls : gmap string item) :
  get k t (set k v None now ls) = (v, set k v None now ls)
  /\ get k t (set k v (Some 0) now ls) = (v, set k v (Some 0) now ls).
Proof. split; rewrite get_set_entry; reflexivity. Qed.

(** X4: after [remove] the key reads as absent, whatever was stored; the
    read leaves the store alone and [remove] on a missing key does
    nothing. *)
Theorem remove_then_get (k : string) (t : Z) (ls : gmap string item) :
  get k t (remove k ls) = (JNull, remove k ls)
  /\ remove k (remove k ls) = remove k ls
  /\ (ls !! qp k = None -> remove k ls = ls).
Proof.
  unfold get, remove. rewrite lookup_delete_eq.
  split; [reflexivity|]. split.
  - apply delete_delete_eq.
  - apply delete_id.
Qed.

Lemma remove_then_get_witness : remove "banner" ∅ = ∅.
Proof.
  apply (proj2 (proj2 (remove_then_get "banner" 0 ∅))). apply lookup_empty.
Defined.

Lemma clear_lookup (ls : gmap string item) (key : string) :
  clear ls !! key = if String.prefix "qp_" key then None else ls !! key.
Proof.
  unfold clear. rewrite map_lookup_filter.
  destruct (ls !! key) as [x|]; cbn; [|destruct (String.prefix "qp_" key); reflexivity].
  destruct (String.prefix "qp_" key) eqn:E.
  - rewrite option_guard_False; [reflexivity | discriminate].
  - rewrite option_guard_True; reflexivity.
Qed.

(** X5: [clear] removes every key that starts with [qp_] and no other:
    afterwards every cache key reads as absent and every foreign key
    holds what it held. *)
Theorem clear_removes_namespace (ls : gmap string item) (key : string) :
  clear ls !! key = (if String.prefix "qp_" key then None else ls !! key)
  /\ forall k t, get k t (clear ls) = (JNull, clear ls).
Proof.
  split; [apply clear_lookup|].
  intros k t. unfold get. rewrite clear_lookup, qp_prefixed. reflexivity.
Qed.

(** X6: no cache operation touches a key outside the [qp_] namespace. *)
Theorem foreign_keys_untouched (key k : string) (v : json) (ttl : option Z) (now : Z)
    (ls : gmap string item) :
  String.prefix "qp_" key = false ->
  set k v ttl now ls !! key = ls !! key
  /\ snd (get k now ls) !! key = ls !! key
  /\ remove k ls !! key = ls !! key
  /\ clear ls !! key = ls !! key.
Proof.
  intros Hf.
  assert (Hne : qp k <> key).
  { intros <-. rewrite qp_prefixed in Hf. discriminate. }
  split; [unfold set; apply lookup_insert_ne, Hne|].
  split; [|split].
  - unfold get. destruct (ls !! qp k) as [[data|]|]; cbn; try reflexivity.
    destruct (expired now data); cbn; [|reflexivity].
    unfold remove. apply lookup_delete_ne, Hne.
  - unfold remove. apply lookup_delete_ne, Hne.
  - rewrite clear_lookup, Hf. reflexivity.
Qed.

Lemma foreign_keys_untouched_witness :
  clear (<["session" := Corrupt]> (set "banner" JNull None 0 ∅)) !! "session" = Some Corrupt.
Proof.
  rewrite (proj2 (proj2 (proj2
    (foreign_keys_untouched "session" "banner" JNull None 0
       (<["session" := Corrupt]> (set "banner" JNull None 0 ∅)) eq_refl)))).
  apply lookup_insert_eq.
Defined.

(** X7: a read changes the store at most by deleting the one key it read,
    and it deletes it exactly when it finds an expired entry there. *)
Theorem get_only_evicts (k : string) (t : Z) (ls : gmap string item) :
  (snd (get k t ls) = ls \/ snd (get k t ls) = delete (qp k) ls)
  /\ (forall data, ls !! qp k = Some (Parsed data) -> expired t data = true ->
        get k t ls = (JNull, delete (qp k) ls))
  /\ (ls !! qp k = Some Corrupt -> get k t ls = (JNull, ls)).
Proof.
  unfold get. split; [|split].
  - destruct (ls !! qp k) as [[data|]|]; cbn; auto.
    destruct (expired t data); cbn; auto.
  - intros data -> ->. reflexivity.
  - intros ->. reflexivity.
Qed.

Lemma get_only_evicts_witness :
  get "banner" 9 (<[qp "banner" := Corrupt]> ∅) = (JNull, <[qp "banner" := Corrupt]> ∅).
Proof.
  apply (proj2 (proj2 (get_only_evicts "banner" 9 (<[qp "banner" := Corrupt]> ∅)))).
  apply lookup_insert_eq.
Defined.
End CacheKeys.

(** ** Debounce on any sequence of calls *)

Section DebounceTraces.
Import Shapes Traces.
Variable wait : Z.
Hypothesis wait_nonneg : 0 <= wait.

Lemma armed_with_first (early : bool) (t : Z) (call : invocation) :
  0 <= t ->
  armed_with [] wait t (inv_args call)
    (Debounce.executedFunction wait call (Debounce.arrive early t (Debounce.init 0))).
Proof.
  intros Ht. destruct early.
  - unfold armed_with, Debounce.arrive, Timers.arrive, Timers.advance,
      Debounce.executedFunction, Debounce.set_loop, Timers.set_clock. cbn.
    rewrite !Z.max_r by lia.
    split; [reflexivity|]. split; [reflexivity|].
    eexists. split; reflexivity.
  - destruct (first_call_arms wait t call wait_nonneg Ht) as (Hc & Hclk & Hh).
    split; [exact Hc|]. split; [exact Hclk | exact Hh].
Qed.

(** A call that comes before the timer has run replaces the timer:
    a call made before the timer is due, or at the very moment it is
    due and ahead of it. *)
Lemma armed_with_early (cs : list (Z * invocation)) (early : bool) (t t' : Z)
    (args : list json) (call : invocation) (s : Debounce.state) :
  armed_with cs wait t args s -> t <= t' ->
  t' < t + wait \/ (t' = t + wait /\ early = true) ->
  armed_with cs wait t' (inv_args call)
    (Debounce.executedFunction wait call (Debounce.arrive early t' s)).
Proof.
  intros (Hc & Hclk & h & Hto & Hp) Ht Hcase.
  destruct s as [[clk fr pend] to cs0]. cbn in *. subst.
  unfold armed_with, Debounce.arrive, Timers.arrive, Debounce.advance, Timers.advance,
    Timers.next_due, Debounce.executedFunction, Debounce.set_loop, Timers.set_clock.
  destruct early; cbn.
  - destruct (Z.leb_spec (t + wait) (t' - 1)); [lia|]. cbn.
    rewrite Nat.eqb_refl. cbn.
    rewrite !Z.max_r by lia.
    split; [reflexivity|]. split; [reflexivity|].
    eexists. split; reflexivity.
  - destruct (Z.leb_spec (t + wait) t'); [lia|]. cbn.
    rewrite Nat.eqb_refl. cbn.
    rewrite !Z.max_r by lia.
    split; [reflexivity|]. split; [reflexivity|].
    eexists. split; reflexivity.
Qed.

(** A call that comes once the timer has run finds its call passed
    on. *)
Lemma armed_with_late (cs : list (Z * invocation)) (early : bool) (t t' : Z)
    (args : list json) (call : invocation) (s : Debounce.state) :
  armed_with cs wait t args s ->
  t + wait < t' \/ (t + wait = t' /\ early = false) ->
  armed_with (cs ++ [(t + wait, {| inv_this := NoReceiver; inv_args := args |})])
    wait t' (inv_args call)
    (Debounce.executedFunction wait call (Debounce.arrive early t' s)).
Proof.
  intros (Hc & Hclk & h & Hto & Hp) Hcase.
  destruct s as [[clk fr pend] to cs0]. cbn in *. subst.
  unfold armed_with, Debounce.arrive, Timers.arrive, Debounce.advance, Timers.advance,
    Timers.next_due, Debounce.executedFunction, Debounce.set_loop, Timers.set_clock,
    Debounce.later.
  destruct early; cbn.
  - destruct (Z.leb_spec (t + wait) (t' - 1)); [|lia]. cbn.
    rewrite Nat.eqb_refl. cbn.
    rewrite !Z.max_r by lia.
    split; [reflexivity|]. split; [reflexivity|].
    eexists. split; reflexivity.
  - destruct (Z.leb_spec (t + wait) t'); [|lia]. cbn.
    rewrite Nat.eqb_refl. cbn.
    rewrite !Z.max_r by lia.
    split; [reflexivity|]. split; [reflexivity|].
    eexists. split; reflexivity.
Qed.

Lemma armed_with_fires (cs : list (Z * invocation)) (t T : Z) (args : list json)
    (s : Debounce.state) :
  armed_with cs wait t args s -> t + wait <= T ->
  Debounce.calls (Debounce.advance T s)
  = cs ++ [(t + wait, {| inv_this := NoReceiver; inv_args := args |})].
Proof.
  intros (Hc & Hclk & h & Hto & Hp) HT.
  destruct s as [[clk fr pend] to cs0]. cbn in *. subst.
  unfold Debounce.advance, Timers.advance, Timers.next_due. cbn.
  destruct (Z.leb_spec (t + wait) T); [|lia]. cbn.
  rewrite Z.max_r by lia. reflexivity.
Qed.

Lemma debounced_from (rest : list (bool * (Z * invocation))) :
  forall (cs : list (Z * invocation)) (e : bool) (t T : Z) (call : invocation)
         (s : Debounce.state),
    armed_with cs wait t (inv_args call) s ->
    in_order t (List.map snd rest) ->
    last_time t (List.map snd rest) + wait <= T ->
    Debounce.calls (Debounce.advance T (Debounce.run wait rest s))
    = cs ++ debounced wait ((e, (t, call)) :: rest).
Proof.
  induction rest as [|[e' [t' call']] rest IH]; intros cs e t T call s Ha Ho HT.
  - cbn [Debounce.run debounced]. cbn [List.map last_time] in HT.
    apply armed_with_fires; assumption.
  - cbn [List.map snd] in Ho, HT. inversion Ho; subst.
    cbn [Debounce.run]. cbn [last_time] in HT.
    change (debounced wait ((e, (t, call)) :: (e', (t', call')) :: rest))
      with (if (t + wait <? t') || ((t + wait =? t') && negb e')
            then (t + wait, passed_on call) :: debounced wait ((e', (t', call')) :: rest)
            else debounced wait ((e', (t', call')) :: rest)).
    destruct ((t + wait <? t') || ((t + wait =? t') && negb e')) eqn:Hpass.
    + rewrite (IH (cs ++ [(t + wait, passed_on call)]) e' t' T call'); try assumption.
      * rewrite <- app_assoc. reflexivity.
      * apply armed_with_late; [assumption|].
        apply orb_true_iff in Hpass as [H|H].
        -- left. apply Z.ltb_lt in H. exact H.
        -- right. apply andb_true_iff in H as [Ha1 Ha2].
           apply Z.eqb_eq in Ha1. apply negb_true_iff in Ha2. split; assumption.
    + apply IH; try assumption.
      apply (armed_with_early cs e' t t' (inv_args call)); [assumption | assumption |].
      apply orb_false_iff in Hpass as [Hb1 Hb2]. apply Z.ltb_ge in Hb1.
      destruct (Z.eq_dec t' (t + wait)) as [E|E]; [|left; lia].
      right. split; [exact E|].
      rewrite E, Z.eqb_refl in Hb2. cbn in Hb2. apply negb_false_iff in Hb2. exact Hb2.
Qed.
End DebounceTraces.

Section DebounceTraceResults.
Import Shapes Traces.

(** X8: for calls made in time order, the debounced function passes on
    exactly the calls that the next call does not cancel: the last
    call, every call whose next call comes more than [wait] after it,
    and, of the calls whose next call comes exactly [wait] after them,
    those whose timer runs before that call.  Each is passed on [wait]
    after it was made, with its own arguments, in order. *)
Theorem debounce_passes_quiet_calls (wait t T : Z) (early : bool) (call : invocation)
    (rest : list (bool * (Z * invocation))) :
  0 <= wait -> 0 <= t -> in_order t (List.map snd rest) ->
  last_time t (List.map snd rest) + wait <= T ->
  Debounce.calls
    (Debounce.advance T (Debounce.run wait ((early, (t, call)) :: rest) (Debounce.init 0)))
  = debounced wait ((early, (t, call)) :: rest).
Proof.
  intros Hw Ht Ho HT. cbn [Debounce.run].
  apply (debounced_from wait Hw rest [] early t T call); try assumption.
  apply armed_with_first; assumption.
Qed.

Lemma debounce_passes_quiet_calls_witness :
  Debounce.calls
    (Debounce.advance 900
       (Debounce.run 100
          [(false, (0, typed 1)); (true, (100, typed 2)); (false, (200, typed 3));
           (false, (250, typed 4)); (true, (500, typed 5))]
          (Debounce.init 0)))
  = [(200, passed_on (typed 2)); (350, passed_on (typed 4)); (600, passed_on (typed 5))].
Proof.
  apply (debounce_passes_quiet_calls 100 0 900 false (typed 1)
           [(true, (100, typed 2)); (false, (200, typed 3));
            (false, (250, typed 4)); (true, (500, typed 5))]); try lia.
  - repeat (constructor; [lia|]). constructor.
  - cbn. lia.
Defined.

(** X9: any number of calls, each less than [wait] after the one before,
    end in a single call of the underlying function: [wait] after the
    last of them and with its arguments. *)
Theorem debounce_burst_fires_once (wait t T : Z) (call : invocation)
    (rest : list (Z * invocation)) :
  0 <= wait -> 0 <= t -> burst wait t rest ->
  (T < fst (last_call t (inv_args call) rest) + wait ->
     Debounce.calls
       (Debounce.advance T (Debounce.simulate wait ((t, call) :: rest) (Debounce.init 0)))
     = [])
  /\ (fst (last_call t (inv_args call) rest) + wait <= T ->
      Debounce.calls
        (Debounce.advance T (Debounce.simulate wait ((t, call) :: rest) (Debounce.init 0)))
      = [(fst (last_call t (inv_args call) rest) + wait,
          {| inv_this := NoReceiver; inv_args := snd (last_call t (inv_args call) rest) |})]).
Proof.
  intros Hw Ht Hb. cbn [Debounce.simulate].
  pose proof (burst_rearms wait rest t (inv_args call) _
                (first_call_arms wait t call Hw Ht) Hb) as Ha.
  split; intros HT.
  - exact (armed_waits wait _ T _ _ Ha HT).
  - exact (armed_fires wait _ T _ _ Hw Ha HT).
Qed.

Lemma debounce_burst_fires_once_witness :
  Debounce.calls
    (Debounce.advance 500
       (Debounce.simulate 100 [(0, typed 1); (60, typed 2); (120, typed 3)] (Debounce.init 0)))
  = [(220, {| inv_this := NoReceiver; inv_args := [JNum 3] |})].
Proof.
  apply (proj2 (debounce_burst_fires_once 100 0 500 (typed 1) [(60, typed 2); (120, typed 3)]
                  ltac:(lia) ltac:(lia)
                  ltac:(repeat (constructor; [lia|]); constructor))).
  cbn. lia.
Defined.
End DebounceTraceResults.

Section DebounceTimers.
Import Traces.

Lemma executedFunction_one_timer (wait : Z) (call : invocation) (s : Debounce.state) :
  at_most_one_timer s -> at_most_one_timer (Debounce.executedFunction wait call s).
Proof.
  destruct s as [[clk fr pend] to cs]. unfold at_most_one_timer. cbn.
  destruct pend as [|tm [|tm' rest]]; [| |intros []].
  - intros _. destruct to; reflexivity.
  - intros ->. cbn. rewrite Nat.eqb_refl. reflexivity.
Qed.

Lemma advance_one_timer (t : Z) (s : Debounce.state) :
  at_most_one_timer s -> at_most_one_timer (Debounce.advance t s).
Proof.
  destruct s as [[clk fr pend] to cs]. unfold at_most_one_timer. cbn.
  destruct pend as [|tm [|tm' rest]]; [| |intros []].
  - intros _. exact I.
  - intros ->. unfold Debounce.advance, Timers.advance, Timers.next_due. cbn.
    destruct (Timers.due tm <=? t); cbn.
    + rewrite Nat.eqb_refl. cbn. exact I.
    + reflexivity.
Qed.

(** X10: whatever the calls and their timing, a debounced wrapper never has
    more than one timer pending, and the pending one is the one it
    would clear on the next call. *)
Theorem debounce_one_timer (wait now T : Z) (inputs : list (Z * invocation)) :
  at_most_one_timer (Debounce.simulate wait inputs (Debounce.init now))
  /\ at_most_one_timer (Debounce.advance T (Debounce.simulate wait inputs (Debounce.init now)))
  /\ (length (Timers.pending
                (Debounce.loop (Debounce.simulate wait inputs (Debounce.init now)))) <= 1)%nat.
Proof.
  assert (G : forall l s, at_most_one_timer s -> at_most_one_timer (Debounce.simulate wait l s)).
  { induction l as [|[t c] l IH]; intros s Hs; [exact Hs|].
    cbn [Debounce.simulate]. apply IH, executedFunction_one_timer, advance_one_timer, Hs. }
  pose proof (G inputs (Debounce.init now) I) as H.
  split; [exact H|]. split; [apply advance_one_timer, H|].
  unfold at_most_one_timer in H.
  destruct (Timers.pending (Debounce.loop (Debounce.simulate wait inputs (Debounce.init now))))
    as [|tm [|tm' rest]]; cbn; [lia | lia | destruct H].
Qed.
End DebounceTimers.

(** ** Throttle on any sequence of calls *)

Section ThrottleTraces.
Import Traces.
Variable limit : Z.

Lemma spaced_snoc (l : list (Z * invocation)) (t : Z) (call : invocation) :
  spaced limit l -> last_before limit t l -> spaced limit (l ++ [(t, call)]).
Proof.
  induction l as [|[t0 c0] l IH]; intros Hs Hl; [exact I|].
  destruct l as [|[t1 c1] l].
  - cbn. split; [|exact I]. apply (Hl t0 c0). reflexivity.
  - destruct Hs as (Hgap & Hs). cbn [app spaced]. split; [exact Hgap|].
    apply IH; [exact Hs|]. intros t' c' E. apply (Hl t' c'). exact E.
Qed.

(** One call of the wrapper, whenever it comes: the wrapper stays in
    order, and the call is either passed on as it is or dropped. *)
Lemma throttle_step (t : Z) (call : invocation) (s : Throttle.state) :
  throttle_inv limit s ->
  throttle_inv limit (Throttle.wrapper limit call (Throttle.advance t s))
  /\ Timers.clock (Throttle.loop (Throttle.wrapper limit call (Throttle.advance t s)))
     = Z.max (Timers.clock (Throttle.loop s)) t
  /\ (Throttle.calls (Throttle.wrapper limit call (Throttle.advance t s)) = Throttle.calls s
      \/ Throttle.calls (Throttle.wrapper limit call (Throttle.advance t s))
         = Throttle.calls s ++ [(Z.max (Timers.clock (Throttle.loop s)) t, call)]).
Proof.
  intros (Hsp & [(Hin & Hp & Hl) | (Hin & h & t0 & c0 & Hlast & Hclk & Hp)]);
    destruct s as [[clk fr pend] inT cs]; cbn in *; subst.
  - unfold Throttle.advance, Timers.advance, Throttle.wrapper. cbn.
    split; [|split; [reflexivity | right; reflexivity]].
    split.
    + apply spaced_snoc; [exact Hsp|]. intros t' c' E. specialize (Hl t' c' E). lia.
    + right. split; [reflexivity|].
      exists fr, (Z.max clk t), call. cbn. rewrite last_snoc.
      split; [reflexivity|]. split; [lia | reflexivity].
  - unfold Throttle.advance, Timers.advance, Timers.next_due, Throttle.wrapper. cbn.
    destruct (Z.leb_spec (t0 + Z.max 0 limit) t) as [Hdue|Hnot]; cbn.
    + rewrite Nat.eqb_refl. cbn.
      split; [|split; [lia | right; f_equal; f_equal; f_equal; lia]].
      split.
      * apply spaced_snoc; [exact Hsp|]. intros t' c' E.
        rewrite Hlast in E. injection E as <- <-. lia.
      * right. split; [reflexivity|].
        eexists fr, _, call. cbn. rewrite last_snoc.
        split; [reflexivity|]. split; [lia | reflexivity].
    + split; [|split; [reflexivity | left; reflexivity]].
      split; [exact Hsp|]. right. split; [reflexivity|].
      exists h, t0, c0. cbn. split; [exact Hlast|]. split; [lia | reflexivity].
Qed.

Lemma init_throttle_inv (now : Z) : throttle_inv limit (Throttle.init now).
Proof.
  split; [exact I|]. left. split; [reflexivity|]. split; [reflexivity|].
  intros t c E. discriminate E.
Qed.

Lemma simulate_throttle_inv (inputs : list (Z * invocation)) :
  forall s, throttle_inv limit s -> throttle_inv limit (Throttle.simulate limit inputs s).
Proof.
  induction inputs as [|[t c] l IH]; intros s Hs; [exact Hs|].
  cbn [Throttle.simulate]. apply IH, throttle_step, Hs.
Qed.

(** The calls passed on during a run are calls of the run, in the
    order and at the times they were made. *)
Lemma simulate_only_drops (inputs : list (Z * invocation)) :
  forall s, throttle_inv limit s ->
    in_order (Timers.clock (Throttle.loop s)) inputs ->
    exists passed,
      Throttle.calls (Throttle.simulate limit inputs s) = Throttle.calls s ++ passed
      /\ passed `sublist_of` inputs.
Proof.
  induction inputs as [|[t c] l IH]; intros s Hs Ho.
  - exists []. split; [symmetry; apply app_nil_r | constructor].
  - inversion Ho; subst. cbn [Throttle.simulate].
    destruct (throttle_step t c s Hs) as (Hs' & Hclk & Hcalls).
    destruct (IH _ Hs') as (passed & E & Hsub).
    { rewrite Hclk, Z.max_r by assumption. assumption. }
    rewrite E. destruct Hcalls as [-> | ->].
    + exists passed. split; [reflexivity|]. apply sublist_cons, Hsub.
    + exists ((t, c) :: passed). rewrite Z.max_r by assumption.
      split; [rewrite <- app_assoc; reflexivity|]. apply sublist_skip, Hsub.
Qed.
End ThrottleTraces.

Section ThrottleTraceResults.
Import Shapes Traces.

(** X11: whatever the calls and their timing, any two calls that the
    throttled wrapper passes on one after the other are at least [limit]
    apart. *)
Theorem throttle_rate_bound (limit now : Z) (inputs : list (Z * invocation)) :
  spaced limit (Throttle.calls (Throttle.simulate limit inputs (Throttle.init now))).
Proof.
  apply (simulate_throttle_inv limit inputs (Throttle.init now) (init_throttle_inv limit now)).
Qed.

(** X12: for calls in time order the throttled wrapper only drops: what it
    passes on are calls of the run, unchanged, in order and at the times
    they were made; nothing is passed on late. The first call of a run
    is always passed on. *)
Theorem throttle_only_drops (limit now : Z) (inputs : list (Z * invocation)) :
  in_order now inputs ->
  Throttle.calls (Throttle.simulate limit inputs (Throttle.init now)) `sublist_of` inputs
  /\ head (Throttle.calls (Throttle.simulate limit inputs (Throttle.init now))) = head inputs.
Proof.
  intros Ho.
  destruct (simulate_only_drops limit inputs (Throttle.init now)
              (init_throttle_inv limit now) Ho) as (passed & E & Hsub).
  split; [rewrite E; exact Hsub|].
  destruct inputs as [|[t c] rest]; [reflexivity|].
  inversion Ho; subst. cbn [Throttle.simulate].
  destruct (throttle_step limit t c (Throttle.init now) (init_throttle_inv limit now))
    as (Hs' & Hclk & _).
  destruct (simulate_only_drops limit rest _ Hs') as (passed' & E' & _).
  { rewrite Hclk. cbn. rewrite Z.max_r by assumption. assumption. }
  rewrite E'. cbn. rewrite Z.max_r by assumption. reflexivity.
Qed.

Lemma throttle_only_drops_witness :
  head (Throttle.calls
          (Throttle.simulate 10 [(3, typed 1); (5, typed 2); (20, typed 3)] (Throttle.init 0)))
  = Some (3, typed 1).
Proof.
  apply (proj2 (throttle_only_drops 10 0 [(3, typed 1); (5, typed 2); (20, typed 3)]
                  ltac:(repeat (constructor; [lia|]); constructor))).
Defined.
End ThrottleTraceResults.

(** ** The connection manager: hooks, sending, retries *)

Section ManagerTraces.
Import Websocket Traces.

Lemma advance_keeps_hooks (t : Z) (m : manager) :
  hooks (advance t m) = hooks m /\ sent (advance t m) = sent m.
Proof.
  unfold advance.
  apply (advance_keeps loop set_loop connect
           (fun s => hooks s = hooks m /\ sent s = sent m)).
  - intros l s H. exact H.
  - intros u s H. unfold connect. destruct (connection_open s); exact H.
  - split; reflexivity.
Qed.

Lemma step_hooks (e : event) (m m' : manager) :
  step e m = Some m' -> hooks m' = hooks m ++ hook_of e.
Proof.
  destruct e; cbn [step hook_of]; intros H.
  - injection H as <-. unfold connect. destruct (connection_open m); cbn;
      rewrite app_nil_r; reflexivity.
  - injection H as <-. unfold disconnect. destruct (connection m); cbn;
      rewrite app_nil_r; reflexivity.
  - injection H as <-. unfold send. destruct (connection m); [destruct (connection_open m)|];
      cbn; rewrite app_nil_r; reflexivity.
  - destruct (step_opened _ _ _ H) as (_ & _ & _ & _ & E). exact E.
  - destruct (sockets m !! i) as [s|]; [|discriminate].
    destruct (is_OPEN (state s)); [|discriminate].
    injection H as <-. destruct data; cbn; [reflexivity | rewrite app_nil_r; reflexivity].
  - destruct (step_closed _ _ _ H) as (s & _ & _ & E & _). exact E.
  - destruct (Timers.clock (loop m) <=? t); [|discriminate].
    injection H as <-. rewrite (proj1 (advance_keeps_hooks t m)), app_nil_r. reflexivity.
Qed.

(** X13: the hooks are called once per event and in the order of the
    events: [onConnect] for every open, [onDisconnect] for every close,
    [onMessage] for every frame that parses; a frame that does not
    parse, a call of the application or the passing of time calls no
    hook. *)
Theorem hooks_follow_events (es : list event) (m0 m : manager) :
  run es m0 = Some m -> hooks m = hooks m0 ++ flat_map hook_of es.
Proof.
  revert m0. induction es as [|e es IH]; intros m0 Hr; cbn [run] in Hr.
  - injection Hr as <-. cbn. rewrite app_nil_r. reflexivity.
  - destruct (step e m0) as [m1|] eqn:Hs; [|discriminate].
    rewrite (IH m1 Hr), (step_hooks e m0 m1 Hs). cbn [flat_map].
    rewrite <- app_assoc. reflexivity.
Qed.

Lemma hooks_follow_events_witness :
  exists m,
    run [Connect "wss://feed"; Opened 0; Frame 0 None; Frame 0 (Some (JNum 1)); Closed 0] init
    = Some m
    /\ hooks m = [onConnect; onMessage (JNum 1); onDisconnect].
Proof.
  eexists. split; [reflexivity|].
  apply (hooks_follow_events
           [Connect "wss://feed"; Opened 0; Frame 0 None; Frame 0 (Some (JNum 1)); Closed 0]
           init).
  reflexivity.
Defined.




(** X15: while the current socket is open neither [connect] nor a reconnect
    timer that comes due replaces it: the sockets and the current
    connection stay as they are. *)
Theorem open_socket_is_kept (u : string) (t : Z) (m : manager) :
  connection_open m = true ->
  connect u m = m
  /\ sockets (advance t m) = sockets m
  /\ connection (advance t m) = connection m.
Proof.
  intros Ho. split; [unfold connect; rewrite Ho; reflexivity|].
  assert (H : sockets (advance t m) = sockets m /\ connection (advance t m) = connection m).
  { unfold advance.
    apply (advance_keeps loop set_loop connect
             (fun s => sockets s = sockets m /\ connection s = connection m)).
    - intros l s H. exact H.
    - intros u' s (Hs & Hc).
      assert (Hos : connection_open s = true).
      { unfold connection_open in *. rewrite Hs, Hc. exact Ho. }
      unfold connect. rewrite Hos. split; assumption.
    - split; reflexivity. }
  exact H.
Qed.

Lemma open_socket_is_kept_witness :
  connect "wss://other"
    {| sockets := [{| url := "wss://feed"; state := OPEN |}]; connection := Some 0%nat;
       reconnectAttempts := 1; maxReconnectAttempts := 5; reconnectInterval := 5000;
       loop := snd (Timers.setTimeout "wss://feed" 5000 (Timers.start 0));
       hooks := []; sent := [] |}
  = {| sockets := [{| url := "wss://feed"; state := OPEN |}]; connection := Some 0%nat;
       reconnectAttempts := 1; maxReconnectAttempts := 5; reconnectInterval := 5000;
       loop := snd (Timers.setTimeout "wss://feed" 5000 (Timers.start 0));
       hooks := []; sent := [] |}.
Proof.
  apply (proj1 (open_socket_is_kept "wss://other" 6000
    {| sockets := [{| url := "wss://feed"; state := OPEN |}]; connection := Some 0%nat;
       reconnectAttempts := 1; maxReconnectAttempts := 5; reconnectInterval := 5000;
       loop := snd (Timers.setTimeout "wss://feed" 5000 (Timers.start 0));
       hooks := []; sent := [] |} eq_refl)).
Defined.
End ManagerTraces.

Section RetryBudget.
Import Websocket Traces.
Variables (u : string) (n d : Z) (hs : list hook) (i0 : nat) (t0 : Z).
Hypothesis interval_nonneg : 0 <= d.

Lemma repeat_snoc {A : Type} (x : A) (j : nat) : repeat x j ++ [x] = repeat x (S j).
Proof. induction j as [|j IH]; cbn; [reflexivity|]. rewrite IH. reflexivity. Qed.

(** One refused connection while retries are left: the socket closes,
    the interval passes, the timer makes the next socket. *)
Lemma retry_cycle (j : nat) (m : manager) :
  retrying u n d hs i0 t0 j m -> Z.of_nat j < n ->
  exists m',
    run [Closed (i0 + j); Elapse (t0 + Z.of_nat j * d + d)] m = Some m'
    /\ retrying u n d hs i0 t0 (S j) m'.
Proof.
  intros (Ha & Hn & Hd & Hp & Hclk & Hh & Hc & pre & Hlen & Hs) Hlt.
  destruct m as [ss c a mx iv [clk fr pend] hk st]. cbn in *. subst.
  rewrite (list_lookup_middle pre [] _ (i0 + j)) by (symmetry; exact Hlen). cbn.
  rewrite insert_app_r_alt by lia. rewrite Hlen, Nat.sub_diag. cbn.
  unfold onclose, attemptReconnect. cbn.
  destruct (Z.ltb_spec (Z.of_nat j) n) as [_|Hbad]; [|exfalso; lia]. cbn.
  rewrite (Z.max_r 0 d) by exact interval_nonneg.
  destruct (Z.leb_spec (t0 + Z.of_nat j * d) (t0 + Z.of_nat j * d + d)) as [_|Hbad]; [|exfalso; lia].
  eexists. split; [reflexivity|].
  unfold advance, Timers.advance, Timers.next_due. cbn.
  destruct (Z.leb_spec (t0 + Z.of_nat j * d + d) (t0 + Z.of_nat j * d + d)) as [_|Hbad]; [|exfalso; lia].
  cbv [connect connection_open Timers.take Timers.drop Timers.set_clock
       set_loop set_attempts call_hook set_sockets with_state
       sockets connection reconnectAttempts maxReconnectAttempts reconnectInterval
       loop hooks sent Timers.clock Timers.fresh Timers.pending Timers.handle
       Timers.due Timers.callback url state List.filter].
  rewrite Nat.eqb_refl. cbn.
  rewrite (list_lookup_middle pre [] _ (i0 + j)) by (symmetry; exact Hlen). cbn.
  unfold retrying. cbn.
  split; [lia|]. split; [reflexivity|]. split; [reflexivity|]. split; [reflexivity|].
  split; [lia|]. split; [rewrite <- app_assoc, repeat_snoc; reflexivity|].
  split; [rewrite length_app; cbn; f_equal; lia|].
  eexists. split; [|reflexivity]. rewrite length_app. cbn. lia.
Qed.

Lemma refusals_run (k : nat) :
  forall (j : nat) (m : manager),
    retrying u n d hs i0 t0 j m -> Z.of_nat j + Z.of_nat k <= n ->
    exists m',
      run (refusals k (i0 + j) (t0 + Z.of_nat j * d) d) m = Some m'
      /\ retrying u n d hs i0 t0 (j + k) m'.
Proof.
  induction k as [|k IH]; intros j m Hr Hle.
  - exists m. split; [reflexivity|]. rewrite Nat.add_0_r. exact Hr.
  - destruct (retry_cycle j m Hr ltac:(lia)) as (m1 & Hrun & Hr1).
    destruct (IH (S j) m1 Hr1 ltac:(lia)) as (m2 & Hrun2 & Hr2).
    exists m2. split.
    + cbn [refusals run] in *.
      destruct (step (Closed (i0 + j)) m) as [ma|]; [|discriminate].
      destruct (step (Elapse (t0 + Z.of_nat j * d + d)) ma) as [mb|]; [|discriminate].
      injection Hrun as ->.
      replace (S (i0 + j)) with (i0 + S j)%nat by lia.
      replace (t0 + Z.of_nat j * d + d) with (t0 + Z.of_nat (S j) * d) by lia.
      exact Hrun2.
    + replace (j + S k)%nat with (S j + k)%nat by lia. exact Hr2.
Qed.

(** The close that finds the budget used up schedules nothing. *)
Lemma last_refusal (j : nat) (m : manager) :
  retrying u n d hs i0 t0 j m -> n = Z.of_nat j ->
  exists m',
    step (Closed (i0 + j)) m = Some m'
    /\ hooks m' = hs ++ repeat onDisconnect (S j)
    /\ length (sockets m') = S (i0 + j)
    /\ reconnectAttempts m' = n
    /\ Timers.pending (loop m') = []
    /\ connection_open m' = false.
Proof.
  intros (Ha & Hn & Hd & Hp & Hclk & Hh & Hc & pre & Hlen & Hs) Hj.
  destruct m as [ss c a mx iv [clk fr pend] hk st]. cbn in *. subst.
  rewrite (list_lookup_middle pre [] _ (i0 + j)) by (symmetry; exact Hlen). cbn.
  rewrite insert_app_r_alt by lia. rewrite Hlen, Nat.sub_diag. cbn.
  unfold onclose, attemptReconnect. cbn.
  destruct (Z.ltb_spec (Z.of_nat j) (Z.of_nat j)) as [Hbad|_]; [exfalso; lia|].
  eexists. split; [reflexivity|]. cbn.
  split; [rewrite <- app_assoc, repeat_snoc; reflexivity|].
  split; [rewrite length_app; cbn; lia|].
  split; [reflexivity|]. split; [reflexivity|].
  unfold connection_open. cbn.
  rewrite (list_lookup_middle pre [] _ (i0 + j)) by (symmetry; exact Hlen). reflexivity.
Qed.
End RetryBudget.

Section RetryBudgetResults.
Import Websocket Traces.

Lemma run_app (l1 l2 : list event) (m : manager) :
  run (l1 ++ l2) m = match run l1 m with Some m' => run l2 m' | None => None end.
Proof.
  revert m. induction l1 as [|e l1 IH]; intros m; cbn [run app]; [reflexivity|].
  destruct (step e m); [apply IH | reflexivity].
Qed.

Lemma advance_no_timer (t : Z) (m : manager) :
  Timers.pending (loop m) = [] -> advance t m = set_loop (Timers.set_clock t (loop m)) m.
Proof. intros Hp. unfold advance, Timers.advance. rewrite Hp. reflexivity. Qed.

(** X16: an endpoint that refuses every connection sees the first attempt
    and [maxReconnectAttempts] retries, one every [reconnectInterval].
    Each refusal calls [onDisconnect]; after the last one the counter
    is at its bound, no timer is pending and no socket is made however
    long one waits. *)
Theorem retries_exhausted (k : nat) (d : Z) (u : string) (m0 : manager) :
  reconnectAttempts m0 = 0 ->
  maxReconnectAttempts m0 = Z.of_nat k ->
  reconnectInterval m0 = d ->
  0 <= d ->
  Timers.pending (loop m0) = [] ->
  connection_open m0 = false ->
  exists m,
    run (Connect u
           :: refusals k (length (sockets m0)) (Timers.clock (loop m0)) d
           ++ [Closed (length (sockets m0) + k)]) m0 = Some m
    /\ hooks m = hooks m0 ++ repeat onDisconnect (S k)
    /\ length (sockets m) = (length (sockets m0) + S k)%nat
    /\ reconnectAttempts m = Z.of_nat k
    /\ Timers.pending (loop m) = []
    /\ forall T, sockets (advance T m) = sockets m.
Proof.
  intros Ha Hn Hd Hd0 Hp Ho.
  assert (Hr : retrying u (Z.of_nat k) d (hooks m0) (length (sockets m0))
                 (Timers.clock (loop m0)) 0 (connect u m0)).
  { unfold connect. rewrite Ho. unfold retrying. cbn.
    rewrite Ha, Hn, Hd, Hp, app_nil_r, Nat.add_0_r.
    repeat (split; [reflexivity || lia|]).
    exists (sockets m0). split; reflexivity. }
  destruct (refusals_run u (Z.of_nat k) d (hooks m0) (length (sockets m0))
              (Timers.clock (loop m0)) Hd0 k 0 _ Hr ltac:(lia)) as (m1 & Hrun & Hr1).
  rewrite Nat.add_0_r in Hrun.
  replace (Timers.clock (loop m0) + Z.of_nat 0 * d) with (Timers.clock (loop m0)) in Hrun
    by lia.
  cbn [Nat.add] in Hr1.
  destruct (last_refusal u (Z.of_nat k) d (hooks m0) (length (sockets m0))
              (Timers.clock (loop m0)) k m1 Hr1 eq_refl)
    as (m2 & Hstep & Hh & Hlen & Hatt & Hpend & _).
  exists m2. split.
  - cbn [run step]. rewrite run_app, Hrun. cbn [run]. rewrite Hstep. reflexivity.
  - split; [exact Hh|]. split; [rewrite Hlen; lia|]. split; [exact Hatt|].
    split; [exact Hpend|]. intros T. rewrite advance_no_timer by exact Hpend. reflexivity.
Qed.

Lemma retries_exhausted_witness :
  exists m,
    run (Connect "wss://feed" :: refusals 5 0 0 5000 ++ [Closed 5]) init = Some m
    /\ hooks m = repeat onDisconnect 6
    /\ length (sockets m) = 6%nat.
Proof.
  destruct (retries_exhausted 5 5000 "wss://feed" init
              eq_refl eq_refl eq_refl ltac:(lia) eq_refl eq_refl)
    as (m & Hrun & Hh & Hlen & _).
  exists m. split; [exact Hrun|]. split; [exact Hh | exact Hlen].
Defined.
End RetryBudgetResults.

(** ** The request helper: method, body and headers *)

Section RequestOptions.
Import ApiConfig.
Local Open Scope string_scope.

Lemma config_lookup (csrf : option (option string)) (options : gmap string optval)
    (key : string) :
  config csrf options !! key
  = match options !! key with
    | Some v => Some v
    | None => defaultOptions csrf !! key
    end.
Proof.
  unfold config. rewrite lookup_union.
  destruct (options !! key), (defaultOptions csrf !! key); reflexivity.
Qed.

(** X17: the four convenience calls resolve the endpoint like [request],
    set their own method, send the serialised data as body ([post],
    [put]) or no body ([get], [delete]), and always carry the default
    headers: the JSON content type and, when the page has a CSRF meta
    element, its token. *)
Theorem convenience_calls (base endpoint : string) (csrf : option (option string))
    (data : option json) :
  let headers := Some (OHeaders (default_headers csrf)) in
  (fst (get base csrf endpoint) = Api.request_url base endpoint
   /\ snd (get base csrf endpoint) !! "method" = Some (OStr "GET")
   /\ snd (get base csrf endpoint) !! "body" = None
   /\ snd (get base csrf endpoint) !! "headers" = headers)
  /\ (fst (post base csrf endpoint data) = Api.request_url base endpoint
      /\ snd (post base csrf endpoint data) !! "method" = Some (OStr "POST")
      /\ snd (post base csrf endpoint data) !! "body" = Some (stringify data)
      /\ snd (post base csrf endpoint data) !! "headers" = headers)
  /\ (fst (put base csrf endpoint data) = Api.request_url base endpoint
      /\ snd (put base csrf endpoint data) !! "method" = Some (OStr "PUT")
      /\ snd (put base csrf endpoint data) !! "body" = Some (stringify data)
      /\ snd (put base csrf endpoint data) !! "headers" = headers)
  /\ (fst (delete base csrf endpoint) = Api.request_url base endpoint
      /\ snd (delete base csrf endpoint) !! "method" = Some (OStr "DELETE")
      /\ snd (delete base csrf endpoint) !! "body" = None
      /\ snd (delete base csrf endpoint) !! "headers" = headers).
Proof.
  cbv zeta. unfold get, post, put, delete, request. cbn [fst snd].
  repeat split; rewrite config_lookup; reflexivity.
Qed.

(** The headers sent: the token is there exactly when the page has the
    meta element, with the value of its [content] attribute. *)
Theorem default_headers_token (csrf : option (option string)) :
  default_headers csrf !! "Content-Type" = Some (Some "application/json")
  /\ default_headers csrf !! "X-CSRFToken" = csrf.
Proof.
  destruct csrf as [content|]; split; reflexivity.
Qed.

(** X18: the options are merged one level deep: a caller that passes its own
    [headers] replaces the default ones as a whole, so neither the JSON
    content type nor the CSRF token is sent unless the caller's headers
    hold them; every other option of the caller is handed on and every
    default it leaves out is kept. *)
Theorem caller_headers_replace_defaults (base endpoint : string) (csrf : option (option string))
    (options : gmap string optval) (h : gmap string (option string)) :
  options !! "headers" = Some (OHeaders h) ->
  snd (request base csrf endpoint options) !! "headers" = Some (OHeaders h)
  /\ (forall key v, options !! key = Some v ->
        snd (request base csrf endpoint options) !! key = Some v)
  /\ (forall key, options !! key = None ->
        snd (request base csrf endpoint options) !! key = defaultOptions csrf !! key).
Proof.
  intros Hh. unfold request. cbn [snd].
  split; [rewrite config_lookup, Hh; reflexivity|].
  split; intros key.
  - intros v Hv. rewrite config_lookup, Hv. reflexivity.
  - intros Hn. rewrite config_lookup, Hn. reflexivity.
Qed.

Lemma caller_headers_replace_defaults_witness :
  snd (request "/api/v1" (Some (Some "tok")) "/alerts"
         {["headers" := OHeaders {["Accept" := Some "text/csv"]}]}) !! "headers"
  = Some (OHeaders {["Accept" := Some "text/csv"]}).
Proof.
  refine (proj1 (caller_headers_replace_defaults "/api/v1" "/alerts" (Some (Some "tok"))
                   {["headers" := OHeaders {["Accept" := Some "text/csv"]}]}
                   {["Accept" := Some "text/csv"]} _)).
  apply lookup_singleton_eq.
Defined.
End RequestOptions.

(** ** Merging chart options *)

Section DeepMerge.
Import Charts.

Lemma lookup_assign_eq (k : string) (v : value) (fs : list (string * value)) :
  lookup k (assign k v fs) = Some v.
Proof.
  induction fs as [|[k0 x] fs IH]; cbn.
  - rewrite String.eqb_refl. reflexivity.
  - destruct (String.eqb_spec k0 k) as [->|Hne]; cbn.
    + rewrite String.eqb_refl. reflexivity.
    + destruct (String.eqb_spec k0 k); [contradiction | exact IH].
Qed.

Lemma lookup_assign_ne (k k' : string) (v : value) (fs : list (string * value)) :
  k <> k' -> lookup k' (assign k v fs) = lookup k' fs.
Proof.
  intros Hne. induction fs as [|[k0 x] fs IH]; cbn.
  - destruct (String.eqb_spec k k'); [contradiction | reflexivity].
  - destruct (String.eqb_spec k0 k) as [->|H0]; cbn.
    + destruct (String.eqb_spec k k'); [contradiction | reflexivity].
    + destruct (String.eqb_spec k0 k'); [reflexivity | exact IH].
Qed.

Lemma assign_same (k : string) (v : value) (fs : list (string * value)) :
  lookup k fs = Some v -> assign k v fs = fs.
Proof.
  induction fs as [|[k0 x] fs IH]; cbn; [discriminate|].
  destruct (String.eqb_spec k0 k) as [->|H0].
  - intros [= ->]. reflexivity.
  - intros H. rewrite (IH H). reflexivity.
Qed.

Lemma lookup_absent (k : string) (fs : list (string * value)) :
  k ∉ List.map fst fs -> lookup k fs = None.
Proof.
  induction fs as [|[k0 x] fs IH]; cbn [List.map fst lookup]; [reflexivity|].
  intros Hn. apply not_elem_of_cons in Hn as [Hne Hn].
  destruct (String.eqb_spec k0 k) as [->|H0]; [contradiction | exact (IH Hn)].
Qed.

(** With an object as source, the merge goes through the properties
    of the source one by one. *)
Lemma merge_object (target : value) (fields : list (string * value)) :
  merge target (VObj fields) = fold_left merge_property fields (spread target).
Proof.
  cbn [merge]. generalize (spread target).
  induction fields as [|[k v] fields IH]; intros result; [reflexivity|].
  cbn [fold_left]. rewrite <- IH. reflexivity.
Qed.

Lemma deepMerge_object (target : value) (fields : list (string * value)) :
  deepMerge target (VObj fields)
  = match lookup "hasOwnProperty" fields with
    | Some (VFun _) => Escapes
    | Some _ => Throws
    | None => merge_loop fields (spread target)
    end.
Proof.
  cbn [deepMerge]. destruct (lookup "hasOwnProperty" fields) as [v|]; [reflexivity|].
  generalize (spread target).
  induction fields as [|[k v] fields IH]; intros result; [reflexivity|].
  cbn [merge_loop]. unfold merge_step. cbn [fst snd].
  destruct (inherited_proto k result).
  - destruct v; try reflexivity; try (rewrite <- IH; reflexivity).
    destruct (deepMerge (VObj []) (VObj fields0)); reflexivity.
  - destruct v; try (rewrite <- IH; reflexivity).
    destruct (deepMerge (or_empty (lookup k result)) (VObj fields0)) as [nested| |];
      try reflexivity.
    rewrite <- IH. reflexivity.
Qed.

Lemma lookup_fold_merge (k : string) (fields : list (string * value)) :
  forall result,
    NoDup (List.map fst fields) ->
    lookup k (fold_left merge_property fields result)
    = match lookup k fields with
      | Some v => Some (merged v (lookup k result))
      | None => lookup k result
      end.
Proof.
  induction fields as [|[k0 v0] fields IH]; intros result Hnd; [reflexivity|].
  cbn [List.map fst] in Hnd. apply NoDup_cons in Hnd as [Hnotin Hnd].
  cbn [fold_left lookup]. rewrite (IH _ Hnd). unfold merge_property. cbn [fst snd].
  destruct (String.eqb_spec k0 k) as [->|Hne].
  - rewrite (lookup_absent k fields Hnotin), lookup_assign_eq. reflexivity.
  - rewrite (lookup_assign_ne k0 k) by exact Hne. reflexivity.
Qed.

Lemma value_nested_ind (P : value -> Prop) :
  P VUndefined -> P VNull -> (forall b, P (VBool b)) -> (forall n, P (VNum n)) ->
  (forall s, P (VStr s)) -> (forall f, P (VFun f)) -> (forall items, P (VArr items)) ->
  (forall fields, Forall (fun kv => P (snd kv)) fields -> P (VObj fields)) ->
  forall v, P v.
Proof.
  intros Hu Hn Hb Hz Hs Hf Ha Ho.
  fix IH 1. intros [| | b | n | s | f | items | fields];
    [exact Hu | exact Hn | apply Hb | apply Hz | apply Hs | apply Hf | apply Ha |].
  apply Ho. induction fields as [|[k x] fields IHf]; constructor; [apply IH | exact IHf].
Qed.

Lemma plain_fields (fields : list (string * value)) :
  plain (VObj fields) ->
  lookup "hasOwnProperty" fields = None
  /\ (forall k x, In (k, x) fields -> k <> "__proto__"%string)
  /\ (forall k fs, In (k, VObj fs) fields -> plain (VObj fs)).
Proof.
  intros (Hh & Hp & Hall). split; [exact Hh|]. clear Hh.
  induction fields as [|[k0 x0] fields IH]; [split; intros ? ? []|].
  cbn [lookup] in Hp. destruct (String.eqb_spec k0 "__proto__") as [->|Hk]; [discriminate|].
  destruct Hall as [Hx Hall]. destruct (IH Hp Hall) as [IH1 IH2]. split.
  - intros k x [[= <- <-]|Hin]; [exact Hk | exact (IH1 k x Hin)].
  - intros k fs [[= <- ->]|Hin]; [exact Hx | exact (IH2 k fs Hin)].
Qed.

(** On a plain source [deepMerge] returns, and [merge] is what it
    returns. *)
Lemma deepMerge_plain (source : value) :
  forall target fields,
    source = VObj fields -> plain source ->
    deepMerge target source = Merged (merge target source).
Proof.
  induction source as [| | b | n | s | f | items | fields IH] using value_nested_ind;
    intros target fields' E Hp; try discriminate E.
  clear E. destruct (plain_fields fields Hp) as (Hh & Hk & Hsub).
  rewrite deepMerge_object, merge_object, Hh.
  clear Hh Hp. generalize (spread target).
  induction fields as [|[k v] fields IHf]; intros result; [reflexivity|].
  apply Forall_cons in IH as [IHv IH]. cbn [snd] in IHv.
  cbn [merge_loop fold_left]. unfold merge_step, merge_property. cbn [fst snd].
  unfold inherited_proto.
  destruct (String.eqb_spec k "__proto__") as [->|_].
  { exfalso. exact (Hk _ _ (or_introl eq_refl) eq_refl). }
  cbn [andb].
  assert (Hrest : merge_loop fields (assign k (merged v (lookup k result)) result)
                  = Merged (fold_left merge_property fields
                              (assign k (merged v (lookup k result)) result))).
  { apply IHf; [exact IH | |].
    - intros k' x Hin. exact (Hk k' x (or_intror Hin)).
    - intros k' fs Hin. exact (Hsub k' fs (or_intror Hin)). }
  destruct v; try exact Hrest.
  rewrite (IHv (or_empty (lookup k result)) fields0 eq_refl
             (Hsub k fields0 (or_introl eq_refl))).
  exact Hrest.
Qed.

Lemma lookup_In (k : string) (v : value) (fields : list (string * value)) :
  lookup k fields = Some v -> In (k, v) fields.
Proof.
  induction fields as [|[k0 x0] fields IH]; cbn [lookup]; [discriminate|].
  destruct (String.eqb_spec k0 k) as [->|_].
  - intros [= ->]. left. reflexivity.
  - intros H. right. exact (IH H).
Qed.
End DeepMerge.

Section DeepMergeResults.
Import Charts.

(** A source with an own property named [hasOwnProperty] that is not a
    function: [source.hasOwnProperty(key)] throws, at any depth. *)
Example deepMerge_shadowed :
  deepMerge (VObj [("a", VNum 0)]) (VObj [("a", VNum 1); ("hasOwnProperty", VNum 1)]) = Throws
  /\ deepMerge (VObj []) (VObj [("scales", VObj [("hasOwnProperty", VNull)])]) = Throws
  /\ deepMerge (VObj []) (VObj [("hasOwnProperty", VFun "own")]) = Escapes
  /\ deepMerge (VObj []) (VObj [("__proto__", VObj [("polluted", VBool true)])]) = Escapes
  /\ deepMerge (VObj []) (VObj [("__proto__", VNum 5); ("a", VNum 1)])
     = Merged [("a", VNum 1)]
  /\ deepMerge (VObj [("__proto__", VNum 0)]) (VObj [("__proto__", VNum 5)])
     = Merged [("__proto__", VNum 5)].
Proof. repeat split. Qed.

(** X19: for a source in which no object has an own property named
    [hasOwnProperty] or [__proto__], the merge returns, and read by key
    the merged options are: the default where the caller gives nothing
    under the key; the caller's value where it is not a plain object (a
    number, a string, [null], a function, an array: arrays are
    replaced, not merged); and, for a plain object, the merge of the
    default under that key, or of [{}] when the default is missing or
    falsy, with the caller's object. *)
Theorem deepMerge_by_key (target : value) (fields : list (string * value)) (k : string) :
  plain (VObj fields) -> NoDup (List.map fst fields) ->
  exists result,
    deepMerge target (VObj fields) = Merged result
    /\ (lookup k fields = None -> lookup k result = lookup k (spread target))
    /\ (forall v, lookup k fields = Some v -> (forall fs, v <> VObj fs) ->
          lookup k result = Some v)
    /\ (forall fs, lookup k fields = Some (VObj fs) ->
          exists nested,
            deepMerge (or_empty (lookup k (spread target))) (VObj fs) = Merged nested
            /\ lookup k result = Some (VObj nested)).
Proof.
  intros Hp Hnd. exists (merge target (VObj fields)).
  split; [apply (deepMerge_plain _ target fields eq_refl Hp)|].
  rewrite merge_object, (lookup_fold_merge k fields _ Hnd).
  split; [intros ->; reflexivity|]. split.
  - intros v -> Hv. destruct v; try reflexivity. exfalso. exact (Hv fields0 eq_refl).
  - intros fs Hl. exists (merge (or_empty (lookup k (spread target))) (VObj fs)). split.
    + apply (deepMerge_plain _ _ fs eq_refl).
      destruct (plain_fields fields Hp) as (_ & _ & Hsub).
      apply (Hsub k fs), lookup_In, Hl.
    + rewrite Hl. reflexivity.
Qed.

Lemma deepMerge_by_key_witness :
  exists result nested,
    deepMerge (VObj [("y", VObj [("min", VNum 0); ("ticks", VFun "callback")])])
      (VObj [("y", VObj [("min", VNum 5)])]) = Merged result
    /\ deepMerge (VObj [("min", VNum 0); ("ticks", VFun "callback")]) (VObj [("min", VNum 5)])
       = Merged nested
    /\ lookup "y" result = Some (VObj nested).
Proof.
  destruct (deepMerge_by_key
              (VObj [("y", VObj [("min", VNum 0); ("ticks", VFun "callback")])])
              [("y", VObj [("min", VNum 5)])] "y"
              ltac:(cbn; repeat split)
              ltac:(repeat constructor; intros H; inversion H))
    as (result & Hr & _ & _ & Hn).
  destruct (Hn [("min", VNum 5)] eq_refl) as (nested & Hd & Hl).
  exists result, nested. split; [exact Hr|]. split; [exact Hd | exact Hl].
Defined.

(** X20: on such a source, merging never loses a key: the merged
    options have a property exactly where the defaults or the caller's
    options have one. *)
Theorem deepMerge_keeps_keys (target : value) (fields : list (string * value)) (k : string) :
  plain (VObj fields) -> NoDup (List.map fst fields) ->
  exists result,
    deepMerge target (VObj fields) = Merged result
    /\ (is_Some (lookup k result)
        <-> is_Some (lookup k (spread target)) \/ is_Some (lookup k fields)).
Proof.
  intros Hp Hnd. exists (merge target (VObj fields)).
  split; [apply (deepMerge_plain _ target fields eq_refl Hp)|].
  rewrite merge_object, (lookup_fold_merge k fields _ Hnd).
  destruct (lookup k fields) as [v|].
  - split; [intros _; right; eexists; reflexivity | intros _; eexists; reflexivity].
  - split; [intros H; left; exact H | intros [H|[x Hx]]; [exact H | discriminate Hx]].
Qed.

Lemma deepMerge_keeps_keys_witness :
  exists result,
    deepMerge (VObj [("type", VStr "line")]) (VObj [("data", VArr [])]) = Merged result
    /\ is_Some (lookup "type" result).
Proof.
  destruct (deepMerge_keeps_keys (VObj [("type", VStr "line")]) [("data", VArr [])] "type"
              ltac:(cbn; repeat split)
              ltac:(repeat constructor; intros H; inversion H))
    as (result & Hr & Hk).
  exists result. split; [exact Hr|].
  apply Hk. left. eexists. reflexivity.
Defined.

Lemma well_formed_fields (fields : list (string * value)) :
  well_formed (VObj fields) ->
  NoDup (List.map fst fields) /\ forall k x, In (k, x) fields -> well_formed x.
Proof.
  intros [Hnd Hall]. split; [exact Hnd|]. clear Hnd.
  induction fields as [|[k0 x0] fields IH]; intros k x Hin; [destruct Hin|].
  destruct Hall as [Hx Hall]. destruct Hin as [[= <- <-]|Hin]; [exact Hx|].
  exact (IH Hall k x Hin).
Qed.

Lemma lookup_member (k : string) (x : value) (fields : list (string * value)) :
  NoDup (List.map fst fields) -> In (k, x) fields -> lookup k fields = Some x.
Proof.
  induction fields as [|[k0 x0] fields IH]; intros Hnd Hin; [destruct Hin|].
  cbn [List.map fst] in Hnd. apply NoDup_cons in Hnd as [Hnotin Hnd]. cbn [lookup].
  destruct Hin as [[= -> ->]|Hin].
  - rewrite String.eqb_refl. reflexivity.
  - destruct (String.eqb_spec k0 k) as [->|_]; [|exact (IH Hnd Hin)].
    exfalso. apply Hnotin. apply list_elem_of_In. apply (in_map fst) in Hin. exact Hin.
Qed.

Lemma fold_fixed (fields : list (string * value)) (result : list (string * value)) :
  (forall kv, In kv fields -> merge_property result kv = result) ->
  fold_left merge_property fields result = result.
Proof.
  induction fields as [|kv fields IH]; intros H; [reflexivity|].
  cbn [fold_left]. rewrite (H kv (or_introl eq_refl)).
  apply IH. intros kv' Hin. apply H. right. exact Hin.
Qed.

Lemma merged_twice (v : value) :
  well_formed v -> forall old, merged v (Some (merged v old)) = merged v old.
Proof.
  induction v as [| | b | n | s | f | items | fields IH] using value_nested_ind;
    intros Hwf old; try reflexivity.
  destruct (well_formed_fields fields Hwf) as [Hnd Hsub].
  cbn [merged or_empty truthy]. f_equal.
  rewrite !merge_object. cbn [spread].
  apply fold_fixed. intros [k x] Hin.
  unfold merge_property. cbn [fst snd].
  rewrite (lookup_fold_merge k fields _ Hnd), (lookup_member k x fields Hnd Hin).
  rewrite Forall_forall in IH.
  assert (Hin' : (k, x) ∈ fields) by (apply list_elem_of_In; exact Hin).
  rewrite (IH (k, x) Hin' (Hsub k x Hin)).
  apply assign_same.
  rewrite (lookup_fold_merge k fields _ Hnd), (lookup_member k x fields Hnd Hin).
  reflexivity.
Qed.

Lemma merge_twice (target : value) (fields : list (string * value)) :
  well_formed (VObj fields) ->
  merge (VObj (merge target (VObj fields))) (VObj fields) = merge target (VObj fields).
Proof.
  intros Hwf.
  pose proof (merged_twice (VObj fields) Hwf (Some (VObj (spread target)))) as H.
  change (VObj (merge (VObj (merge (VObj (spread target)) (VObj fields))) (VObj fields))
          = VObj (merge (VObj (spread target)) (VObj fields))) in H.
  rewrite !merge_object in H. rewrite !merge_object.
  cbn [spread] in H. cbn [spread]. congruence.
Qed.

(** X21: on such a source, with distinct property names in every
    object, merging the same options a second time changes nothing. *)
Theorem deepMerge_idempotent (target : value) (fields : list (string * value)) :
  plain (VObj fields) -> well_formed (VObj fields) ->
  exists result,
    deepMerge target (VObj fields) = Merged result
    /\ deepMerge (VObj result) (VObj fields) = Merged result.
Proof.
  intros Hp Hwf. exists (merge target (VObj fields)).
  split; [apply (deepMerge_plain _ target fields eq_refl Hp)|].
  rewrite (deepMerge_plain _ _ fields eq_refl Hp). f_equal.
  apply merge_twice, Hwf.
Qed.

Lemma deepMerge_idempotent_witness :
  exists result,
    deepMerge (VObj [("type", VStr "line")])
      (VObj [("options", VObj [("responsive", VBool false)])]) = Merged result
    /\ deepMerge (VObj result) (VObj [("options", VObj [("responsive", VBool false)])])
       = Merged result.
Proof.
  apply (deepMerge_idempotent (VObj [("type", VStr "line")])
           [("options", VObj [("responsive", VBool false)])]).
  - cbn. repeat split.
  - cbn. repeat split; repeat constructor; intros H; inversion H.
Defined.
End DeepMergeResults.

(** ** Regular expressions: the matcher and the language *)

Section RegexFacts.
Import Email.

Lemma append_cons (c : ascii) (s t : string) :
  String.append (String c s) t = String c (String.append s t).
Proof. reflexivity. Qed.

Lemma append_nil_l (t : string) : String.append EmptyString t = t.
Proof. reflexivity. Qed.

Lemma append_empty (a b : string) :
  String.append a b = EmptyString -> a = EmptyString /\ b = EmptyString.
Proof.
  destruct a as [|c a]; [rewrite append_nil_l; intros ->; split; reflexivity|].
  rewrite append_cons. discriminate.
Qed.

Lemma lang_seq_inv (a b : regex) (s : string) :
  lang (Seq a b) s -> exists s1 s2, s = String.append s1 s2 /\ lang a s1 /\ lang b s2.
Proof. intros H. inversion H; subst. eauto. Qed.

Lemma lang_alt_inv (a b : regex) (s : string) : lang (Alt a b) s -> lang a s \/ lang b s.
Proof. intros H. inversion H; subst; auto. Qed.

Lemma lang_class_inv (p : ascii -> bool) (s : string) :
  lang (Class p) s -> exists c, s = String c EmptyString /\ p c = true.
Proof. intros H. inversion H; subst. eauto. Qed.

Lemma nullable_lang (r : regex) : nullable r = true <-> lang r EmptyString.
Proof.
  induction r as [| | p | a IHa b IHb | a IHa b IHb | a IHa]; cbn.
  - split; [discriminate | intros H; inversion H].
  - split; [intros _; constructor | reflexivity].
  - split; [discriminate | intros H; inversion H].
  - rewrite andb_true_iff, IHa, IHb. split.
    + intros [Ha Hb]. exact (lang_seq a b _ _ Ha Hb).
    + intros H. apply lang_seq_inv in H as (s1 & s2 & E & H1 & H2).
      symmetry in E. apply append_empty in E as [-> ->]. split; assumption.
  - rewrite orb_true_iff, IHa, IHb. split.
    + intros [H|H]; [apply lang_alt_l | apply lang_alt_r]; exact H.
    + apply lang_alt_inv.
  - split; [intros _; constructor | reflexivity].
Qed.

Lemma deriv_sound (c : ascii) (r : regex) :
  forall s, lang (deriv c r) s -> lang r (String c s).
Proof.
  induction r as [| | p | a IHa b IHb | a IHa b IHb | a IHa]; cbn; intros s H.
  - inversion H.
  - inversion H.
  - destruct (p c) eqn:E; inversion H; subst. constructor. exact E.
  - destruct (nullable a) eqn:N.
    + apply lang_alt_inv in H as [H|H].
      * apply lang_seq_inv in H as (s1 & s2 & -> & Ha & Hb).
        exact (lang_seq a b (String c s1) s2 (IHa _ Ha) Hb).
      * apply nullable_lang in N.
        exact (lang_seq a b EmptyString (String c s) N (IHb _ H)).
    + apply lang_seq_inv in H as (s1 & s2 & -> & Ha & Hb).
      exact (lang_seq a b (String c s1) s2 (IHa _ Ha) Hb).
  - apply lang_alt_inv in H as [H|H]; [apply lang_alt_l, IHa | apply lang_alt_r, IHb];
      assumption.
  - apply lang_seq_inv in H as (s1 & s2 & -> & Ha & Hb).
    exact (lang_star_app a (String c s1) s2 (IHa _ Ha) Hb).
Qed.

Lemma deriv_complete (c : ascii) (r : regex) (s0 : string) :
  lang r s0 -> forall s, s0 = String c s -> lang (deriv c r) s.
Proof.
  induction 1 as [| p c' Hp | a b s1 s2 Ha IHa Hb IHb | a b s' Ha IHa | a b s' Hb IHb
                  | a | a s1 s2 Ha IHa Hs IHs]; intros s E; cbn.
  - discriminate.
  - injection E as -> <-. rewrite Hp. constructor.
  - destruct s1 as [|c1 s1]; [rewrite append_nil_l in E | rewrite append_cons in E].
    + subst s2. apply nullable_lang in Ha. rewrite Ha.
      apply lang_alt_r, IHb. reflexivity.
    + injection E as -> <-.
      destruct (nullable a); [apply lang_alt_l|]; apply lang_seq; try assumption;
        apply IHa; reflexivity.
  - apply lang_alt_l, IHa, E.
  - apply lang_alt_r, IHb, E.
  - discriminate.
  - destruct s1 as [|c1 s1]; [rewrite append_nil_l in E | rewrite append_cons in E].
    + apply IHs. exact E.
    + injection E as -> <-. apply lang_seq; [apply IHa; reflexivity | exact Hs].
Qed.

Lemma test_lang (s : string) : forall r, test r s = true <-> lang r s.
Proof.
  induction s as [|c s IH]; intros r; cbn [test].
  - apply nullable_lang.
  - rewrite IH. split; [apply deriv_sound | intros H; exact (deriv_complete c r _ H s eq_refl)].
Qed.
End RegexFacts.

(** ** isValidEmail *)

Section EmailFacts.
Import Email.

Lemma star_atoms (s : string) : lang (Star (Class atom)) s <-> all_atoms s = true.
Proof.
  split.
  - intros H. remember (Star (Class atom)) as r eqn:Er.
    induction H as [| | | | | a | a s1 s2 Ha _ Hs IHs]; try discriminate; [reflexivity|].
    injection Er as ->.
    apply lang_class_inv in Ha as (c & -> & Hc).
    rewrite append_cons, append_nil_l. cbn [all_atoms]. rewrite Hc, IHs; reflexivity.
  - induction s as [|c s IH]; intros H; [constructor|].
    cbn [all_atoms] in H. apply andb_true_iff in H as [Hc Hs].
    exact (lang_star_app (Class atom) (String c EmptyString) s
             (lang_class atom c Hc) (IH Hs)).
Qed.

Lemma plus_atoms (s : string) : lang (Plus (Class atom)) s <-> part s.
Proof.
  unfold Plus, part. split.
  - intros H. apply lang_seq_inv in H as (s1 & s2 & -> & H1 & H2).
    apply lang_class_inv in H1 as (c & -> & Hc). apply star_atoms in H2.
    rewrite append_cons, append_nil_l. split; [discriminate|].
    cbn [all_atoms]. rewrite Hc, H2. reflexivity.
  - intros [Hne Ha]. destruct s as [|c s]; [contradiction|].
    cbn [all_atoms] in Ha. apply andb_true_iff in Ha as [Hc Hs].
    exact (lang_seq (Class atom) (Star (Class atom)) (String c EmptyString) s
             (lang_class atom c Hc) (proj2 (star_atoms s) Hs)).
Qed.

Lemma count_append (p : ascii -> bool) (a b : string) :
  count p (String.append a b) = (count p a + count p b)%nat.
Proof.
  induction a as [|c a IH]; [reflexivity|].
  rewrite append_cons. cbn [count]. rewrite IH. lia.
Qed.

Lemma length_append (a b : string) :
  String.length (String.append a b) = (String.length a + String.length b)%nat.
Proof.
  induction a as [|c a IH]; [reflexivity|].
  rewrite append_cons. cbn [String.length]. rewrite IH. reflexivity.
Qed.

Lemma atoms_count (s : string) :
  all_atoms s = true -> count is_at s = 0%nat /\ count is_space s = 0%nat.
Proof.
  induction s as [|c s IH]; [split; reflexivity|].
  cbn [all_atoms count]. intros H. apply andb_true_iff in H as [Hc Hs].
  destruct (IH Hs) as [-> ->]. unfold atom in Hc.
  apply andb_true_iff in Hc as [H1 H2].
  apply negb_true_iff in H1, H2. rewrite H1, H2. split; reflexivity.
Qed.

Lemma email_shape (email : string) :
  isValidEmail email = true
  <-> exists l d t,
        email = String.append l (String "@" (String.append d (String "." t)))
        /\ part l /\ part d /\ part t.
Proof.
  unfold isValidEmail. rewrite test_lang. unfold emailRegex. split.
  - intros H.
    apply lang_seq_inv in H as (l & r1 & -> & Hl & H).
    apply lang_seq_inv in H as (a & r2 & -> & Hat & H).
    apply lang_seq_inv in H as (d & r3 & -> & Hd & H).
    apply lang_seq_inv in H as (dot & t & -> & Hdot & Ht).
    apply lang_class_inv in Hat as (c1 & -> & Hc1).
    apply lang_class_inv in Hdot as (c2 & -> & Hc2).
    apply Ascii.eqb_eq in Hc1, Hc2. subst c1 c2.
    exists l, d, t. rewrite !append_cons, !append_nil_l.
    split; [reflexivity|]. rewrite <- !plus_atoms. repeat split; assumption.
  - intros (l & d & t & -> & Hl & Hd & Ht).
    apply plus_atoms in Hl, Hd, Ht.
    apply lang_seq; [exact Hl|].
    apply (lang_seq (Class is_at) _ (String "@" EmptyString)); [constructor; reflexivity|].
    apply lang_seq; [exact Hd|].
    apply (lang_seq (Class is_dot) _ (String "." EmptyString)); [constructor; reflexivity|].
    exact Ht.
Qed.

(** X22: an address is accepted exactly when it reads [local@domain.tld],
    each of the three parts being a non-empty run of characters other
    than white space and [@]; dots are allowed inside the parts. *)
Theorem isValidEmail_shape (email : string) :
  isValidEmail email = true
  <-> exists l d t,
        email = String.append l (String "@" (String.append d (String "." t)))
        /\ part l /\ part d /\ part t.
Proof. exact (email_shape email). Qed.

Lemma isValidEmail_shape_witness : isValidEmail "a.b@c.d.e" = true.
Proof.
  apply (proj2 (isValidEmail_shape "a.b@c.d.e")).
  exists "a.b"%string, "c.d"%string, "e"%string.
  split; [reflexivity|]. repeat split; discriminate.
Defined.

(** X23: an accepted address holds exactly one [@] and no white space, and
    it has at least five characters. *)
Theorem isValidEmail_one_at (email : string) :
  isValidEmail email = true ->
  count is_at email = 1%nat
  /\ count is_space email = 0%nat
  /\ (5 <= String.length email)%nat.
Proof.
  intros H. apply email_shape in H as (l & d & t & -> & [Hl Al] & [Hd Ad] & [Ht At]).
  destruct (atoms_count l Al) as [L1 L2].
  destruct (atoms_count d Ad) as [D1 D2].
  destruct (atoms_count t At) as [T1 T2].
  split; [|split].
  - rewrite count_append. cbn [count]. rewrite count_append. cbn [count].
    rewrite L1, D1, T1. reflexivity.
  - rewrite count_append. cbn [count]. rewrite count_append. cbn [count].
    rewrite L2, D2, T2. reflexivity.
  - destruct l as [|? l]; [contradiction|]. destruct d as [|? d]; [contradiction|].
    destruct t as [|? t]; [contradiction|].
    rewrite !append_cons. cbn [String.length].
    rewrite length_append. cbn [String.length].
    rewrite length_append. cbn [String.length]. lia.
Qed.

Lemma isValidEmail_one_at_witness : count is_at "trader@quantpulse.io" = 1%nat.
Proof.
  apply (proj1 (isValidEmail_one_at "trader@quantpulse.io" eq_refl)).
Defined.

End EmailFacts.

(** ** Toasts: timers and the container *)

Section ToastTimers.
Import Toast.

Lemma earliest_least (ts : list (Timers.timer task)) (x : Timers.timer task) :
  Timers.earliest ts = Some x -> forall y, In y ts -> Timers.due x <= Timers.due y.
Proof.
  revert x. induction ts as [|a rest IH]; intros x E y Hy; [destruct Hy|].
  cbn [Timers.earliest] in E. destruct (Timers.earliest rest) as [z|] eqn:Ez.
  - specialize (IH z eq_refl).
    destruct (Z.ltb_spec (Timers.due z) (Timers.due a)); injection E as <-;
      destruct Hy as [<-|Hy]; try lia; specialize (IH y Hy); lia.
  - injection E as <-. destruct Hy as [<-|Hy]; [lia|].
    destruct rest; [destruct Hy|]. cbn in Ez. destruct (Timers.earliest rest); [|discriminate].
    destruct (_ <? _); discriminate.
Qed.

Lemma next_due_spec (t : Z) (ts : list (Timers.timer task)) (x : Timers.timer task) :
  Timers.next_due t ts = Some x ->
  In x ts /\ Timers.due x <= t /\ forall y, In y ts -> Timers.due x <= Timers.due y.
Proof.
  intros H. split; [exact (next_due_In t ts x H)|].
  unfold Timers.next_due in H. destruct (Timers.earliest ts) as [z|] eqn:E; [|discriminate].
  destruct (Z.leb_spec (Timers.due z) t); [|discriminate]. injection H as <-.
  split; [assumption | exact (earliest_least ts z E)].
Qed.

Lemma next_due_none (t : Z) (ts : list (Timers.timer task)) :
  Timers.next_due t ts = None -> forall y, In y ts -> t < Timers.due y.
Proof.
  intros H y Hy. unfold Timers.next_due in H.
  destruct (Timers.earliest ts) as [z|] eqn:E.
  - destruct (Z.leb_spec (Timers.due z) t); [discriminate|].
    pose proof (earliest_least ts z E y Hy). lia.
  - destruct ts; [destruct Hy|]. cbn in E. destruct (Timers.earliest ts); [|discriminate].
    destruct (_ <? _); discriminate.
Qed.

Lemma In_drop (h : nat) (ts : list (Timers.timer task)) (y : Timers.timer task) :
  In y (Timers.drop h ts) <-> In y ts /\ Timers.handle y <> h.
Proof.
  unfold Timers.drop. rewrite filter_In, negb_true_iff, Nat.eqb_neq. reflexivity.
Qed.

Lemma total_app (a b : list (Timers.timer task)) : total (a ++ b) = (total a + total b)%nat.
Proof. induction a as [|x a IH]; cbn [total app]; [reflexivity | rewrite IH; lia]. Qed.

Lemma total_bound (ts : list (Timers.timer task)) : (total ts <= 2 * length ts)%nat.
Proof.
  induction ts as [|x ts IH]; cbn [total length]; [lia|].
  unfold weight. destruct (Timers.callback x); lia.
Qed.

Lemma total_drop_le (h : nat) (ts : list (Timers.timer task)) :
  (total (Timers.drop h ts) <= total ts)%nat.
Proof.
  induction ts as [|y ts IH]; cbn [Timers.drop List.filter total]; [lia|].
  unfold Timers.drop in IH.
  destruct (negb (Nat.eqb (Timers.handle y) h)); cbn [total]; lia.
Qed.

Lemma total_drop (x : Timers.timer task) (ts : list (Timers.timer task)) :
  In x ts -> (total (Timers.drop (Timers.handle x) ts) + weight x <= total ts)%nat.
Proof.
  induction ts as [|y ts IH]; intros Hin; [destruct Hin|].
  cbn [Timers.drop List.filter total].
  destruct Hin as [->|Hin].
  - rewrite Nat.eqb_refl. cbn [negb].
    pose proof (total_drop_le (Timers.handle x) ts). unfold Timers.drop in *. lia.
  - specialize (IH Hin). unfold Timers.drop in IH.
    destruct (negb (Nat.eqb (Timers.handle y) (Timers.handle x))); cbn [total]; lia.
Qed.

(** Every callback that runs brings the work left down. *)
Lemma fire_total (tm : Timers.timer task) (p : page) :
  In tm (Timers.pending (loop p)) ->
  (total (Timers.pending (loop (fire tm p))) < total (Timers.pending (loop p)))%nat.
Proof.
  intros Hin. pose proof (total_drop tm _ Hin) as H.
  unfold fire, weight in *. destruct (Timers.callback tm); cbn; [lia | | lia].
  rewrite total_app. cbn. lia.
Qed.

Lemma run_settles (t : Z) (fuel : nat) :
  forall p,
    (total (Timers.pending (loop p)) <= fuel)%nat ->
    Timers.next_due t
      (Timers.pending (loop (Timers.run_due loop set_loop exec fuel t p))) = None.
Proof.
  induction fuel as [|n IH]; intros p Hle; cbn [Timers.run_due].
  - destruct (Timers.pending (loop p)) as [|x ts]; [reflexivity|].
    cbn [total] in Hle. unfold weight in Hle. destruct (Timers.callback x); lia.
  - destruct (Timers.next_due t (Timers.pending (loop p))) as [tm|] eqn:E; [|exact E].
    apply IH. pose proof (fire_total tm p (next_due_In _ _ _ E)) as H.
    unfold fire in H. lia.
Qed.

(** After [advance t] no timer due by [t] is left. *)
Lemma toast_advance_settles (t : Z) (p : page) :
  forall tm, In tm (Timers.pending (loop (advance t p))) -> t < Timers.due tm.
Proof.
  unfold advance. cbn. apply next_due_none, run_settles, total_bound.
Qed.
End ToastTimers.

Section ToastLifecycle.
Import Toast.
Variables (id : nat) (t : Z).

Lemma children_exec_other (k : task) (p : page) :
  task_id k <> id \/ (forall i, k <> Detach i) ->
  In id (children p) -> In id (children (exec k p)).
Proof.
  intros Hk Hin. destruct k as [i|i|i]; try exact Hin.
  unfold children in *. cbn. destruct (container p) as [ids|]; [|exact Hin].
  apply filter_In. split; [exact Hin|]. apply negb_true_iff, Nat.eqb_neq.
  destruct Hk as [Hk|Hk]; [cbn in Hk; congruence | exfalso; exact (Hk i eq_refl)].
Qed.

(** A callback that runs by [t] leaves the toast in the container, as
    long as no pending timer can take it out by [t]. *)
Lemma fire_kept (tm : Timers.timer task) (p : page) :
  Timers.next_due t (Timers.pending (loop p)) = Some tm ->
  In id (children p) ->
  Forall (kept_until id t) (Timers.pending (loop p)) ->
  In id (children (fire tm p))
  /\ Forall (kept_until id t) (Timers.pending (loop (fire tm p))).
Proof.
  intros E Hin Hall. destruct (next_due_spec t _ tm E) as (Htm & Hdue & _).
  pose proof (proj1 (List.Forall_forall _ _) Hall tm Htm) as Hk.
  assert (Hdrop : Forall (kept_until id t)
                    (Timers.drop (Timers.handle tm) (Timers.pending (loop p)))).
  { apply List.Forall_forall. intros y Hy. apply In_drop in Hy as [Hy _].
    exact (proj1 (List.Forall_forall _ _) Hall y Hy). }
  unfold fire, kept_until in *. destruct (Timers.callback tm) as [i|i|i] eqn:Ek; cbn.
  - split; [exact Hin | exact Hdrop].
  - split; [exact Hin|]. apply Forall_app. split; [exact Hdrop|].
    constructor; [|constructor]. cbn. intros ->. specialize (Hk eq_refl). lia.
  - split; [|exact Hdrop].
    apply (children_exec_other (Detach i) (set_loop (Timers.take tm (loop p)) p)); [|exact Hin].
    left. cbn. intros ->. specialize (Hk eq_refl). lia.
Qed.

Lemma run_kept (fuel : nat) :
  forall p,
    In id (children p) ->
    Forall (kept_until id t) (Timers.pending (loop p)) ->
    In id (children (Timers.run_due loop set_loop exec fuel t p)).
Proof.
  induction fuel as [|n IH]; intros p Hin Hall; cbn [Timers.run_due]; [exact Hin|].
  destruct (Timers.next_due t (Timers.pending (loop p))) as [tm|] eqn:E; [|exact Hin].
  destruct (fire_kept tm p E Hin Hall) as (Hin' & Hall').
  exact (IH _ Hin' Hall').
Qed.

Lemma NoDup_drop (h : nat) (ts : list (Timers.timer task)) :
  NoDup (List.map Timers.handle ts) -> NoDup (List.map Timers.handle (Timers.drop h ts)).
Proof.
  induction ts as [|y ts IH]; intros Hnd; [constructor|].
  cbn [List.map] in Hnd. apply NoDup_cons in Hnd as [Hy Hnd].
  cbn [Timers.drop List.filter]. specialize (IH Hnd). unfold Timers.drop in IH.
  destruct (negb (Nat.eqb (Timers.handle y) h)); [|exact IH].
  cbn [List.map]. apply NoDup_cons. split; [|exact IH].
  intros Hin. apply Hy. apply list_elem_of_In in Hin. apply list_elem_of_In.
  apply in_map_iff in Hin as (z & Hz & Hzin). apply filter_In in Hzin as [Hzin _].
  rewrite <- Hz. apply in_map. exact Hzin.
Qed.

Lemma NoDup_snoc_fresh (ts : list (Timers.timer task)) (n : nat) (k : task) (d : Z) :
  Forall (fun tm => (Timers.handle tm < n)%nat) ts ->
  NoDup (List.map Timers.handle ts) ->
  NoDup (List.map Timers.handle
           (ts ++ [{| Timers.handle := n; Timers.due := d; Timers.callback := k |}])).
Proof.
  intros Hlt Hnd. rewrite List.map_app. cbn [List.map Timers.handle].
  apply NoDup_app. split; [exact Hnd|]. split; [|apply NoDup_singleton].
  intros x Hx Hx'. apply list_elem_of_In in Hx. apply list_elem_of_singleton in Hx'. subst x.
  apply in_map_iff in Hx as (z & Hz & Hzin).
  pose proof (proj1 (List.Forall_forall _ _) Hlt z Hzin) as Hlt'. cbv beta in Hlt'. lia.
Qed.

Lemma fire_handles_ok (tm : Timers.timer task) (p : page) :
  handles_ok p -> handles_ok (fire tm p).
Proof.
  intros (Hlt & Hnd).
  assert (Hlt' : Forall (fun x => (Timers.handle x < Timers.fresh (loop p))%nat)
                   (Timers.drop (Timers.handle tm) (Timers.pending (loop p)))).
  { apply List.Forall_forall. intros y Hy. apply In_drop in Hy as [Hy _].
    exact (proj1 (List.Forall_forall _ _) Hlt y Hy). }
  pose proof (NoDup_drop (Timers.handle tm) _ Hnd) as Hnd'.
  unfold fire, handles_ok. destruct (Timers.callback tm) as [i|i|i]; cbn.
  - split; assumption.
  - split.
    + apply Forall_app. split.
      * eapply Forall_impl; [exact Hlt'|]. cbn. intros; lia.
      * constructor; [cbn; lia | constructor].
    + apply NoDup_snoc_fresh; assumption.
  - split; assumption.
Qed.

Lemma same_handle (ts : list (Timers.timer task)) (a b : Timers.timer task) :
  NoDup (List.map Timers.handle ts) -> In a ts -> In b ts ->
  Timers.handle a = Timers.handle b -> a = b.
Proof.
  induction ts as [|y ts IH]; intros Hnd Ha Hb E; [destruct Ha|].
  cbn [List.map] in Hnd. apply NoDup_cons in Hnd as [Hy Hnd].
  destruct Ha as [->|Ha], Hb as [->|Hb]; [reflexivity | | | exact (IH Hnd Ha Hb E)];
    exfalso; apply Hy; apply list_elem_of_In.
  - rewrite E. apply in_map. exact Hb.
  - rewrite <- E. apply in_map. exact Ha.
Qed.

Lemma not_in_children_exec (k : task) (p : page) :
  ~ In id (children p) -> ~ In id (children (exec k p)).
Proof.
  intros Hn. destruct k as [i|i|i]; try exact Hn.
  unfold children in *. cbn. destruct (container p) as [ids|]; [|exact Hn].
  intros Hin. apply filter_In in Hin as [Hin _]. exact (Hn Hin).
Qed.

Lemma pending_exec (k : task) (p : page) (y : Timers.timer task) :
  In y (Timers.pending (loop p)) -> In y (Timers.pending (loop (exec k p))).
Proof.
  intros Hy. destruct k as [i|i|i]; try exact Hy.
  cbn. apply in_or_app. left. exact Hy.
Qed.

Lemma clock_exec (k : task) (p : page) :
  Timers.clock (loop (exec k p)) = Timers.clock (loop p).
Proof. destruct k; reflexivity. Qed.

(** A callback that runs by [t] leaves a toast on its way out on its
    way out. *)
Lemma fire_leaving (tm0 : Timers.timer task) (p : page) :
  handles_ok p ->
  Timers.next_due t (Timers.pending (loop p)) = Some tm0 ->
  leaving id t p -> leaving id t (fire tm0 p).
Proof.
  intros (_ & Hnd) E Hl. destruct (next_due_spec t _ tm0 E) as (Hin0 & Hdue0 & Hleast).
  assert (Hstay : forall y, In y (Timers.pending (loop p)) -> y <> tm0 ->
                    In y (Timers.pending (loop (fire tm0 p)))).
  { intros y Hy Hne. unfold fire. apply pending_exec. cbn. apply In_drop.
    split; [exact Hy|]. intros Eh. apply Hne. exact (same_handle _ y tm0 Hnd Hy Hin0 Eh). }
  destruct Hl as [Hout | [(tm & Hin & Hk & Hd) | (tm & Hin & Hk & Hd & Hclk)]].
  - left. unfold fire. apply not_in_children_exec. exact Hout.
  - destruct (Nat.eq_dec (Timers.handle tm) (Timers.handle tm0)) as [Eh|Hne].
    + pose proof (same_handle _ tm tm0 Hnd Hin Hin0 Eh) as ->.
      left. unfold fire. rewrite Hk. unfold children. cbn.
      destruct (container p) as [ids|]; [|intros []].
      intros Hc. apply filter_In in Hc as [_ Hc].
      rewrite Nat.eqb_refl in Hc. discriminate Hc.
    + right. left. exists tm. split; [|split; assumption].
      apply Hstay; [exact Hin | intros ->; exact (Hne eq_refl)].
  - destruct (Nat.eq_dec (Timers.handle tm) (Timers.handle tm0)) as [Eh|Hne].
    + pose proof (same_handle _ tm tm0 Hnd Hin Hin0 Eh) as ->.
      right. left. unfold fire. rewrite Hk. cbn.
      eexists. split; [apply in_or_app; right; left; reflexivity|].
      cbn. split; [reflexivity | lia].
    + right. right. exists tm. split; [|split; [exact Hk|split; [exact Hd|]]].
      * apply Hstay; [exact Hin | intros ->; exact (Hne eq_refl)].
      * unfold fire. rewrite clock_exec. cbn. specialize (Hleast tm Hin). lia.
Qed.

Lemma run_leaving (fuel : nat) :
  forall p,
    handles_ok p -> leaving id t p ->
    leaving id t (Timers.run_due loop set_loop exec fuel t p).
Proof.
  induction fuel as [|n IH]; intros p Hh Hl; cbn [Timers.run_due]; [exact Hl|].
  destruct (Timers.next_due t (Timers.pending (loop p))) as [tm|] eqn:E; [|exact Hl].
  apply IH; [apply fire_handles_ok, Hh | apply fire_leaving; assumption].
Qed.

(** Once time has passed to [t], a toast on its way out is out. *)
Lemma advance_leaves (p : page) :
  handles_ok p -> leaving id t p -> ~ In id (children (advance t p)).
Proof.
  intros Hh Hl.
  pose proof (run_leaving (2 * length (Timers.pending (loop p))) p Hh Hl) as H.
  pose proof (run_settles t (2 * length (Timers.pending (loop p))) p (total_bound _)) as Hs.
  pose proof (next_due_none t _ Hs) as Hlate.
  unfold advance. cbn.
  destruct H as [Hout | [(tm & Hin & _ & Hd) | (tm & Hin & _ & Hd & _)]].
  - exact Hout.
  - specialize (Hlate tm Hin). lia.
  - specialize (Hlate tm Hin). lia.
Qed.
End ToastLifecycle.

Section ToastResults.
Import Toast.

Lemma show_handles_ok (msg ty : string) (duration : option Z) (p : page) :
  well_formed p -> handles_ok (snd (show msg ty duration p)).
Proof.
  intros (_ & Hlt & Hnd). unfold handles_ok, show. cbn.
  assert (Hlt1 : Forall (fun tm => (Timers.handle tm < S (Timers.fresh (loop p)))%nat)
                   (Timers.pending (loop p)
                    ++ [{| Timers.handle := Timers.fresh (loop p);
                           Timers.due := Timers.clock (loop p) + 100;
                           Timers.callback := MarkShown (length (elements p)) |}])).
  { apply Forall_app. split.
    - eapply Forall_impl; [exact Hlt|]. cbn. intros; lia.
    - constructor; [cbn; lia | constructor]. }
  split.
  - apply Forall_app. split.
    + eapply Forall_impl; [exact Hlt1|]. cbn. intros; lia.
    + constructor; [cbn; lia | constructor].
  - apply NoDup_snoc_fresh; [exact Hlt1|]. apply NoDup_snoc_fresh; assumption.
Qed.

Lemma hide_handles_ok (id : nat) (p : page) : well_formed p -> handles_ok (hide id p).
Proof.
  intros (_ & Hlt & Hnd). unfold handles_ok, hide. cbn. split.
  - apply Forall_app. split.
    + eapply Forall_impl; [exact Hlt|]. cbn. intros; lia.
    + constructor; [cbn; lia | constructor].
  - apply NoDup_snoc_fresh; assumption.
Qed.

(** X24: a toast that has been shown stays in the container until 300 ms
    after its time-out, whatever other toasts and timers the page has.
    The time-out is the [duration] given, or [toastTimeout] when none
    or zero is given. *)
Theorem toast_stays (msg ty : string) (duration : option Z) (p : page) (T : Z) :
  well_formed p ->
  T < Timers.clock (loop p) + effective duration (toastTimeout p) + 300 ->
  In (fst (show msg ty duration p)) (children (advance T (snd (show msg ty duration p)))).
Proof.
  intros (Hids & _ & _) HT. unfold advance. cbn [children set_loop container].
  apply run_kept.
  - unfold show, children. cbn. apply in_or_app. right. left. reflexivity.
  - unfold show. cbn. repeat (apply Forall_app; split).
    + eapply Forall_impl; [exact Hids|]. intros tm Hlt. cbv beta in Hlt. unfold kept_until.
      destruct (Timers.callback tm) as [i|i|i]; cbn [task_id] in Hlt; [exact I | |];
        intros ->; exfalso; lia.
    + constructor; [exact I | constructor].
    + constructor; [|constructor]. unfold kept_until. cbn. intros _. lia.
Qed.

Lemma toast_stays_witness :
  In 0%nat
    (children
       (advance 3299
          (snd (show "Order filled" "success" None
                  {| container := None; elements := []; loop := Timers.start 0;
                     toastTimeout := 3000 |})))).
Proof.
  apply (toast_stays "Order filled" "success" None
           {| container := None; elements := []; loop := Timers.start 0;
              toastTimeout := 3000 |} 3299).
  - repeat split; constructor.
  - cbn. lia.
Defined.

(** X25: a toast that has been shown is out of the container once 300 ms
    have passed since its time-out, whatever else the page holds.  A
    negative time-out counts as zero: the toast is then out 300 ms
    after [show]. *)
Theorem toast_removed (msg ty : string) (duration : option Z) (p : page) (T : Z) :
  well_formed p ->
  Timers.clock (loop p) + Z.max 0 (effective duration (toastTimeout p)) + 300 <= T ->
  ~ In (fst (show msg ty duration p)) (children (advance T (snd (show msg ty duration p)))).
Proof.
  intros Hwf HT. apply advance_leaves; [apply show_handles_ok, Hwf|].
  right. right. unfold show. cbn.
  eexists. split; [apply in_or_app; right; left; reflexivity|].
  cbn. split; [reflexivity|]. lia.
Qed.

Lemma toast_removed_witness :
  ~ In 0%nat
      (children
         (advance 3300
            (snd (show "Order filled" "success" (Some 0)
                    {| container := None; elements := []; loop := Timers.start 0;
                       toastTimeout := 3000 |}))))
  /\ ~ In 0%nat
        (children
           (advance 300
              (snd (show "Order filled" "success" (Some (-5))
                      {| container := None; elements := []; loop := Timers.start 0;
                         toastTimeout := 3000 |})))).
Proof.
  split.
  - apply (toast_removed "Order filled" "success" (Some 0)
             {| container := None; elements := []; loop := Timers.start 0;
                toastTimeout := 3000 |} 3300).
    + repeat split; constructor.
    + cbn. lia.
  - apply (toast_removed "Order filled" "success" (Some (-5))
             {| container := None; elements := []; loop := Timers.start 0;
                toastTimeout := 3000 |} 300).
    + repeat split; constructor.
    + cbn. lia.
Defined.

(** X26: a toast that is hidden, by its close button or by the code, is out
    of the container 300 ms later; hiding it again, or hiding a toast
    that is gone already, does not change that. *)
Theorem hide_detaches (id : nat) (p : page) (T : Z) :
  well_formed p ->
  Timers.clock (loop p) + 300 <= T ->
  ~ In id (children (advance T (hide id p)))
  /\ ~ In id (children (advance T (hide id (hide id p)))).
Proof.
  intros Hwf HT.
  assert (L : forall q, Timers.clock (loop q) = Timers.clock (loop p) ->
                leaving id T (hide id q)).
  { intros q Hq. right. left. unfold hide. cbn.
    eexists. split; [apply in_or_app; right; left; reflexivity|].
    cbn. split; [reflexivity | lia]. }
  split.
  - apply advance_leaves; [apply hide_handles_ok, Hwf | apply L; reflexivity].
  - apply advance_leaves; [|apply L; reflexivity].
    destruct (hide_handles_ok id p Hwf) as (Hlt & Hnd). unfold handles_ok, hide in *. cbn in *.
    split.
    + apply Forall_app. split.
      * eapply Forall_impl; [exact Hlt|]. cbn. intros; lia.
      * constructor; [cbn; lia | constructor].
    + apply NoDup_snoc_fresh; assumption.
Qed.

Lemma hide_detaches_witness :
  ~ In 0%nat
      (children
         (advance 800
            (hide 0 {| container := Some [0%nat];
                       elements := [createElement "Order filled" "success"];
                       loop := Timers.start 500; toastTimeout := 3000 |}))).
Proof.
  apply (proj1 (hide_detaches 0
           {| container := Some [0%nat];
              elements := [createElement "Order filled" "success"];
              loop := Timers.start 500; toastTimeout := 3000 |} 800
           ltac:(repeat split; constructor) ltac:(cbn; lia))).
Defined.
End ToastResults.

(** ** Form validation *)

Section FormValidation.
Import Validation.

Lemma drop_spaces_nil (l : list ascii) :
  drop_spaces l = [] <-> forall c, In c l -> Email.is_space c = true.
Proof.
  induction l as [|a l IH]; cbn [drop_spaces].
  - split; [intros _ c [] | reflexivity].
  - destruct (Email.is_space a) eqn:E.
    + rewrite IH. split.
      * intros H c [<-|Hc]; [exact E | exact (H c Hc)].
      * intros H c Hc. apply H. right. exact Hc.
    + split; [discriminate|]. intros H. specialize (H a (or_introl eq_refl)). congruence.
Qed.

Lemma drop_spaces_suffix (l : list ascii) :
  forall c, In c (drop_spaces l) -> In c l.
Proof.
  induction l as [|a l IH]; cbn [drop_spaces]; intros c Hc; [exact Hc|].
  destruct (Email.is_space a); [right; exact (IH c Hc) | exact Hc].
Qed.

Lemma drop_spaces_head (l : list ascii) :
  match drop_spaces l with
  | [] => True
  | c :: _ => Email.is_space c = false
  end.
Proof.
  induction l as [|a l IH]; cbn [drop_spaces]; [exact I|].
  destruct (Email.is_space a) eqn:E; [exact IH | exact E].
Qed.

Lemma string_of_list_nil (l : list ascii) : string_of_list_ascii l = EmptyString <-> l = [].
Proof. destruct l; cbn; split; (reflexivity || discriminate). Qed.

(** [trim] leaves nothing exactly of the strings made of white space
    only. *)
Lemma trim_empty (s : string) :
  trim s = EmptyString <-> forall c, In c (list_ascii_of_string s) -> Email.is_space c = true.
Proof.
  unfold trim. rewrite string_of_list_nil. split.
  - intros H. apply drop_spaces_nil.
    destruct (drop_spaces (list_ascii_of_string s)) as [|c l] eqn:E; [reflexivity|].
    exfalso. pose proof (drop_spaces_head (list_ascii_of_string s)) as Hh. rewrite E in Hh.
    assert (Hr : drop_spaces (rev (c :: l)) = []).
    { destruct (drop_spaces (rev (c :: l))); [reflexivity|].
      apply (f_equal (@length ascii)) in H. rewrite length_rev in H. discriminate H. }
    rewrite drop_spaces_nil in Hr. specialize (Hr c). rewrite Hr in Hh; [discriminate|].
    apply in_rev. rewrite rev_involutive. left. reflexivity.
  - intros H. apply drop_spaces_nil in H. rewrite H. reflexivity.
Qed.

Lemma blank_spec (s : string) :
  blank (Some s) = false
  <-> exists c, In c (list_ascii_of_string s) /\ Email.is_space c = false.
Proof.
  unfold blank. rewrite orb_false_iff. split.
  - intros [_ Ht]. apply String.eqb_neq in Ht.
    assert (Hn : ~ forall c, In c (list_ascii_of_string s) -> Email.is_space c = true).
    { intros H. apply Ht, trim_empty, H. }
    induction (list_ascii_of_string s) as [|a l IH]; [exfalso; apply Hn; intros c []|].
    destruct (Email.is_space a) eqn:E.
    + destruct IH as (c & Hc & Hs).
      * intros H. apply Hn. intros c [<-|Hc]; [exact E | exact (H c Hc)].
      * exists c. split; [right; exact Hc | exact Hs].
    + exists a. split; [left; reflexivity | exact E].
  - intros (c & Hc & Hs). split; apply String.eqb_neq.
    + intros ->. destruct Hc.
    + intros Ht. rewrite trim_empty in Ht. rewrite (Ht c Hc) in Hs. discriminate.
Qed.

Lemma check_required_spec (form : list field) :
  check_required form
  = (List.map (fun f => String.append (getFieldLabel f) " is required")
       (List.filter (fun f => required f && blank (value f)) form),
     List.map (fun f => if required f then set_invalid (blank (value f)) f else f) form).
Proof.
  induction form as [|f form IH]; [reflexivity|].
  cbn [check_required List.filter List.map]. rewrite IH.
  destruct (required f); cbn [andb]; [|reflexivity].
  destruct (blank (value f)); reflexivity.
Qed.

Lemma check_email_spec (form : list field) :
  check_email form
  = (List.map (fun f => String.append (getFieldLabel f) " must be a valid email address")
       (List.filter (fun f => email f && bad_email (value f)) form),
     List.map (fun f => if email f && bad_email (value f) then set_invalid true f else f) form).
Proof.
  induction form as [|f form IH]; [reflexivity|].
  cbn [check_email List.filter List.map]. rewrite IH.
  destruct (email f && bad_email (value f)); reflexivity.
Qed.

Lemma filter_nil_iff {A : Type} (p : A -> bool) (l : list A) :
  List.filter p l = [] <-> forall x, In x l -> p x = false.
Proof.
  induction l as [|a l IH]; cbn [List.filter].
  - split; [intros _ x [] | reflexivity].
  - destruct (p a) eqn:E.
    + split; [discriminate|]. intros H. specialize (H a (or_introl eq_refl)). congruence.
    + rewrite IH. split.
      * intros H x [<-|Hx]; [exact E | exact (H x Hx)].
      * intros H x Hx. apply H. right. exact Hx.
Qed.

Lemma validateForm_spec (form : list field) :
  validateForm form
  = ({| isValid :=
          Nat.eqb
            (length
               (List.map (fun f => String.append (getFieldLabel f) " is required")
                  (List.filter (fun f => required f && blank (value f)) form)
                ++ List.map
                     (fun f => String.append (getFieldLabel f) " must be a valid email address")
                     (List.filter (fun f => email f && bad_email (value f)) form))) 0;
        errors :=
          List.map (fun f => String.append (getFieldLabel f) " is required")
            (List.filter (fun f => required f && blank (value f)) form)
          ++ List.map
               (fun f => String.append (getFieldLabel f) " must be a valid email address")
               (List.filter (fun f => email f && bad_email (value f)) form) |},
     List.map (fun f => set_invalid (mark_after f) f) form).
Proof.
  unfold validateForm. rewrite check_required_spec, check_email_spec.
  assert (Hf : forall l : list field,
             List.filter (fun f => email f && bad_email (value f))
               (List.map (fun f => if required f then set_invalid (blank (value f)) f else f) l)
             = List.map (fun f => if required f then set_invalid (blank (value f)) f else f)
                 (List.filter (fun f => email f && bad_email (value f)) l)).
  { induction l as [|f l IH]; [reflexivity|]. cbn [List.map List.filter]. rewrite IH.
    destruct (required f) eqn:Hr; cbn [set_invalid email value];
      destruct (email f && bad_email (value f)); cbn [List.map]; rewrite ?Hr; reflexivity. }
  rewrite Hf, !List.map_map.
  assert (E_err : forall l : list field,
             List.map
               (fun x => String.append
                           (getFieldLabel
                              (if required x then set_invalid (blank (value x)) x else x))
                           " must be a valid email address") l
             = List.map
                 (fun f => String.append (getFieldLabel f) " must be a valid email address") l).
  { intros l. apply List.map_ext. intros f. destruct (required f); reflexivity. }
  assert (E_fld :
            List.map
              (fun x =>
                 if email (if required x then set_invalid (blank (value x)) x else x)
                    && bad_email
                         (value (if required x then set_invalid (blank (value x)) x else x))
                 then set_invalid true
                        (if required x then set_invalid (blank (value x)) x else x)
                 else if required x then set_invalid (blank (value x)) x else x) form
            = List.map (fun f => set_invalid (mark_after f) f) form).
  { apply List.map_ext. intros [n r e l v i]. unfold mark_after. cbn.
    destruct r; cbn; destruct (e && bad_email v); cbn;
      rewrite ?orb_true_r, ?orb_false_r; reflexivity. }
  rewrite E_err, E_fld. reflexivity.
Qed.

(** X27: the form is valid exactly when every required control holds a
    character that is not white space and every email input that is not
    empty holds an address [isValidEmail] accepts. *)
Theorem validateForm_valid (form : list field) :
  isValid (fst (validateForm form)) = true
  <-> (forall f, In f form -> required f = true ->
         exists s c, value f = Some s /\ In c (list_ascii_of_string s)
                     /\ Email.is_space c = false)
      /\ (forall f s, In f form -> email f = true -> value f = Some s -> s <> EmptyString ->
            Email.isValidEmail s = true).
Proof.
  rewrite validateForm_spec. cbn [fst isValid].
  rewrite Nat.eqb_eq, length_zero_iff_nil.
  split.
  - intros H. apply app_eq_nil in H as [H1 H2].
    apply map_eq_nil in H1, H2. rewrite filter_nil_iff in H1, H2. split.
    + intros f Hin Hr. specialize (H1 f Hin). rewrite Hr in H1. cbn [andb] in H1.
      destruct (value f) as [s|]; [|discriminate H1].
      apply blank_spec in H1 as (c & Hc & Hs). exists s, c. repeat split; assumption.
    + intros f s Hin He Hv Hne. specialize (H2 f Hin). rewrite He, Hv in H2.
      cbn in H2. apply andb_false_iff in H2 as [H2|H2].
      * apply negb_false_iff, String.eqb_eq in H2. contradiction.
      * apply negb_false_iff in H2. exact H2.
  - intros [H1 H2].
    assert (E1 : List.filter (fun f => required f && blank (value f)) form = []).
    { apply filter_nil_iff. intros f Hin. destruct (required f) eqn:Hr; [|reflexivity].
      destruct (H1 f Hin Hr) as (s & c & -> & Hc & Hs). cbn [andb].
      apply blank_spec. exists c. split; assumption. }
    assert (E2 : List.filter (fun f => email f && bad_email (value f)) form = []).
    { apply filter_nil_iff. intros f Hin. destruct (email f) eqn:He; [|reflexivity].
      cbn [andb]. destruct (value f) as [s|] eqn:Hv; [|reflexivity]. cbn.
      destruct (String.eqb_spec s ""); [reflexivity|].
      rewrite (H2 f s Hin He Hv) by assumption. reflexivity. }
    rewrite E1, E2. reflexivity.
Qed.

Lemma validateForm_valid_witness :
  isValid
    (fst (validateForm
            [{| name := "email"; required := true; email := true; label := Some "Email *";
                value := Some "trader@quantpulse.io"; invalid := true |}])) = true.
Proof.
  apply validateForm_valid. split.
  - intros f [<-|[]] _. exists "trader@quantpulse.io", "t"%char.
    split; [reflexivity|]. split; [left; reflexivity | reflexivity].
  - intros f s [<-|[]] _ [= <-] _. reflexivity.
Defined.

(** X28: the marks [validateForm] leaves: a required control is marked when
    it is blank and cleared when it is not; a control that is not
    required keeps the mark it had; and an email input that holds a bad
    address is marked in any case. *)
Theorem validateForm_marks (form : list field) :
  snd (validateForm form) = List.map (fun f => set_invalid (mark_after f) f) form
  /\ length (errors (fst (validateForm form)))
     = (length (List.filter (fun f => required f && blank (value f)) form)
        + length (List.filter (fun f => email f && bad_email (value f)) form))%nat.
Proof.
  rewrite validateForm_spec. cbn [fst snd errors]. split; [reflexivity|].
  rewrite length_app, !length_map. reflexivity.
Qed.
End FormValidation.
